(** * rabbitmq-cli-consumer: job builder, worker pool and consumer loop

    A shallow embedding of the Go sources

      - handler  (HTTPJobBuilder.BuildJob, httpMessage.parse / reset,
                  buildRequest, buildHeaders, HTTPJob.Do, and
                  HTTPMessagerHandler.HandleMessage with parseMessage),
      - consumer (New, sanitizeQueueArgs, Consumer.Consume and
                  Consumer.handleMsg in their three versions),
      - consumer/pool.go (worker.start, dispatcher.dispatch, Pool),
      - main (the action of the application, createLogger,
              getDebugLogger),

    together with models of the library calls they rely on
    (encoding/json, net/http, net/textproto, sync.Pool, Go channels). *)

From Stdlib Require Import Ascii String ZArith NArith Lia.
From stdpp Require Import base option list gmap strings fin_maps.

Set Warnings "-register-all".

Local Open Scope list_scope.

(** Go's [[]byte] is a list of 8-bit characters; Go's [string] is [string]. *)
Abbreviation bytes := (list ascii).

Definition bytes_of_string (s : string) : bytes := list_ascii_of_string s.
Definition string_of_bytes (b : bytes) : string := string_of_list_ascii b.

(** The bytes of a JSON text that is written here with ['] in the place of
    every double quote. *)
Definition json_text (s : string) : bytes :=
  (fun c : ascii => if Ascii.eqb c "'"%char then "034"%char else c)
    <$> bytes_of_string s.

(* ===================================================================== *)
(** * encoding/json: the scanner *)
(* ===================================================================== *)

Module JSON.

Local Open Scope char_scope.

(** A decoded JSON value.  Numbers keep their literal text (the decoder is
    used with [UseNumber]); every object member also records the raw bytes
    of its value, which is what a [json.RawMessage] field receives. *)
Inductive json : Type :=
| JNull
| JBool (b : bool)
| JNumber (lit : string)
| JString (s : string)
| JArray (xs : list json)
| JObject (ms : list (string * bytes * json)).

Definition member : Type := (string * bytes * json)%type.

Definition byte_val (c : ascii) : N := N_of_ascii c.

(** The double quote. *)
Definition dquote : ascii := "034".
Definition in_range (lo hi : N) (c : ascii) : bool :=
  ((lo <=? byte_val c) && (byte_val c <=? hi))%N.

(** scanner.go, isSpace *)
Definition isSpace (c : ascii) : bool :=
  Ascii.eqb c " " || Ascii.eqb c "009" || Ascii.eqb c "013" || Ascii.eqb c "010".

Fixpoint skip_space (s : bytes) : bytes :=
  match s with
  | c :: r => if isSpace c then skip_space r else s
  | [] => []
  end.

Definition is_digit (c : ascii) : bool := in_range 48 57 c.
Definition is_digit19 (c : ascii) : bool := in_range 49 57 c.
Definition is_hex (c : ascii) : bool :=
  is_digit c || in_range 97 102 c || in_range 65 70 c.

(** Splits off the longest run of digits. *)
Fixpoint span_digits (s : bytes) : bytes * bytes :=
  match s with
  | c :: r => if is_digit c then let '(d, r') := span_digits r in (c :: d, r')
              else ([], s)
  | [] => ([], [])
  end.

(** The exponent part of a number: [e] or [E], an optional sign and at
    least one digit (states stateE, stateESign, stateE0). *)
Definition lex_exp (s : bytes) : option (bytes * bytes) :=
  match s with
  | e :: r =>
      if Ascii.eqb e "e" || Ascii.eqb e "E" then
        let '(sign, r1) :=
          match r with
          | c :: r' => if Ascii.eqb c "+" || Ascii.eqb c "-" then ([c], r') else ([], r)
          | [] => ([], r)
          end in
        match span_digits r1 with
        | ([], _) => None
        | (d, r2) => Some (e :: sign ++ d, r2)
        end
      else Some ([], s)
  | [] => Some ([], s)
  end.

(** The fraction part: a dot followed by at least one digit (stateDot,
    stateDot0). *)
Definition lex_frac (s : bytes) : option (bytes * bytes) :=
  match s with
  | c :: r =>
      if Ascii.eqb c "." then
        match span_digits r with
        | ([], _) => None
        | (d, r1) => Some (c :: d, r1)
        end
      else Some ([], s)
  | [] => Some ([], s)
  end.

(** The integer part after an optional minus sign: a single [0], or a
    digit 1-9 followed by digits (stateNeg, state0, state1). *)
Definition lex_int (s : bytes) : option (bytes * bytes) :=
  match s with
  | c :: r =>
      if Ascii.eqb c "0" then Some ([c], r)
      else if is_digit19 c then let '(d, r1) := span_digits r in Some (c :: d, r1)
      else None
  | [] => None
  end.

Definition lex_number (s : bytes) : option (bytes * bytes) :=
  let '(sign, r0) :=
    match s with
    | c :: r => if Ascii.eqb c "-" then ([c], r) else ([], s)
    | [] => ([], s)
    end in
  match lex_int r0 with
  | None => None
  | Some (i, r1) =>
      match lex_frac r1 with
      | None => None
      | Some (f, r2) =>
          match lex_exp r2 with
          | None => None
          | Some (e, r3) => Some (sign ++ i ++ f ++ e, r3)
          end
      end
  end.

(** The inside of a string literal, after the opening quote: returns the
    bytes up to the closing quote and what follows it (stateInString,
    stateInStringEsc, stateInStringEscU...).  Control characters are
    rejected, an escape is one of the eight single letters or [u] and four
    hexadecimal digits. *)
Fixpoint lex_string (s : bytes) : option (bytes * bytes) :=
  match s with
  | [] => None
  | c :: r =>
      if Ascii.eqb c dquote then Some ([], r)
      else if Ascii.eqb c "\" then
        match r with
        | e :: r1 =>
            if Ascii.eqb e "u" then
              match r1 with
              | h1 :: h2 :: h3 :: h4 :: r2 =>
                  if is_hex h1 && is_hex h2 && is_hex h3 && is_hex h4 then
                    match lex_string r2 with
                    | Some (body, rest) => Some (c :: e :: h1 :: h2 :: h3 :: h4 :: body, rest)
                    | None => None
                    end
                  else None
              | _ => None
              end
            else if Ascii.eqb e dquote || Ascii.eqb e "\" || Ascii.eqb e "/"
                    || Ascii.eqb e "b" || Ascii.eqb e "f" || Ascii.eqb e "n"
                    || Ascii.eqb e "r" || Ascii.eqb e "t" then
              match lex_string r1 with
              | Some (body, rest) => Some (c :: e :: body, rest)
              | None => None
              end
            else None
        | [] => None
        end
      else if (byte_val c <? 32)%N then None
      else
        match lex_string r with
        | Some (body, rest) => Some (c :: body, rest)
        | None => None
        end
  end.

(** ** Unquoting string literals (decode.go, unquoteBytes) *)

(** utf8.EncodeRune for a code point that is not a surrogate. *)
Definition encode_rune (r : N) : bytes :=
  let b (n : N) := ascii_of_N n in
  if (r <? 128)%N then [b r]
  else if (r <? 2048)%N then
    [b (192 + r / 64); b (128 + r mod 64)]%N
  else if (r <? 65536)%N then
    [b (224 + r / 4096); b (128 + (r / 64) mod 64); b (128 + r mod 64)]%N
  else
    [b (240 + r / 262144); b (128 + (r / 4096) mod 64);
     b (128 + (r / 64) mod 64); b (128 + r mod 64)]%N.

Definition rune_error : N := 65533.

Definition hex_val (c : ascii) : N :=
  if is_digit c then byte_val c - 48
  else if in_range 97 102 c then byte_val c - 87
  else byte_val c - 55.

Definition getu4 (h1 h2 h3 h4 : ascii) : N :=
  (hex_val h1 * 4096 + hex_val h2 * 256 + hex_val h3 * 16 + hex_val h4)%N.

Definition is_surrogate (r : N) : bool := ((55296 <=? r) && (r <? 57344))%N.

(** utf16.DecodeRune *)
Definition utf16_decode (r1 r2 : N) : N :=
  if ((55296 <=? r1) && (r1 <? 56320) && (56320 <=? r2) && (r2 <? 57344))%N
  then ((r1 - 55296) * 1024 + (r2 - 56320) + 65536)%N
  else rune_error.

(** The length of the well-formed UTF-8 sequence at the head of [s], if
    there is one (utf8.DecodeRune: the first-byte table and the accept
    ranges of the second byte). *)
Definition utf8_len (s : bytes) : option nat :=
  let cont := in_range 128 191 in
  match s with
  | [] => None
  | c0 :: r =>
      if (byte_val c0 <? 128)%N then Some 1%nat
      else if in_range 194 223 c0 then
        match r with c1 :: _ => if cont c1 then Some 2%nat else None | _ => None end
      else if in_range 224 239 c0 then
        match r with
        | c1 :: c2 :: _ =>
            let lo := if Ascii.eqb c0 "224" then 160%N else 128%N in
            let hi := if Ascii.eqb c0 "237" then 159%N else 191%N in
            if in_range lo hi c1 && cont c2 then Some 3%nat else None
        | _ => None
        end
      else if in_range 240 244 c0 then
        match r with
        | c1 :: c2 :: c3 :: _ =>
            let lo := if Ascii.eqb c0 "240" then 144%N else 128%N in
            let hi := if Ascii.eqb c0 "244" then 143%N else 191%N in
            if in_range lo hi c1 && cont c2 && cont c3 then Some 4%nat else None
        | _ => None
        end
      else None
  end.

Definition unescape (e : ascii) : ascii :=
  if Ascii.eqb e "b" then "008"
  else if Ascii.eqb e "f" then "012"
  else if Ascii.eqb e "n" then "010"
  else if Ascii.eqb e "r" then "013"
  else if Ascii.eqb e "t" then "009"
  else e.

(** [unquote_go pend k s]: [s] is the inside of a literal accepted by
    [lex_string]; [pend] holds a [\u] escape in the surrogate range whose
    partner has not been read yet; [k] counts the bytes of a well-formed
    multi-byte sequence that are still to be copied. *)
Fixpoint unquote_go (pend : option N) (k : nat) (s : bytes) : bytes :=
  let flush := match pend with Some _ => encode_rune rune_error | None => [] end in
  match s with
  | [] => flush
  | c :: r =>
      match k with
      | S k' => c :: unquote_go None k' r
      | O =>
          if Ascii.eqb c "\" then
            match r with
            | e :: r1 =>
                if Ascii.eqb e "u" then
                  match r1 with
                  | h1 :: h2 :: h3 :: h4 :: r2 =>
                      let rr := getu4 h1 h2 h3 h4 in
                      match pend with
                      | Some hi =>
                          if N.eqb (utf16_decode hi rr) rune_error then
                            encode_rune rune_error ++
                            (if is_surrogate rr then unquote_go (Some rr) 0 r2
                             else encode_rune rr ++ unquote_go None 0 r2)
                          else encode_rune (utf16_decode hi rr) ++ unquote_go None 0 r2
                      | None =>
                          if is_surrogate rr then unquote_go (Some rr) 0 r2
                          else encode_rune rr ++ unquote_go None 0 r2
                      end
                  | _ => flush
                  end
                else flush ++ unescape e :: unquote_go None 0 r1
            | [] => flush
            end
          else
            match utf8_len s with
            | Some (S n) => flush ++ c :: unquote_go None n r
            | _ => flush ++ encode_rune rune_error ++ unquote_go None 0 r
            end
      end
  end.

Definition unquote (s : bytes) : string := string_of_bytes (unquote_go None 0 s).

(** ** Values *)

Fixpoint strip_prefix (p s : bytes) : option bytes :=
  match p, s with
  | [], _ => Some s
  | a :: p', b :: s' => if Ascii.eqb a b then strip_prefix p' s' else None
  | _ :: _, [] => None
  end.

(** The bytes of [s] that were read when [rest] is what remains. *)
Definition raw_of (s rest : bytes) : bytes := take (length s - length rest) s.

Section Containers.
(** The parser of one value, positioned on its first byte. *)
Variable value : bytes -> option (json * bytes).

(** The elements of a non-empty array, positioned on the first byte of
    an element; [n] bounds the number of elements. *)
Fixpoint elements (n : nat) (s : bytes) : option (list json * bytes) :=
  match n with
  | O => None
  | S n' =>
      match value s with
      | None => None
      | Some (v, r) =>
          match skip_space r with
          | c :: r1 =>
              if Ascii.eqb c "," then
                match elements n' (skip_space r1) with
                | Some (vs, r2) => Some (v :: vs, r2)
                | None => None
                end
              else if Ascii.eqb c "]" then Some ([v], r1)
              else None
          | [] => None
          end
      end
  end.

(** The members of a non-empty object, positioned on the opening quote
    of a key. *)
Fixpoint members (n : nat) (s : bytes) : option (list member * bytes) :=
  match n with
  | O => None
  | S n' =>
      match s with
      | q :: r =>
          if Ascii.eqb q dquote then
            match lex_string r with
            | None => None
            | Some (k, r1) =>
                match skip_space r1 with
                | c :: r2 =>
                    if Ascii.eqb c ":" then
                      let r3 := skip_space r2 in
                      match value r3 with
                      | None => None
                      | Some (v, r4) =>
                          let m := (unquote k, raw_of r3 r4, v) in
                          match skip_space r4 with
                          | d :: r5 =>
                              if Ascii.eqb d "," then
                                match members n' (skip_space r5) with
                                | Some (ms, r6) => Some (m :: ms, r6)
                                | None => None
                                end
                              else if Ascii.eqb d "}" then Some ([m], r5)
                              else None
                          | [] => None
                          end
                      end
                    else None
                | [] => None
                end
            end
          else None
      | [] => None
      end
  end.
End Containers.

(** One JSON value starting at the first byte of [s]; [n] bounds the
    nesting depth. *)
Fixpoint value (n : nat) (s : bytes) : option (json * bytes) :=
  match n with
  | O => None
  | S n' =>
      match s with
      | [] => None
      | c :: r =>
          if Ascii.eqb c "{" then
            match skip_space r with
            | c1 :: r1 =>
                if Ascii.eqb c1 "}" then Some (JObject [], r1)
                else
                  match members (value n') (length r) (c1 :: r1) with
                  | Some (ms, r2) => Some (JObject ms, r2)
                  | None => None
                  end
            | [] => None
            end
          else if Ascii.eqb c "[" then
            match skip_space r with
            | c1 :: r1 =>
                if Ascii.eqb c1 "]" then Some (JArray [], r1)
                else
                  match elements (value n') (length r) (c1 :: r1) with
                  | Some (vs, r2) => Some (JArray vs, r2)
                  | None => None
                  end
            | [] => None
            end
          else if Ascii.eqb c dquote then
            match lex_string r with
            | Some (body, r1) => Some (JString (unquote body), r1)
            | None => None
            end
          else if Ascii.eqb c "t" then
            match strip_prefix (bytes_of_string "rue") r with
            | Some r1 => Some (JBool true, r1)
            | None => None
            end
          else if Ascii.eqb c "f" then
            match strip_prefix (bytes_of_string "alse") r with
            | Some r1 => Some (JBool false, r1)
            | None => None
            end
          else if Ascii.eqb c "n" then
            match strip_prefix (bytes_of_string "ull") r with
            | Some r1 => Some (JNull, r1)
            | None => None
            end
          else
            match lex_number s with
            | Some (lit, r1) => Some (JNumber (string_of_bytes lit), r1)
            | None => None
            end
      end
  end.

(** [Decoder.readValue]: the first JSON value of the stream, after leading
    white space.  What follows the value is left in the stream and is not
    looked at; an empty stream is an error (io.EOF). *)
Definition scan (data : bytes) : option json :=
  match value (S (length data)) (skip_space data) with
  | Some (v, _) => Some v
  | None => None
  end.

End JSON.

Export JSON.

(* ===================================================================== *)
(** * Errors *)
(* ===================================================================== *)

(** What [Decoder.Decode] reports: the scanner rejected the input, or a
    JSON value had the wrong type for the Go field it was stored in. *)
Inductive decode_error : Type :=
| SyntaxError
| UnmarshalTypeError (field : string).

(** Go's [error] values, by the call that creates them. *)
Inductive error : Type :=
| ErrDecode (e : decode_error)                (* returned by dec.Decode *)
| ErrNew (text : string)                      (* errors.New(text) *)
| ErrInvalidMethod (method : string)          (* http.NewRequest *)
| ErrURLParse (url : string)                  (* http.NewRequest, from url.Parse *)
| ErrInvalidHeader (key : string) (v : json)  (* fmt.Errorf("invalid header, ...") *)
| ErrWrap (prefix : string) (e : error).      (* fmt.Errorf(prefix + ": %v", e) *)

Inductive result (A : Type) : Type :=
| Ok (a : A)
| Err (e : error).
Arguments Ok {A} a.
Arguments Err {A} e.

Definition is_Ok {A} (r : result A) : bool :=
  match r with Ok _ => true | Err _ => false end.

(** The error at the bottom of a chain of [fmt.Errorf] wrappers. *)
Fixpoint cause (e : error) : error :=
  match e with
  | ErrWrap _ e' => cause e'
  | _ => e
  end.

(* ===================================================================== *)
(** * handler: the scratch message and its decoding *)
(* ===================================================================== *)

(** [RequestParams] of [httpMessage].  A nil map and a nil slice are
    [None]. *)
Record requestParams : Type := {
  URI : string;
  Headers : option (gmap string json);
  Body : option bytes;
  Method : string
}.

Record httpMessage : Type := { RequestParams : requestParams }.

(** [&httpMessage{}], the value made by [httpMessagePool.New]. *)
Definition zero_message : httpMessage :=
  {| RequestParams := {| URI := ""; Headers := None; Body := None; Method := "" |} |}.

Module Decode.

(** Field names match a key exactly or after folding (encoding/json,
    foldName): ASCII letters are upper-cased, and the two non-ASCII runes
    that fold to ASCII letters, U+017F and U+212A, become [S] and [K]. *)
Fixpoint fold_bytes (s : bytes) : bytes :=
  match s with
  | [] => []
  | c :: r =>
      if in_range 97 122 c then ascii_of_N (byte_val c - 32) :: fold_bytes r
      else if Ascii.eqb c "197"%char then
        match r with
        | c1 :: r' =>
            if Ascii.eqb c1 "191"%char then "S"%char :: fold_bytes r' else c :: fold_bytes r
        | [] => c :: fold_bytes r
        end
      else if Ascii.eqb c "226"%char then
        match r with
        | c1 :: c2 :: r' =>
            if Ascii.eqb c1 "132"%char && Ascii.eqb c2 "170"%char
            then "K"%char :: fold_bytes r'
            else c :: fold_bytes r
        | _ => c :: fold_bytes r
        end
      else c :: fold_bytes r
  end.

Definition foldName (s : string) : string :=
  string_of_bytes (fold_bytes (bytes_of_string s)).

Definition field_match (name key : string) : bool :=
  String.eqb name key || String.eqb (foldName name) (foldName key).

(** The decoder keeps the first type error and goes on (saveError). *)
Definition saveError (saved : option decode_error) (e : decode_error)
  : option decode_error :=
  match saved with
  | Some _ => saved
  | None => Some e
  end.

(** A JSON value stored in a Go [string] field. *)
Definition store_string (field : string) (cur : string) (v : json)
  (saved : option decode_error) : string * option decode_error :=
  match v with
  | JString s => (s, saved)
  | JNull => (cur, saved)
  | _ => (cur, saveError saved (UnmarshalTypeError field))
  end.

(** A JSON value stored in a [map[string]interface{}] field: [null] makes
    the map nil, an object is added to the map that is there (a nil map is
    allocated first), a later duplicate of a key replaces the earlier
    one.  With [UseNumber] an [interface{}] holds the value as decoded:
    [JString] for a Go string, [JNumber] for a [json.Number]. *)
Definition store_map (field : string) (cur : option (gmap string json)) (v : json)
  (saved : option decode_error) : option (gmap string json) * option decode_error :=
  match v with
  | JObject ms =>
      (Some (foldl (fun (m : gmap string json) (kv : member) =>
                      <[kv.1.1 := kv.2]> m) (default ∅ cur) ms), saved)
  | JNull => (None, saved)
  | _ => (cur, saveError saved (UnmarshalTypeError field))
  end.

(** One member of the [request_params] object.  A [json.RawMessage] field
    is an Unmarshaler: it receives a copy of the raw bytes of the value,
    whatever the value is. *)
Definition store_param (st : requestParams * option decode_error) (m : member)
  : requestParams * option decode_error :=
  let '(p, saved) := st in
  let '(key, raw, v) := m in
  if field_match "uri" key then
    let '(s, saved') := store_string "uri" (URI p) v saved in
    ({| URI := s; Headers := Headers p; Body := Body p; Method := Method p |}, saved')
  else if field_match "headers" key then
    let '(h, saved') := store_map "headers" (Headers p) v saved in
    ({| URI := URI p; Headers := h; Body := Body p; Method := Method p |}, saved')
  else if field_match "body" key then
    ({| URI := URI p; Headers := Headers p; Body := Some raw; Method := Method p |}, saved)
  else if field_match "method" key then
    let '(s, saved') := store_string "method" (Method p) v saved in
    ({| URI := URI p; Headers := Headers p; Body := Body p; Method := s |}, saved')
  else st.

(** A JSON value stored in the anonymous struct of [request_params]. *)
Definition store_params (p : requestParams) (v : json) (saved : option decode_error)
  : requestParams * option decode_error :=
  match v with
  | JObject ms => foldl store_param (p, saved) ms
  | JNull => (p, saved)
  | _ => (p, saveError saved (UnmarshalTypeError "request_params"))
  end.

Definition store_member (st : httpMessage * option decode_error) (m : member)
  : httpMessage * option decode_error :=
  let '(msg, saved) := st in
  let '(key, _, v) := m in
  if field_match "request_params" key then
    let '(p, saved') := store_params (RequestParams msg) v saved in
    ({| RequestParams := p |}, saved')
  else st.

(** A JSON value stored in [*httpMessage]. *)
Definition store_message (msg : httpMessage) (v : json)
  : httpMessage * option decode_error :=
  match v with
  | JObject ms => foldl store_member (msg, None) ms
  | JNull => (msg, None)
  | _ => (msg, Some (UnmarshalTypeError "httpMessage"))
  end.

(** [dec.Decode(msg)] for a decoder over [data] with [UseNumber]: the
    message is updated in place; nothing is stored when the scanner
    rejects the input. *)
Definition Decode (data : bytes) (msg : httpMessage)
  : httpMessage * option decode_error :=
  match scan data with
  | None => (msg, Some SyntaxError)
  | Some v => store_message msg v
  end.

End Decode.

(* ===================================================================== *)
(** * net/http and net/textproto *)
(* ===================================================================== *)

Module HTTP.

(** The token characters of RFC 7230 (isTokenTable). *)
Definition isToken (c : ascii) : bool :=
  in_range 48 57 c || in_range 65 90 c || in_range 97 122 c
  || existsb (Ascii.eqb c) (bytes_of_string "!#$%&'*+-.^_`|~").

(** net/http, validMethod *)
Definition validMethod (method : string) : bool :=
  negb (String.eqb method "") && forallb isToken (bytes_of_string method).

(** textproto.CanonicalMIMEHeaderKey: a key with a byte that is not a token
    character is returned as it is; otherwise the first letter and every
    letter after a dash are upper-cased and the other letters
    lower-cased. *)
Fixpoint canonical_go (upper : bool) (s : bytes) : bytes :=
  match s with
  | [] => []
  | c :: r =>
      let c' :=
        if upper && in_range 97 122 c then ascii_of_N (byte_val c - 32)
        else if negb upper && in_range 65 90 c then ascii_of_N (byte_val c + 32)
        else c in
      c' :: canonical_go (Ascii.eqb c' "-"%char) r
  end.

Definition CanonicalMIMEHeaderKey (s : string) : string :=
  if forallb isToken (bytes_of_string s)
  then string_of_bytes (canonical_go true (bytes_of_string s))
  else s.

(** [http.Header] is [map[string][]string]. *)
Abbreviation Header := (gmap string (list string)).

(** [Header.Set] *)
Definition Header_Set (key value : string) (h : Header) : Header :=
  <[CanonicalMIMEHeaderKey key := [value]]> h.

(** [Header.Get]: the first value of the key, or the empty string. *)
Definition Header_Get (key : string) (h : Header) : string :=
  match h !! CanonicalMIMEHeaderKey key with
  | Some (v :: _) => v
  | _ => ""
  end.

Section Request.
(** [net/url]: the parsed form of a URL and the parser, which rejects
    some strings. *)
Context {URL : Type}.
Variable url_Parse : string -> option URL.

(** The fields of [http.Request] that the handler sets or that
    [NewRequest] derives from its arguments.  A nil body is [None]. *)
Record Request : Type := {
  ReqMethod : string;
  ReqURL : URL;
  ReqHeader : Header;
  ReqBody : option bytes;
  ContentLength : Z
}.

(** [http.NewRequest(method, url, body)], where [body] is nil or a
    [bytes.Reader] over the given bytes. *)
Definition NewRequest (method url : string) (body : option bytes) : result Request :=
  let method := if String.eqb method "" then "GET" else method in
  if negb (validMethod method) then Err (ErrInvalidMethod method)
  else
    match url_Parse url with
    | None => Err (ErrURLParse url)
    | Some u =>
        Ok {| ReqMethod := method;
              ReqURL := u;
              ReqHeader := ∅;
              ReqBody := body;
              ContentLength := match body with
                               | Some b => Z.of_nat (length b)
                               | None => 0
                               end |}
    end.
End Request.

Arguments Request URL : clear implicits.

End HTTP.

Export HTTP.

(* ===================================================================== *)
(** * handler: building the job *)
(* ===================================================================== *)

(** The order in which one [range] statement visits the entries of a map.
    Go leaves it unspecified, and it may differ from one loop to the next;
    every entry is visited once. *)
Definition range_order : Type := list (string * json) -> list (string * json).

Definition range_ok (rng : range_order) : Prop := ∀ l, rng l ≡ₚ l.

(** [http.Client]: only its configuration is kept. *)
Record Client : Type := { Timeout : Z }.

Section Handler.
Context {URL : Type}.
Variable url_Parse : string -> option URL.

Record HTTPJob : Type := {
  client : Client;
  req : Request URL
}.

Record HTTPJobBuilder : Type := {
  builder_client : Client
}.

(** [func (msg *httpMessage) reset()] *)
Definition reset (msg : httpMessage) : httpMessage :=
  let p := RequestParams msg in
  let p := {| URI := ""; Headers := Headers p; Body := Body p; Method := Method p |} in
  let p := {| URI := URI p; Headers := None; Body := Body p; Method := Method p |} in
  let p := {| URI := URI p; Headers := Headers p; Body := None; Method := Method p |} in
  let p := {| URI := URI p; Headers := Headers p; Body := Body p; Method := "" |} in
  {| RequestParams := p |}.

(** [func (msg *httpMessage) parse(data []byte) error]: the message is
    updated in place, so the updated message is returned with the
    error. *)
Definition parse (msg : httpMessage) (data : bytes) : httpMessage * option error :=
  let '(msg, derr) := Decode.Decode data msg in
  match derr with
  | Some err => (msg, Some (ErrDecode err))
  | None =>
      if String.eqb (Method (RequestParams msg)) "" then
        (msg, Some (ErrNew "empty http method"))
      else if String.eqb (URI (RequestParams msg)) "" then
        (msg, Some (ErrNew "empty http uri"))
      else (msg, None)
  end.

(** The loop of [buildHeaders] over the entries in the order of the
    iteration. *)
Fixpoint buildHeaders_loop (es : list (string * json)) (headers : Header)
  : result Header :=
  match es with
  | [] => Ok headers
  | (k, v) :: es' =>
      match v with
      | JString val => buildHeaders_loop es' (Header_Set k val headers)
      | JNumber val => buildHeaders_loop es' (Header_Set k val headers)
      | _ => Err (ErrInvalidHeader k v)
      end
  end.

(** [func buildHeaders(msg *httpMessage) (http.Header, error)]; the nil
    header of the last line is [Ok None]. *)
Definition buildHeaders (rng : range_order) (msg : httpMessage)
  : result (option Header) :=
  match Headers (RequestParams msg) with
  | Some m =>
      match buildHeaders_loop (rng (map_to_list m)) ∅ with
      | Ok headers => Ok (Some headers)
      | Err e => Err e
      end
  | None => Ok None
  end.

(** [buildRequest(msg)], returning the request or an error. *)
Definition buildRequest (rng : range_order) (msg : httpMessage)
  : result (Request URL) :=
  let body := Body (RequestParams msg) in
  match NewRequest url_Parse (Method (RequestParams msg)) (URI (RequestParams msg)) body with
  | Err e => Err e
  | Ok req =>
      match buildHeaders rng msg with
      | Err e => Err (ErrWrap "could not build http headers" e)
      | Ok (Some headers) =>
          Ok {| ReqMethod := ReqMethod req; ReqURL := ReqURL req;
                ReqHeader := headers; ReqBody := ReqBody req;
                ContentLength := ContentLength req |}
      | Ok None => Ok req
      end
  end.

(** The body of [HTTPJobBuilder.BuildJob] on the message [msg0] that
    [httpMessagePool.Get] handed out: the result, and the message as it
    is when the deferred [Put] returns it to the pool. *)
Definition BuildJob_on (h : HTTPJobBuilder) (rng : range_order)
  (msg0 : httpMessage) (data : bytes) : result HTTPJob * httpMessage :=
  let msg := reset msg0 in
  let '(msg, perr) := parse msg data in
  match perr with
  | Some err => (Err (ErrWrap "could not parse message" err), msg)
  | None =>
      match buildRequest rng msg with
      | Err err => (Err (ErrWrap "could not build http request" err), msg)
      | Ok req => (Ok {| client := builder_client h; req := req |}, msg)
      end
  end.

(** ** The message pool *)

(** [sync.Pool] holds the messages that were put back.  [Get] hands out
    one of them, chosen by the runtime, or a new zero message
    ([httpMessagePool.New]) when it takes none. *)
Definition Pool_Get (choice : option nat) (pool : list httpMessage)
  : httpMessage * list httpMessage :=
  match choice with
  | Some i =>
      match pool !! i with
      | Some msg => (msg, delete i pool)
      | None => (zero_message, pool)
      end
  | None => (zero_message, pool)
  end.

Definition Pool_Put (msg : httpMessage) (pool : list httpMessage)
  : list httpMessage := msg :: pool.

(** One call of [BuildJob]: what the runtime chooses (the pooled message
    and the iteration order) and the payload. *)
Record call : Type := {
  call_get : option nat;
  call_range : range_order;
  call_data : bytes
}.

(** [func (h *HTTPJobBuilder) BuildJob(data []byte) (domain.Job, error)]
    with the state of [httpMessagePool] passed along. *)
Definition BuildJob (h : HTTPJobBuilder) (c : call) (pool : list httpMessage)
  : result HTTPJob * list httpMessage :=
  let '(msg0, pool) := Pool_Get (call_get c) pool in
  let '(r, msg) := BuildJob_on h (call_range c) msg0 (call_data c) in
  (r, Pool_Put msg pool).

(** A sequence of calls: the results in order and the final pool. *)
Fixpoint BuildJobs (h : HTTPJobBuilder) (cs : list call) (pool : list httpMessage)
  : list (result HTTPJob) * list httpMessage :=
  match cs with
  | [] => ([], pool)
  | c :: cs' =>
      let '(r, pool) := BuildJob h c pool in
      let '(rs, pool) := BuildJobs h cs' pool in
      (r :: rs, pool)
  end.

End Handler.

(* ===================================================================== *)
(** * What a payload says *)
(* ===================================================================== *)

(** The text of a header value that [buildHeaders] accepts: the content of
    a string, the literal of a number. *)
Definition is_text (v : json) : option string :=
  match v with
  | JString s => Some s
  | JNumber s => Some s
  | _ => None
  end.

Definition headers_ok (msg : httpMessage) : bool :=
  match Headers (RequestParams msg) with
  | Some hs => forallb (fun kv : string * json => bool_decide (is_Some (is_text kv.2)))
                       (map_to_list hs)
  | None => true
  end.

(** The message that the decoder makes of a payload, when it reports no
    error. *)
Definition decoded (data : bytes) : option httpMessage :=
  match Decode.Decode data zero_message with
  | (msg, None) => Some msg
  | (_, Some _) => None
  end.

(** The raw bytes of the values of the [body] members of the payload, read
    off the syntax tree: the members named [body] of the objects that are
    the values of the members named [request_params], from left to
    right. *)
Definition body_raws_of_params (v : json) : list bytes :=
  match v with
  | JObject ms =>
      omap (fun m : member =>
              if Decode.field_match "body" m.1.1 then Some m.1.2 else None) ms
  | _ => []
  end.

Definition body_raws (v : json) : list bytes :=
  match v with
  | JObject ms =>
      mjoin ((fun m : member =>
                if Decode.field_match "request_params" m.1.1
                then body_raws_of_params m.2 else []) <$> ms)
  | _ => []
  end.

(** The body field of a payload: the last one, if the field is given more
    than once. *)
Definition payload_body (data : bytes) : option bytes :=
  match scan data with
  | Some v => last (body_raws v)
  | None => None
  end.

(** ** An instance of the URL parser

    The scheme split of net/url (getScheme) after the check for control
    characters; what follows the scheme is kept as it is. *)
Module URLLite.

Record URL : Type := { Scheme : string; Rest : string }.

Definition is_ctl (c : ascii) : bool :=
  (byte_val c <? 32)%N || Ascii.eqb c "127"%char.

Definition is_alpha (c : ascii) : bool := in_range 65 90 c || in_range 97 122 c.

(** [getScheme]: [i] tells whether the first byte is being looked at. *)
Fixpoint getScheme_go (first : bool) (seen s : bytes) (rawurl : string)
  : option URL :=
  match s with
  | [] => Some {| Scheme := ""; Rest := rawurl |}
  | c :: r =>
      if is_alpha c then getScheme_go false (seen ++ [c]) r rawurl
      else if is_digit c || Ascii.eqb c "+"%char || Ascii.eqb c "-"%char
              || Ascii.eqb c "."%char then
        if first then Some {| Scheme := ""; Rest := rawurl |}
        else getScheme_go false (seen ++ [c]) r rawurl
      else if Ascii.eqb c ":"%char then
        if first then None
        else Some {| Scheme := string_of_bytes seen; Rest := string_of_bytes r |}
      else Some {| Scheme := ""; Rest := rawurl |}
  end.

Definition Parse (rawurl : string) : option URL :=
  if existsb is_ctl (bytes_of_string rawurl) then None
  else getScheme_go true [] (bytes_of_string rawurl) rawurl.

End URLLite.

(** The reading of a payload that the claims about [BuildJob] use: valid
    JSON whose method and uri are not empty and whose header values are
    all strings or numbers. *)
Definition payload_valid (data : bytes) : bool :=
  match scan data with
  | Some v =>
      let msg := (Decode.store_message zero_message v).1 in
      negb (String.eqb (Method (RequestParams msg)) "")
      && negb (String.eqb (URI (RequestParams msg)) "")
      && headers_ok msg
  | None => false
  end.

(** ** Payloads of the examples *)

Definition builder0 : HTTPJobBuilder := {| builder_client := {| Timeout := 30 |} |}.

Definition payload_empty_method : bytes :=
  json_text "{'request_params':{'method':'','uri':'http://x'}}".

Definition payload_bad_method : bytes :=
  json_text "{'request_params':{'method':'GE T','uri':'http://x'}}".

Definition payload_not_json : bytes :=
  json_text "{'request_params':".

Definition payload_headers : bytes :=
  json_text "{'request_params':{'uri':'http://x','method':'POST','headers': {'x-a': '1', 'x-b': 1.45}}}".

Definition payload_headers_clash : bytes :=
  json_text "{'request_params':{'uri':'http://x','method':'POST','headers': {'x-a': '1', 'X-A': '2'}}}".

Definition payload_body_only : bytes :=
  json_text "{'request_params':{'uri':'http://x','method':'POST','body': {'from' : 'jano',  'n':1.0}}}".

(** Two calls of [BuildJob] with the payload whose header keys share a
    canonical form: the loop over the headers visits them in one order in
    the first call and in the opposite order in the second. *)
Definition call_clash_forward : call :=
  {| call_get := None; call_range := id; call_data := payload_headers_clash |}.

Definition call_clash_backward : call :=
  {| call_get := None; call_range := reverse; call_data := payload_headers_clash |}.

(* ===================================================================== *)
(** * consumer/pool.go: workers, dispatcher and pool *)
(* ===================================================================== *)

(** The goroutines of a pool (the workers, the dispatcher and the caller
    of [Release]) as a transition system.  Each goroutine is at one of its
    blocking points; a step is one communication on a channel, taken when
    both sides are ready (or the buffer has room, for the two buffered
    channels), or the return of a job. *)
Module Pool.

Section WithJob.
(** [domain.Job] is an interface: a value of it is nil or a job. *)
Context {J : Type}.
Abbreviation Job := (option J).

(** Where a worker stands in the loop of [worker.start]. *)
Inductive wstate : Type :=
| WRegister              (* at [w.workerPool <- w] *)
| WSelect                (* in the select, after registering *)
| WExec (job : Job)      (* in [job.Do], on the job it received *)
| WAck                   (* stop received, at [w.stop <- struct{}{}] *)
| WStopped.              (* returned *)

(** Where the dispatcher stands in [dispatcher.dispatch]. *)
Inductive dstate : Type :=
| DSelect                        (* in the select on jobQueue and stop *)
| DHaveJob (job : Job)           (* at [worker := <-d.workerPool] *)
| DSend (job : Job) (w : nat)    (* at [worker.jobChannel <- job] *)
| DStop (i : nat)                (* in the stop loop, at [<-d.workerPool] *)
| DStopSend (i : nat) (w : nat)  (* at [worker.stop <- struct{}{}] *)
| DStopWait (i : nat) (w : nat)  (* at [<-worker.stop] *)
| DReply                         (* at [d.stop <- struct{}{}] *)
| DDone.                         (* returned *)

(** Where the caller of [Pool.Release] stands. *)
Inductive rstate : Type :=
| RIdle                  (* Release not called *)
| RWaiting               (* at [<-p.dispatcher.stop] *)
| RReturned.             (* Release returned *)

Record state : Type := {
  jobQueue : list Job;       (* the buffer of [JobQueue] *)
  workerPool : list nat;     (* the buffer of [workerPool]: worker indices *)
  workers : list wstate;     (* the workers, by index *)
  disp : dstate;
  releaser : rstate;
  panicked : bool            (* a goroutine panicked: the process is gone *)
}.

(** [NewPool(numWorkers, jobQueueLen, ...)]: [newDispatcher] starts one
    worker per slot of the worker pool, then the dispatcher. *)
Definition NewPool (numWorkers : nat) : state :=
  {| jobQueue := []; workerPool := []; workers := replicate numWorkers WRegister;
     disp := DSelect; releaser := RIdle; panicked := false |}.

Inductive label : Type :=
| LAddJob (job : Job)   (* [Pool.AddJob]: the send on JobQueue completes *)
| LRegister (w : nat)   (* worker w puts itself in the worker pool *)
| LTakeJob              (* the dispatcher receives a job *)
| LTakeWorker           (* the dispatcher receives an idle worker *)
| LHandOff              (* the worker receives the job of the dispatcher *)
| LFinish (w : nat)     (* [job.Do] returns on worker w *)
| LPanic (w : nat)      (* [job.Do] on a nil job: nil dereference *)
| LRelease              (* the dispatcher receives the stop of Release *)
| LStopTake             (* stop loop: the dispatcher receives a worker *)
| LStopSend             (* the worker receives the stop signal *)
| LStopAck              (* the dispatcher receives the worker's reply *)
| LStopExit             (* the stop loop ends: [i == cap(d.workerPool)] *)
| LReply.               (* Release receives the reply of the dispatcher *)

Definition set_worker (w : nat) (st : wstate) (s : state) : state :=
  {| jobQueue := jobQueue s; workerPool := workerPool s;
     workers := <[w := st]> (workers s);
     disp := disp s; releaser := releaser s; panicked := panicked s |}.

Definition set_disp (d : dstate) (s : state) : state :=
  {| jobQueue := jobQueue s; workerPool := workerPool s; workers := workers s;
     disp := d; releaser := releaser s; panicked := panicked s |}.

Definition set_workerPool (p : list nat) (s : state) : state :=
  {| jobQueue := jobQueue s; workerPool := p; workers := workers s;
     disp := disp s; releaser := releaser s; panicked := panicked s |}.

Definition set_jobQueue (q : list Job) (s : state) : state :=
  {| jobQueue := q; workerPool := workerPool s; workers := workers s;
     disp := disp s; releaser := releaser s; panicked := panicked s |}.

Definition set_releaser (r : rstate) (s : state) : state :=
  {| jobQueue := jobQueue s; workerPool := workerPool s; workers := workers s;
     disp := disp s; releaser := r; panicked := panicked s |}.

Definition set_panicked (s : state) : state :=
  {| jobQueue := jobQueue s; workerPool := workerPool s; workers := workers s;
     disp := disp s; releaser := releaser s; panicked := true |}.

Definition is_WSelect (st : option wstate) : bool :=
  match st with Some WSelect => true | _ => false end.

Definition is_WAck (st : option wstate) : bool :=
  match st with Some WAck => true | _ => false end.

(** One step of a pool of [numWorkers] workers with a job queue of length
    [jobQueueLen]; [None] when the step cannot be taken in this state (the
    goroutine is blocked, or is somewhere else). *)
Definition step (numWorkers jobQueueLen : nat) (l : label) (s : state)
  : option state :=
  if panicked s then None else
  match l with
  | LAddJob job =>
      (* a buffered send needs room; with no buffer the send meets the
         receive of the dispatcher *)
      if decide (length (jobQueue s) < jobQueueLen) then
        Some (set_jobQueue (jobQueue s ++ [job]) s)
      else
        match jobQueueLen, jobQueue s, disp s with
        | O, [], DSelect => Some (set_disp (DHaveJob job) s)
        | _, _, _ => None
        end
  | LRegister w =>
      match workers s !! w with
      | Some WRegister =>
          if decide (length (workerPool s) < numWorkers) then
            Some (set_workerPool (workerPool s ++ [w]) (set_worker w WSelect s))
          else None
      | _ => None
      end
  | LTakeJob =>
      match disp s, jobQueue s with
      | DSelect, job :: q => Some (set_jobQueue q (set_disp (DHaveJob job) s))
      | _, _ => None
      end
  | LTakeWorker =>
      match disp s, workerPool s with
      | DHaveJob job, w :: p => Some (set_workerPool p (set_disp (DSend job w) s))
      | _, _ => None
      end
  | LHandOff =>
      match disp s with
      | DSend job w =>
          if is_WSelect (workers s !! w)
          then Some (set_worker w (WExec job) (set_disp DSelect s))
          else None
      | _ => None
      end
  | LFinish w =>
      match workers s !! w with
      | Some (WExec (Some _)) => Some (set_worker w WRegister s)
      | _ => None
      end
  | LPanic w =>
      match workers s !! w with
      | Some (WExec None) => Some (set_panicked s)
      | _ => None
      end
  | LRelease =>
      match releaser s, disp s with
      | RIdle, DSelect => Some (set_releaser RWaiting (set_disp (DStop 0) s))
      | _, _ => None
      end
  | LStopTake =>
      match disp s, workerPool s with
      | DStop i, w :: p =>
          if decide (i < numWorkers)
          then Some (set_workerPool p (set_disp (DStopSend i w) s))
          else None
      | _, _ => None
      end
  | LStopSend =>
      match disp s with
      | DStopSend i w =>
          if is_WSelect (workers s !! w)
          then Some (set_worker w WAck (set_disp (DStopWait i w) s))
          else None
      | _ => None
      end
  | LStopAck =>
      match disp s with
      | DStopWait i w =>
          if is_WAck (workers s !! w)
          then Some (set_worker w WStopped (set_disp (DStop (S i)) s))
          else None
      | _ => None
      end
  | LStopExit =>
      match disp s with
      | DStop i => if decide (i < numWorkers) then None else Some (set_disp DReply s)
      | _ => None
      end
  | LReply =>
      match disp s, releaser s with
      | DReply, RWaiting => Some (set_releaser RReturned (set_disp DDone s))
      | _, _ => None
      end
  end.

(** A run: the steps of a schedule, one after the other. *)
Fixpoint run (numWorkers jobQueueLen : nat) (ls : list label) (s : state)
  : option state :=
  match ls with
  | [] => Some s
  | l :: ls' =>
      match step numWorkers jobQueueLen l s with
      | Some s' => run numWorkers jobQueueLen ls' s'
      | None => None
      end
  end.

(** The states a pool can be in. *)
Definition reachable (numWorkers jobQueueLen : nat) (s : state) : Prop :=
  ∃ ls, run numWorkers jobQueueLen ls (NewPool numWorkers) = Some s.

(** The workers that are executing a job, with the job. *)
Fixpoint executing_from (i : nat) (ws : list wstate) : list (nat * Job) :=
  match ws with
  | [] => []
  | WExec job :: ws' => (i, job) :: executing_from (S i) ws'
  | _ :: ws' => executing_from (S i) ws'
  end.

Definition executing (s : state) : list (nat * Job) :=
  executing_from 0 (workers s).

(** The worker that the dispatcher has taken from the worker pool and has
    not yet handed a job or a stop signal. *)
Definition held (d : dstate) : option nat :=
  match d with
  | DSend _ w => Some w
  | DStopSend _ w => Some w
  | _ => None
  end.

(** A worker goroutine can still run: it has not returned. *)
Definition runnable (st : wstate) : bool :=
  match st with WStopped => false | _ => true end.

Definition held01 (d : dstate) : nat :=
  match held d with Some _ => 1 | None => 0 end.

Definition is_select (st : wstate) : bool :=
  match st with WSelect => true | _ => false end.
Definition is_exec (st : wstate) : bool :=
  match st with WExec _ => true | _ => false end.
Definition is_ack (st : wstate) : bool :=
  match st with WAck => true | _ => false end.
Definition is_stopped (st : wstate) : bool :=
  match st with WStopped => true | _ => false end.

(** The number of workers in a state of the given kind. *)
Fixpoint count (p : wstate → bool) (ws : list wstate) : nat :=
  match ws with
  | [] => 0
  | st :: ws' => (if p st then 1 else 0) + count p ws'
  end.

(** Where Release and the stop loop stand, against the workers that have
    stopped: the loop index counts them. *)
Definition phase_ok (numWorkers : nat) (s : state) : Prop :=
  match disp s with
  | DSelect | DHaveJob _ | DSend _ _ =>
      count is_stopped (workers s) = 0 ∧ count is_ack (workers s) = 0 ∧
      releaser s = RIdle
  | DStop i =>
      count is_stopped (workers s) = i ∧ count is_ack (workers s) = 0 ∧
      releaser s = RWaiting
  | DStopSend i _ =>
      count is_stopped (workers s) = i ∧ count is_ack (workers s) = 0 ∧
      i < numWorkers ∧ releaser s = RWaiting
  | DStopWait i w =>
      count is_stopped (workers s) = i ∧ count is_ack (workers s) = 1 ∧
      workers s !! w = Some WAck ∧ i < numWorkers ∧ releaser s = RWaiting
  | DReply =>
      count is_stopped (workers s) = numWorkers ∧ releaser s = RWaiting
  | DDone =>
      count is_stopped (workers s) = numWorkers ∧ releaser s = RReturned
  end.

(** The invariant of the pool. *)
Record Inv (numWorkers : nat) (s : state) : Prop := {
  inv_workers : length (workers s) = numWorkers;
  inv_pool_nodup : NoDup (workerPool s);
  inv_pool_idle : ∀ w, w ∈ workerPool s → workers s !! w = Some WSelect;
  inv_held : ∀ w, held (disp s) = Some w →
             workers s !! w = Some WSelect ∧ w ∉ workerPool s;
  inv_idle_count :
    length (workerPool s) + held01 (disp s) = count is_select (workers s);
  inv_phase : phase_ok numWorkers s
}.

End WithJob.

Arguments state J : clear implicits.
Arguments label J : clear implicits.
Arguments dstate J : clear implicits.
Arguments wstate J : clear implicits.

(** ** Schedules of the examples: two workers, a queue of three jobs *)

(** A burst of three jobs: two are handed to the two workers, the third
    waits in the queue. *)
Definition schedule_burst : list (label nat) :=
  [LRegister 0; LRegister 1; LAddJob (Some 10); LAddJob (Some 11);
   LAddJob (Some 12); LTakeJob; LTakeWorker; LHandOff;
   LTakeJob; LTakeWorker; LHandOff; LTakeJob].

Definition state_burst : state nat :=
  {| jobQueue := []; workerPool := [];
     workers := [WExec (Some 10); WExec (Some 11)];
     disp := DHaveJob (Some 12); releaser := RIdle; panicked := false |}.

(** Release while worker 0 executes a job: worker 1 is stopped first, the
    stop loop then waits for worker 0 to finish and to register. *)
Definition schedule_drain : list (label nat) :=
  [LRegister 0; LRegister 1; LAddJob (Some 10); LTakeJob; LTakeWorker;
   LHandOff; LRelease; LStopTake; LStopSend; LStopAck;
   LFinish 0; LRegister 0; LStopTake; LStopSend; LStopAck;
   LStopExit; LReply].

Definition state_drained : state nat :=
  {| jobQueue := []; workerPool := []; workers := [WStopped; WStopped];
     disp := DDone; releaser := RReturned; panicked := false |}.

(** A nil job reaches a worker. *)
Definition schedule_nil_job : list (label nat) :=
  [LRegister 0; LAddJob None; LTakeJob; LTakeWorker; LHandOff; LPanic 0].

End Pool.

(* ===================================================================== *)
(** * config and the AMQP client *)
(* ===================================================================== *)

(** Modelled from the spec: the declaration of [config.Config] is not among
    the sources.  The record has the fields that the consumer reads, with
    the types that their uses require (worker count, job-queue length and
    prefetch count are plain integers). *)
Record Config : Type := {
  RabbitMq_Username : string;
  RabbitMq_Password : string;
  RabbitMq_Host : string;
  RabbitMq_Port : string;
  RabbitMq_Vhost : string;
  RabbitMq_Queue : string;
  Prefetch_Count : Z;
  Prefetch_Global : bool;
  Exchange_Name : string;
  Exchange_Type : string;
  Exchange_Durable : bool;
  Exchange_Autodelete : bool;
  QueueSettings_Routingkey : string;
  QueueSettings_MessageTTL : Z;
  QueueSettings_DeadLetterExchange : string;
  QueueSettings_DeadLetterRoutingKey : string;
  Workers_Count : Z;
  Workers_Queue : Z
}.

Definition set_Prefetch_Count (n : Z) (cfg : Config) : Config :=
  {| RabbitMq_Username := RabbitMq_Username cfg;
     RabbitMq_Password := RabbitMq_Password cfg;
     RabbitMq_Host := RabbitMq_Host cfg; RabbitMq_Port := RabbitMq_Port cfg;
     RabbitMq_Vhost := RabbitMq_Vhost cfg; RabbitMq_Queue := RabbitMq_Queue cfg;
     Prefetch_Count := n; Prefetch_Global := Prefetch_Global cfg;
     Exchange_Name := Exchange_Name cfg; Exchange_Type := Exchange_Type cfg;
     Exchange_Durable := Exchange_Durable cfg;
     Exchange_Autodelete := Exchange_Autodelete cfg;
     QueueSettings_Routingkey := QueueSettings_Routingkey cfg;
     QueueSettings_MessageTTL := QueueSettings_MessageTTL cfg;
     QueueSettings_DeadLetterExchange := QueueSettings_DeadLetterExchange cfg;
     QueueSettings_DeadLetterRoutingKey := QueueSettings_DeadLetterRoutingKey cfg;
     Workers_Count := Workers_Count cfg; Workers_Queue := Workers_Queue cfg |}.

Definition set_Exchange_Type (t : string) (cfg : Config) : Config :=
  {| RabbitMq_Username := RabbitMq_Username cfg;
     RabbitMq_Password := RabbitMq_Password cfg;
     RabbitMq_Host := RabbitMq_Host cfg; RabbitMq_Port := RabbitMq_Port cfg;
     RabbitMq_Vhost := RabbitMq_Vhost cfg; RabbitMq_Queue := RabbitMq_Queue cfg;
     Prefetch_Count := Prefetch_Count cfg; Prefetch_Global := Prefetch_Global cfg;
     Exchange_Name := Exchange_Name cfg; Exchange_Type := t;
     Exchange_Durable := Exchange_Durable cfg;
     Exchange_Autodelete := Exchange_Autodelete cfg;
     QueueSettings_Routingkey := QueueSettings_Routingkey cfg;
     QueueSettings_MessageTTL := QueueSettings_MessageTTL cfg;
     QueueSettings_DeadLetterExchange := QueueSettings_DeadLetterExchange cfg;
     QueueSettings_DeadLetterRoutingKey := QueueSettings_DeadLetterRoutingKey cfg;
     Workers_Count := Workers_Count cfg; Workers_Queue := Workers_Queue cfg |}.

Module AMQP.

(** A value of an [amqp.Table]. *)
Inductive tvalue : Type :=
| TInt32 (n : Z)
| TString (s : string).

Abbreviation Table := (gmap string tvalue).

(** The calls that the consumer makes on the client, with their
    arguments. *)
Inductive call : Type :=
| Dial (uri : string)
| OpenChannel
| Qos (prefetchCount prefetchSize : Z) (global : bool)
| QueueDeclare (name : string) (durable autoDelete exclusive noWait : bool)
               (args : option Table)
| ExchangeDeclare (name kind : string)
                  (durable autoDelete internal noWait : bool)
| QueueBind (name key exchange : string) (noWait : bool)
| Consume (queue consumer : string)
          (autoAck exclusive noLocal noWait : bool)
| NotifyClose
| Ack (tag : N) (multiple : bool)
| ChannelClose
| ConnectionClose.

(** The broker as the consumer sees it: which calls return an error. *)
Definition broker : Type := call → bool.

(** One message from the broker: its body and the tag that the channel
    gave it. *)
Record Delivery : Type := { Body : bytes; DeliveryTag : N }.

End AMQP.

(** Go's conversion [int32(n)] of an integer. *)
Definition int32 (n : Z) : Z := ((n + 2147483648) mod 4294967296 - 2147483648)%Z.

(** [url.QueryEscape]: letters, digits and [-_.~] stay, a space becomes
    [+], every other byte becomes [%XX]. *)
Definition hex_digit (n : N) : ascii :=
  if (n <? 10)%N then ascii_of_N (48 + n) else ascii_of_N (55 + n).

Definition escape_byte (c : ascii) : bytes :=
  if in_range 48 57 c || in_range 65 90 c || in_range 97 122 c
     || existsb (Ascii.eqb c) (bytes_of_string "-_.~")
  then [c]
  else if Ascii.eqb c " "%char then ["+"%char]
  else ["%"%char; hex_digit (byte_val c / 16); hex_digit (byte_val c mod 16)].

Definition QueryEscape (s : string) : string :=
  string_of_bytes (mjoin (escape_byte <$> bytes_of_string s)).

(* ===================================================================== *)
(** * consumer: what both versions share *)
(* ===================================================================== *)

Definition EmptyString : string := "<empty>".

(** [func transformToStringValue(val string) string] *)
Definition transformToStringValue (val : string) : string :=
  if String.eqb val EmptyString then "" else val.

(** [func sanitizeQueueArgs(cfg *config.Config) amqp.Table]; the nil table
    is [None]. *)
Definition sanitizeQueueArgs (cfg : Config) : option AMQP.Table :=
  let args : AMQP.Table := ∅ in
  let args :=
    if (0 <? QueueSettings_MessageTTL cfg)%Z
    then <["x-message-ttl" := AMQP.TInt32 (int32 (QueueSettings_MessageTTL cfg))]> args
    else args in
  let args :=
    if negb (String.eqb (QueueSettings_DeadLetterExchange cfg) "") then
      let args :=
        <["x-dead-letter-exchange" :=
            AMQP.TString (transformToStringValue (QueueSettings_DeadLetterExchange cfg))]>
          args in
      if negb (String.eqb (QueueSettings_DeadLetterRoutingKey cfg) "") then
        <["x-dead-letter-routing-key" :=
            AMQP.TString (transformToStringValue (QueueSettings_DeadLetterRoutingKey cfg))]>
          args
      else args
    else args in
  if decide (0 < size args) then Some args else None.

(** The URI that [New] dials. *)
Definition dial_uri (cfg : Config) : string :=
  "amqp://" +:+ QueryEscape (RabbitMq_Username cfg) +:+ ":"
  +:+ QueryEscape (RabbitMq_Password cfg) +:+ "@" +:+ RabbitMq_Host cfg
  +:+ ":" +:+ RabbitMq_Port cfg +:+ RabbitMq_Vhost cfg.

(** An error of the consumer: [fmt.Errorf(text + ": %v", err)] for the
    error [err] of a call on the client. *)
Inductive cerror : Type := CErr (text : string) (c : AMQP.call).

(** The steps of [New] after the channel is open, which the versions of
    the consumer share: QoS, queue, exchange, binding.  Returns the calls
    made, the configuration as [New] leaves it, and the error if a call
    failed. *)
Definition declare_all (b : AMQP.broker) (cfg : Config)
  : list AMQP.call * Config * option cerror :=
  (* Attempt to preserve BC here *)
  let cfg := if (Prefetch_Count cfg =? 0)%Z then set_Prefetch_Count 3 cfg else cfg in
  let qos := AMQP.Qos (Prefetch_Count cfg) 0 (Prefetch_Global cfg) in
  if b qos then ([qos], cfg, Some (CErr "failed to set QoS" qos)) else
  let qd := AMQP.QueueDeclare (RabbitMq_Queue cfg) true false false false
              (sanitizeQueueArgs cfg) in
  if b qd then ([qos; qd], cfg, Some (CErr "failed to declare queue" qd)) else
  (* Check for missing exchange settings to preserve BC *)
  let cfg :=
    if String.eqb "" (Exchange_Name cfg) && String.eqb "" (Exchange_Type cfg)
       && negb (Exchange_Durable cfg) && negb (Exchange_Autodelete cfg)
    then set_Exchange_Type "direct" cfg else cfg in
  (* Empty Exchange name means default, no need to declare *)
  if negb (String.eqb "" (Exchange_Name cfg)) then
    let ed := AMQP.ExchangeDeclare (Exchange_Name cfg) (Exchange_Type cfg)
                (Exchange_Durable cfg) (Exchange_Autodelete cfg) false false in
    if b ed then ([qos; qd; ed], cfg, Some (CErr "failed to declare exchange" ed)) else
    let qb := AMQP.QueueBind (RabbitMq_Queue cfg)
                (transformToStringValue (QueueSettings_Routingkey cfg))
                (transformToStringValue (Exchange_Name cfg)) false in
    if b qb then ([qos; qd; ed; qb], cfg,
                  Some (CErr "failed to bind queue to exchange" qb))
    else ([qos; qd; ed; qb], cfg, None)
  else ([qos; qd], cfg, None).

(** [func New(cfg, ...)], the same in the versions of
    the consumer but for the fields of the [Consumer] and the progress
    lines that one version logs: the calls made on the client, the
    configuration as [New] leaves it (the consumer keeps a pointer to it),
    and the error, if any. *)
Definition New (b : AMQP.broker) (cfg : Config)
  : list AMQP.call * Config * option cerror :=
  let dial := AMQP.Dial (dial_uri cfg) in
  if b dial then ([dial], cfg, Some (CErr "failed connecting RabbitMQ" dial)) else
  if b AMQP.OpenChannel
  then ([dial; AMQP.OpenChannel], cfg,
        Some (CErr "failed to open a channel" AMQP.OpenChannel)) else
  let '(calls, cfg, err) := declare_all b cfg in
  (dial :: AMQP.OpenChannel :: calls, cfg, err).

(** The prefetch counts of the QoS calls among the calls made. *)
Definition qos_counts (calls : list AMQP.call) : list Z :=
  omap (fun c => match c with AMQP.Qos n _ _ => Some n | _ => None end) calls.

(** An unbuffered channel that the goroutine keeps to itself: what was
    sent and not yet received, and whether it was closed. *)
Record chan (A : Type) : Type := { chan_buf : list A; chan_closed : bool }.
Arguments chan_buf {A} c.
Arguments chan_closed {A} c.

(** [make(chan A)] *)
Definition make_chan (A : Type) : chan A := {| chan_buf := []; chan_closed := false |}.

(** A receive: the value and the channel after it, or [None] while the
    receive blocks.  A closed channel yields the zero value. *)
Definition chan_recv {A} (zero : A) (c : chan A) : option (A * chan A) :=
  match chan_buf c with
  | x :: r => Some (x, {| chan_buf := r; chan_closed := chan_closed c |})
  | [] => if chan_closed c then Some (zero, c) else None
  end.

(* ===================================================================== *)
(** * consumer: Consume with the worker pool (consumer/pool.go) *)
(* ===================================================================== *)

Module Consumer.

Section WithJobBuilder.
(** [domain.JobBuilder]: [BuildJob(data)] returns a job, which may be nil,
    and an error, which may be nil. *)
Context {Job Err : Type}.
Variable BuildJob : bytes → option Job * option Err.

(** The fields of [Consumer] that [Consume] reads; [DebugLogger] tells
    whether the debug logger is not nil. *)
Record Consumer : Type := {
  Cfg : Config;
  Queue : string;
  HttpTimeout : Z;
  DebugLogger : bool
}.

(** What the goroutine of [Consume] does that can be seen from outside. *)
Inductive event : Type :=
| EvCall (c : AMQP.call)
| EvGo                                   (* go ConnectionCloseHandler(...) *)
| EvInfo (format : string) (arg : option Z)
| EvDebug (format : string) (body : bytes)
| EvError (format : string) (e : Err)
| EvFatal (format : string)              (* Fatalf: the line, then os.Exit(1) *)
| EvNewPool (numWorkers jobQueueLen : Z)
| EvAddJob (job : option Job)
| EvWaitAll
| EvRelease.

(** Where the goroutine stands. *)
Inductive pc : Type :=
| PcStart                  (* before [c.Channel.Consume] *)
| PcLoop                   (* at [range msgs] *)
| PcAddJob (job : option Job)   (* at [pool.AddJob(job)] *)
| PcWaitAll                (* at [pool.WaitAll()] *)
| PcForever                (* at [<-forever] *)
| PcReturned               (* Consume returned, the deferred calls ran *)
| PcExited.                (* the process exited in Fatalf *)

Record state : Type := {
  at_pc : pc;
  trace : list event;          (* oldest first *)
  defers : list event;         (* the deferred calls, the last deferred first *)
  forever : chan bool;
  wg : Z                       (* the counter of [pool.wg] *)
}.

Definition init : state :=
  {| at_pc := PcStart; trace := []; defers := [];
     forever := make_chan bool; wg := 0 |}.

(** What the goroutine meets: the result of a call, a delivery, the
    progress of another goroutine. *)
Inductive input : Type :=
| InConsume (failed : bool)      (* [c.Channel.Consume] returns *)
| InDelivery (d : AMQP.Delivery) (* the loop receives a delivery *)
| InClosed                       (* the delivery channel is closed *)
| InAddJob                       (* the send on the job queue completes *)
| InRun                          (* the goroutine goes on by itself *)
| InConnClosed.                  (* ConnectionCloseHandler receives the
                                    close notification and calls Fatalf *)

Definition consume_call (c : Consumer) : AMQP.call :=
  AMQP.Consume (Queue c) "" true false false false.

(** The statements of [Consume] from the registration to the loop. *)
Definition start_events (c : Consumer) : list event :=
  [EvCall (consume_call c); EvCall AMQP.NotifyClose; EvGo;
   EvInfo "using %v workers ..." (Some (Workers_Count (Cfg c)));
   EvInfo "using worker queue of length %v ..." (Some (Workers_Queue (Cfg c)));
   EvInfo "using http timeout %v ..." (Some (HttpTimeout c));
   EvInfo "waiting for messages ..." None;
   EvNewPool (Workers_Count (Cfg c)) (Workers_Queue (Cfg c))].

(** The deferred calls in the order in which they run at the return:
    [pool.Release()], [c.Channel.Close()], [c.Connection.Close()]. *)
Definition deferred : list event :=
  [EvRelease; EvCall AMQP.ChannelClose; EvCall AMQP.ConnectionClose].

(** The body of the loop up to [pool.AddJob(job)]: the events, and the
    job that is about to be added. *)
Definition loop_body (c : Consumer) (d : AMQP.Delivery)
  : list event * option Job :=
  let dbg :=
    if DebugLogger c then [EvDebug "received message: %v" (AMQP.Body d)] else [] in
  let '(job, err) := BuildJob (AMQP.Body d) in
  let log :=
    match err with
    | Some e => [EvError "could not build job: %v" e]
    | None => []
    end in
  (dbg ++ log, job).

Definition goto (p : pc) (evs : list event) (s : state) : state :=
  {| at_pc := p; trace := trace s ++ evs; defers := defers s;
     forever := forever s; wg := wg s |}.

(** One step of [Consume]; [None] when the input does not apply where the
    goroutine stands: the goroutine is blocked, or gone. *)
Definition step (c : Consumer) (i : input) (s : state) : option state :=
  match at_pc s, i with
  | PcStart, InConsume true =>
      Some (goto PcExited
              [EvCall (consume_call c); EvFatal "failed to register a consumer: %s"] s)
  | PcStart, InConsume false =>
      Some {| at_pc := PcLoop; trace := trace s ++ start_events c;
              defers := deferred; forever := forever s; wg := wg s |}
  | PcLoop, InDelivery d =>
      let '(evs, job) := loop_body c d in Some (goto (PcAddJob job) evs s)
  | PcLoop, InClosed => Some (goto PcWaitAll [] s)
  | PcAddJob job, InAddJob => Some (goto PcLoop [EvAddJob job] s)
  | PcWaitAll, InRun =>
      if (wg s =? 0)%Z then Some (goto PcForever [EvWaitAll] s) else None
  | PcForever, InRun =>
      match chan_recv false (forever s) with
      | Some (_, ch) =>
          Some {| at_pc := PcReturned; trace := trace s ++ defers s;
                  defers := []; forever := ch; wg := wg s |}
      | None => None
      end
  | (PcLoop | PcAddJob _ | PcWaitAll | PcForever), InConnClosed =>
      Some (goto PcExited [EvFatal "connection closed: %v"] s)
  | _, _ => None
  end.

Fixpoint run (c : Consumer) (ins : list input) (s : state) : option state :=
  match ins with
  | [] => Some s
  | i :: ins' =>
      match step c i s with
      | Some s' => run c ins' s'
      | None => None
      end
  end.

Definition reachable (c : Consumer) (s : state) : Prop :=
  ∃ ins, run c ins init = Some s.

Definition is_ack (e : event) : bool :=
  match e with EvCall (AMQP.Ack _ _) => true | _ => false end.

Definition is_deferred (e : event) : bool :=
  match e with
  | EvRelease | EvCall AMQP.ChannelClose | EvCall AMQP.ConnectionClose => true
  | _ => false
  end.

(** What holds in every state of [Consume]: nothing was sent on [forever],
    the counter of the wait group is 0, Consume has not returned, and the
    goroutine has made no deferred call and no acknowledgement. *)
Record Inv (s : state) : Prop := {
  inv_forever : forever s = make_chan bool;
  inv_wg : wg s = 0%Z;
  inv_pc : at_pc s ≠ PcReturned;
  inv_trace : Forall (λ e, is_deferred e = false ∧ is_ack e = false) (trace s)
}.

End WithJobBuilder.

Arguments Consumer : clear implicits.
Arguments event Job Err : clear implicits.
Arguments state Job Err : clear implicits.
Arguments input : clear implicits.
Arguments pc Job : clear implicits.

End Consumer.

(* ===================================================================== *)
(** * consumer: Consume with one goroutine per delivery and handleMsg *)
(* ===================================================================== *)

Module ConsumerV1.

Section WithHandler.
(** The error type of [handler.MessageHandler.HandleMessage] and of
    [Delivery.Ack]. *)
Context {Err : Type}.

Record Consumer : Type := { Queue : string; DebugLogger : bool }.

Inductive event : Type :=
| EvCall (c : AMQP.call)
| EvGo (name : string)
| EvInfo (line : string)
| EvDebug (format : string) (body : bytes)
| EvError (format : string) (e : Err)
| EvFatal (format : string)
| EvHandleMessage (body : bytes)           (* HandleMessage is called *)
| EvHandleReturned (err : option Err)      (* HandleMessage has returned *)
| EvWait.

(** A delivery with what its handling will meet: the result of
    [HandleMessage] and the result of [Ack]. *)
Record handling : Type := {
  delivery : AMQP.Delivery;
  handle_result : option Err;
  ack_result : option Err
}.

(** [func (c *Consumer) handleMsg(d amqp.Delivery)] *)
Definition handleMsg (c : Consumer) (h : handling) : list event :=
  let d := delivery h in
  (if DebugLogger c then [EvDebug "received message: %v" (AMQP.Body d)] else [])
  ++ [EvHandleMessage (AMQP.Body d); EvHandleReturned (handle_result h)]
  ++ match handle_result h with
     | Some e => [EvError "could not handle message: %v" e]
     | None => []
     end
  ++ [EvCall (AMQP.Ack (AMQP.DeliveryTag d) true)]
  ++ match ack_result h with
     | Some e => [EvError "could not acknowledge message: %v" e]
     | None => []
     end.

Inductive pc : Type :=
| PcStart | PcForever | PcWait | PcReturned | PcExited.

(** A goroutine: the main one, or the handler of the delivery with a
    tag. *)
Inductive gid : Type := GMain | GHandler (tag : N).

Record state : Type := {
  at_pc : pc;
  trace : list (gid * event);                (* oldest first *)
  forever : chan bool;
  next_tag : N;                              (* the tag of the next delivery *)
  handlers : list (handling * list event);   (* what each handler has left to do *)
  unacked : list N                           (* the broker's unacknowledged tags *)
}.

Definition init : state :=
  {| at_pc := PcStart; trace := []; forever := make_chan bool;
     next_tag := 1; handlers := []; unacked := [] |}.

Inductive input : Type :=
| InConsume (failed : bool)
| InDelivery (body : bytes) (handle_result ack_result : option Err)
      (* the broker sends a message; the loop receives it and starts
         [handleMsg] in a goroutine of its own *)
| InHandler (k : nat)      (* the k-th handler does its next statement *)
| InRun
| InConnClosed.

Definition consume_call (c : Consumer) : AMQP.call :=
  AMQP.Consume (Queue c) "" false false false false.

Definition alive (p : pc) : bool :=
  match p with PcForever | PcWait => true | _ => false end.

(** What the broker does with a call of a handler that reached it: an
    acknowledgement with [multiple] set covers every delivery up to the
    tag.  An [Ack] that returns an error was not delivered, and the broker
    keeps what it held. *)
Definition broker_ack (e : event) (unacked : list N) : list N :=
  match e with
  | EvCall (AMQP.Ack tag true) => filter (fun t => tag < t)%N unacked
  | EvCall (AMQP.Ack tag false) => filter (fun t => t ≠ tag) unacked
  | _ => unacked
  end.

Definition step (c : Consumer) (i : input) (s : state) : option state :=
  match i with
  | InConsume failed =>
      match at_pc s with
      | PcStart =>
          if failed then
            Some {| at_pc := PcExited;
                    trace := trace s ++ [(GMain, EvInfo "registering consumer... ");
                                         (GMain, EvCall (consume_call c));
                                         (GMain, EvFatal "failed to register a consumer: %s")];
                    forever := forever s; next_tag := next_tag s;
                    handlers := handlers s; unacked := unacked s |}
          else
            Some {| at_pc := PcForever;
                    trace := trace s ++ [(GMain, EvInfo "registering consumer... ");
                                         (GMain, EvCall (consume_call c));
                                         (GMain, EvInfo "succeeded registering consumer.");
                                         (GMain, EvCall AMQP.NotifyClose);
                                         (GMain, EvGo "ConnectionCloseHandler");
                                         (GMain, EvGo "range msgs");
                                         (GMain, EvInfo "waiting for messages...")];
                    forever := forever s; next_tag := next_tag s;
                    handlers := handlers s; unacked := unacked s |}
      | _ => None
      end
  | InDelivery body hres ares =>
      if alive (at_pc s) then
        let h := {| delivery := {| AMQP.Body := body; AMQP.DeliveryTag := next_tag s |};
                    handle_result := hres; ack_result := ares |} in
        Some {| at_pc := at_pc s; trace := trace s; forever := forever s;
                next_tag := N.succ (next_tag s);
                handlers := handlers s ++ [(h, handleMsg c h)];
                unacked := unacked s ++ [next_tag s] |}
      else None
  | InHandler k =>
      if alive (at_pc s) then
        match handlers s !! k with
        | Some (h, e :: rest) =>
            Some {| at_pc := at_pc s;
                    trace := trace s ++ [(GHandler (AMQP.DeliveryTag (delivery h)), e)];
                    forever := forever s; next_tag := next_tag s;
                    handlers := <[k := (h, rest)]> (handlers s);
                    unacked := match ack_result h with
                               | None => broker_ack e (unacked s)
                               | Some _ => unacked s
                               end |}
        | _ => None
        end
      else None
  | InRun =>
      match at_pc s with
      | PcForever =>
          match chan_recv false (forever s) with
          | Some (_, ch) =>
              Some {| at_pc := PcWait; trace := trace s; forever := ch;
                      next_tag := next_tag s; handlers := handlers s;
                      unacked := unacked s |}
          | None => None
          end
      | PcWait =>
          if forallb (fun hr : handling * list event =>
                        match hr.2 with [] => true | _ => false end) (handlers s)
          then Some {| at_pc := PcReturned;
                       trace := trace s ++ [(GMain, EvWait);
                                            (GMain, EvCall AMQP.ChannelClose);
                                            (GMain, EvCall AMQP.ConnectionClose)];
                       forever := forever s; next_tag := next_tag s;
                       handlers := handlers s; unacked := unacked s |}
          else None
      | _ => None
      end
  | InConnClosed =>
      if alive (at_pc s) then
        Some {| at_pc := PcExited;
                trace := trace s ++ [(GMain, EvFatal "connection closed: %v")];
                forever := forever s; next_tag := next_tag s;
                handlers := handlers s; unacked := unacked s |}
      else None
  end.

Fixpoint run (c : Consumer) (ins : list input) (s : state) : option state :=
  match ins with
  | [] => Some s
  | i :: ins' =>
      match step c i s with
      | Some s' => run c ins' s'
      | None => None
      end
  end.

Definition reachable (c : Consumer) (s : state) : Prop :=
  ∃ ins, run c ins init = Some s.

(** The events of the handler of the delivery with the given tag, in the
    order of the trace. *)
Definition events_of (tag : N) (tr : list (gid * event)) : list event :=
  omap (fun ge : gid * event =>
          match ge.1 with
          | GHandler t => if N.eqb t tag then Some ge.2 else None
          | GMain => None
          end) tr.

Definition is_ack (e : event) : bool :=
  match e with EvCall (AMQP.Ack _ _) => true | _ => false end.

Definition is_returned (e : event) : bool :=
  match e with EvHandleReturned _ => true | _ => false end.

(** The delivery tag of the delivery a handler was started for. *)
Definition tag_of (h : handling) : N := AMQP.DeliveryTag (delivery h).

(** An event of the main goroutine before Consume returns: no
    acknowledgement, no close, no wait. *)
Definition main_event (e : event) : bool :=
  match e with
  | EvCall (AMQP.Ack _ _) | EvCall AMQP.ChannelClose
  | EvCall AMQP.ConnectionClose | EvWait => false
  | _ => true
  end.

(** What holds in every state of [Consume]: nothing was sent on [forever],
    the main goroutine is before [wg.Wait()], the next tag counts the
    handlers, each handler has run a prefix of [handleMsg], and every
    event of a handler goroutine belongs to a started handler. *)
Record Inv (c : Consumer) (s : state) : Prop := {
  inv_forever : forever s = make_chan bool;
  inv_pc : at_pc s ≠ PcWait ∧ at_pc s ≠ PcReturned;
  inv_next : next_tag s = N.of_nat (S (length (handlers s)));
  inv_handlers : ∀ k h rest, handlers s !! k = Some (h, rest) →
    tag_of h = N.of_nat (S k) ∧
    events_of (tag_of h) (trace s) ++ rest = handleMsg c h;
  inv_trace : ∀ g e, (g, e) ∈ trace s →
    match g with
    | GMain => main_event e = true
    | GHandler t => ∃ k h rest, handlers s !! k = Some (h, rest) ∧ tag_of h = t
    end
}.

End WithHandler.

Arguments event Err : clear implicits.
Arguments state Err : clear implicits.
Arguments input Err : clear implicits.
Arguments handling Err : clear implicits.

End ConsumerV1.

(* ===================================================================== *)
(** * The consumer with the HTTP job builder: inputs of the examples *)
(* ===================================================================== *)

(** [HTTPJobBuilder.BuildJob] as a [domain.JobBuilder]: a nil job with the
    error, or the job with a nil error. *)
Definition http_BuildJob (data : bytes)
  : option (HTTPJob (URL:=URLLite.URL)) * option error :=
  match (BuildJob_on URLLite.Parse builder0 id zero_message data).1 with
  | Ok job => (Some job, None)
  | Err e => (None, Some e)
  end.

Definition config0 : Config :=
  {| RabbitMq_Username := "guest"; RabbitMq_Password := "p w";
     RabbitMq_Host := "localhost"; RabbitMq_Port := "5672";
     RabbitMq_Vhost := "/"; RabbitMq_Queue := "jobs";
     Prefetch_Count := 0; Prefetch_Global := false;
     Exchange_Name := ""; Exchange_Type := "";
     Exchange_Durable := false; Exchange_Autodelete := false;
     QueueSettings_Routingkey := ""; QueueSettings_MessageTTL := 0;
     QueueSettings_DeadLetterExchange := "";
     QueueSettings_DeadLetterRoutingKey := "";
     Workers_Count := 2; Workers_Queue := 3 |}.

Definition consumer0 : Consumer.Consumer :=
  {| Consumer.Cfg := config0; Consumer.Queue := "jobs";
     Consumer.HttpTimeout := 30; Consumer.DebugLogger := false |}.

Definition consumer1 : ConsumerV1.Consumer :=
  {| ConsumerV1.Queue := "jobs"; ConsumerV1.DebugLogger := false |}.

Definition delivery_bad : AMQP.Delivery :=
  {| AMQP.Body := payload_not_json; AMQP.DeliveryTag := 1 |}.

Definition delivery_good : AMQP.Delivery :=
  {| AMQP.Body := payload_body_only; AMQP.DeliveryTag := 1 |}.

(** A broker on which every call succeeds. *)
Definition broker_ok : AMQP.broker := fun _ => false.

(** The inputs of a run of [Consume] with the pool: one delivery, then the
    delivery channel is closed. *)
Definition inputs_one_delivery : list Consumer.input :=
  [Consumer.InConsume false; Consumer.InDelivery delivery_good;
   Consumer.InAddJob; Consumer.InClosed; Consumer.InRun].

(** Two deliveries for the consumer with [handleMsg]; [HandleMessage]
    fails on the first.  The handler of the first runs to its end. *)
Definition inputs_failed_handling : list (ConsumerV1.input string) :=
  [ConsumerV1.InConsume false;
   ConsumerV1.InDelivery payload_not_json (Some "could not parse message") None;
   ConsumerV1.InDelivery payload_body_only None None;
   ConsumerV1.InHandler 0; ConsumerV1.InHandler 1; ConsumerV1.InHandler 0;
   ConsumerV1.InHandler 0; ConsumerV1.InHandler 0].

(** The handler of the second delivery runs to its acknowledgement before
    the handler of the first has started. *)
Definition inputs_second_first : list (ConsumerV1.input string) :=
  [ConsumerV1.InConsume false;
   ConsumerV1.InDelivery payload_body_only None None;
   ConsumerV1.InDelivery payload_body_only None None;
   ConsumerV1.InHandler 1; ConsumerV1.InHandler 1; ConsumerV1.InHandler 1].

(** [vm_eq t H]: evaluates the closed term [t] and records the result as
    the equation [H]. *)
Ltac vm_eq t H :=
  let v := eval vm_compute in t in
  assert (t = v) as H by (vm_cast_no_check (@eq_refl _ v)).

(* ===================================================================== *)
(** * handler: performing the request *)
(* ===================================================================== *)

Section Perform.
Context {URL DoErr : Type}.
Variable url_Parse : string → option URL.
(** [client.Do(req)]: the error, or the status of the response. *)
Variable client_Do : Request URL → DoErr + string.

(** What a handler does that can be seen from outside. *)
Inductive hevent : Type :=
| HvDo (r : Request URL)                    (* client.Do(req) *)
| HvError (format : string) (e : DoErr)     (* errLogger.Printf *)
| HvJobSent (worker : Z) (method : string) (url : URL) (status : string)
      (* "request sent, worker=%v, method=%v, url=%v, status=%v" *)
| HvSent (method : string) (url : URL) (headers : Header)
      (* "request sent, method=%v, url=%v, headers=%v" *)
| HvClose.                                  (* resp.Body.Close() *)

(** [func (hj *HTTPJob) Do(worker int, infLogger, errLogger)]; the
    deferred close of the body runs at the return. *)
Definition Do (hj : HTTPJob) (worker : Z) : list hevent :=
  match client_Do (req hj) with
  | inl err => [HvDo (req hj); HvError "could not perform http request: %v" err]
  | inr status =>
      [HvDo (req hj);
       HvJobSent worker (ReqMethod (req hj)) (ReqURL (req hj)) status;
       HvClose]
  end.

(** The error of [HandleMessage]: one made from an error of the handler
    package, or [fmt.Errorf(prefix + ": %v", err)] for the error of
    [client.Do]. *)
Inductive handle_error : Type :=
| HandleErr (e : error)
| PerformErr (prefix : string) (e : DoErr).

(** [func parseMessage(data []byte)] of the first version of the handler,
    which returns a pointer to a new message, or an error. *)
Definition parseMessage (data : bytes) : result httpMessage :=
  let '(msg, derr) := Decode.Decode data zero_message in
  match derr with
  | Some err => Err (ErrDecode err)
  | None =>
      if String.eqb (Method (RequestParams msg)) "" then
        Err (ErrNew "empty http method")
      else if String.eqb (URI (RequestParams msg)) "" then
        Err (ErrNew "empty http uri")
      else Ok msg
  end.

(** [func (h *HTTPMessagerHandler) HandleMessage(data []byte) error]: the
    events and the error returned.  [buildRequest] and [buildHeaders] of
    this version are, line by line, those of the job builder. *)
Definition HandleMessage (rng : range_order) (data : bytes)
  : list hevent * option handle_error :=
  match parseMessage data with
  | Err err => ([], Some (HandleErr (ErrWrap "could not parse message" err)))
  | Ok msg =>
      match buildRequest url_Parse rng msg with
      | Err err =>
          ([], Some (HandleErr (ErrWrap "could not build http request" err)))
      | Ok req =>
          match client_Do req with
          | inl err =>
              ([HvDo req], Some (PerformErr "could not perform http request" err))
          | inr _ =>
              ([HvDo req; HvSent (ReqMethod req) (ReqURL req) (ReqHeader req)], None)
          end
      end
  end.

(** The requests performed, in order. *)
Definition requests (evs : list hevent) : list (Request URL) :=
  omap (fun e => match e with HvDo r => Some r | _ => None end) evs.

Definition is_close (e : hevent) : bool :=
  match e with HvClose => true | _ => false end.

End Perform.

Arguments hevent URL DoErr : clear implicits.
Arguments handle_error DoErr : clear implicits.

(** A client for the examples: it refuses the scheme [ftp]. *)
Definition client_http (r : Request URLLite.URL) : string + string :=
  if String.eqb (URLLite.Scheme (ReqURL r)) "ftp"
  then inl "unsupported protocol scheme" else inr "200 OK".

(** Tactics for the facts about [New] and the queue arguments. *)
Ltac in_list :=
  repeat match goal with
         | H : _ ∈ _ :: _ |- _ => apply elem_of_cons in H as [H|H]; [try done|]
         | H : _ ∈ [] |- _ => by apply elem_of_nil in H
         end.

Ltac stops :=
  cbn [fst snd];
  split; [by eexists|];
  split;
  [ let i := fresh "i" in let Hi := fresh in let Hlen := fresh in
    intros i ? Hi Hlen; cbn [length] in Hlen; try lia;
    repeat (destruct i as [|i]; [cbn in Hi; by simplify_eq|try lia])
  | first [ by split
          | split; [reflexivity|]; intros; in_list; by simplify_eq ] ].

Ltac other_call :=
  match goal with
  | H : _ = ?c, Hq : ∀ _, _ |- _ => exfalso; eapply Hq; exact H
  end.

Ltac lk :=
  repeat first [ rewrite lookup_insert_eq
               | rewrite lookup_insert_ne by discriminate
               | rewrite lookup_empty ].

(* ===================================================================== *)
(** * consumer/pool.go: what a run of the pool does with the jobs *)
(* ===================================================================== *)

Module PoolRuns.
Import Pool.

Section WithJob.
Context {J : Type}.

(** The jobs that a schedule submits with [AddJob], in order. *)
Definition added (ls : list (label J)) : list (option J) :=
  omap (fun l => match l with LAddJob job => Some job | _ => None end) ls.

(** The jobs that the workers receive along a run, in the order of the
    hand-offs. *)
Fixpoint handed (numWorkers jobQueueLen : nat) (ls : list (label J))
  (s : state J) : list (option J) :=
  match ls with
  | [] => []
  | l :: ls' =>
      match step numWorkers jobQueueLen l s with
      | Some s' =>
          match l, disp s with
          | LHandOff, DSend job _ => job :: handed numWorkers jobQueueLen ls' s'
          | _, _ => handed numWorkers jobQueueLen ls' s'
          end
      | None => []
      end
  end.

(** The jobs that the pool has accepted and no worker has received: the
    one in the hands of the dispatcher, then the job queue. *)
Definition pending (s : state J) : list (option J) :=
  match disp s with
  | DHaveJob job | DSend job _ => job :: jobQueue s
  | _ => jobQueue s
  end.

(** A step of a goroutine of the pool itself: neither a call of [AddJob]
    nor the call of [Release]. *)
Definition internal (l : label J) : bool :=
  match l with
  | LAddJob _ | LRelease => false
  | _ => true
  end.

End WithJob.

End PoolRuns.

(* ===================================================================== *)
(** * consumer: what a run of Consume does with the deliveries *)
(* ===================================================================== *)

Module ConsumerRuns.
Import Consumer.

Section WithJobBuilder.
Context {Job Err : Type}.
Variable BuildJob : bytes → option Job * option Err.

(** The deliveries that the loop receives, in order. *)
Definition deliveries (ins : list input) : list AMQP.Delivery :=
  omap (fun i => match i with InDelivery d => Some d | _ => None end) ins.

(** The arguments of the calls of [pool.AddJob], in order. *)
Definition jobs_added (tr : list (event Job Err)) : list (option Job) :=
  omap (fun e => match e with EvAddJob job => Some job | _ => None end) tr.

(** The errors that the error logger was given, in order. *)
Definition errors_logged (tr : list (event Job Err)) : list Err :=
  omap (fun e => match e with EvError _ err => Some err | _ => None end) tr.

(** The job that the goroutine is about to add. *)
Definition job_at (p : pc Job) : list (option Job) :=
  match p with
  | PcAddJob job => [job]
  | _ => []
  end.

(** What the builder returns for the delivery of an input. *)
Definition built (i : input) : list (option Job * option Err) :=
  match i with
  | InDelivery d => [BuildJob (AMQP.Body d)]
  | _ => []
  end.

End WithJobBuilder.

End ConsumerRuns.

(** The handler has made its [Ack] call (the call is no more among the
    statements it has left) and the call returned no error: the
    acknowledgement reached the broker. *)
Definition ack_delivered {Err : Type}
  (hr : ConsumerV1.handling Err * list (ConsumerV1.event Err)) : bool :=
  forallb (fun e => negb (ConsumerV1.is_ack e)) hr.2
  && match ConsumerV1.ack_result hr.1 with None => true | Some _ => false end.

(** What the broker holds unacknowledged, against the handlers: the
    deliveries received above every tag whose acknowledgement reached the
    broker. *)
Definition unacked_ok {Err : Type} (s : ConsumerV1.state Err) : Prop :=
  ∀ t, t ∈ ConsumerV1.unacked s ↔
       (1 ≤ t < ConsumerV1.next_tag s)%N ∧
       ∀ k h rest, ConsumerV1.handlers s !! k = Some (h, rest) →
                   ack_delivered (h, rest) = true →
                   (ConsumerV1.tag_of h < t)%N.

(** Two deliveries; the handler of the second runs to its end, and its
    [Ack] returns an error. *)
Definition inputs_failed_ack : list (ConsumerV1.input string) :=
  [ConsumerV1.InConsume false;
   ConsumerV1.InDelivery payload_body_only None None;
   ConsumerV1.InDelivery payload_body_only None (Some "channel closed");
   ConsumerV1.InHandler 1; ConsumerV1.InHandler 1; ConsumerV1.InHandler 1;
   ConsumerV1.InHandler 1].

(** Inputs of the examples: a delivery that cannot be built, then one
    that can. *)
Definition inputs_bad_then_good : list Consumer.input :=
  [Consumer.InConsume false; Consumer.InDelivery delivery_bad; Consumer.InAddJob;
   Consumer.InDelivery delivery_good; Consumer.InAddJob].

(** One delivery, then the delivery channel is closed. *)
Definition inputs_until_WaitAll : list Consumer.input :=
  [Consumer.InConsume false; Consumer.InDelivery delivery_good;
   Consumer.InAddJob; Consumer.InClosed].

(** The bytes that [url.QueryEscape] can write: letters, digits and
    [-_.~], the [+] of a space and the [%] of an escape. *)
Definition uri_safe (c : ascii) : bool :=
  in_range 48 57 c || in_range 65 90 c || in_range 97 122 c
  || existsb (Ascii.eqb c) (bytes_of_string "-_.~+%").

(** The bytes that end the user name, the password or the authority of a
    URI, or start its query or fragment. *)
Definition uri_delimiter (c : ascii) : bool :=
  existsb (Ascii.eqb c) (bytes_of_string ":@/?#").

(** The values that a payload gives under the key [request_params] (or a
    key that folds to it), from left to right. *)
Definition request_params_of (v : json) : list json :=
  match v with
  | JObject ms =>
      omap (fun m : member =>
              if Decode.field_match "request_params" m.1.1 then Some m.2 else None) ms
  | _ => []
  end.

(** The object [v] has a member for the field [name] whose value is the
    string [s]. *)
Definition has_string_field (name : string) (v : json) (s : string) : Prop :=
  ∃ ms key raw, v = JObject ms ∧ (key, raw, JString s) ∈ ms ∧
                Decode.field_match name key = true.

(** The message of the tests of the handler (handler/http_test.go,
    [msgStr]). *)
Definition msgStr : bytes :=
  json_text "{'request_params':{
'uri':'http:\/\/xxx.ccc.de:8080\/ccc\/bbb\/api\/df',
'headers':{
'x-user-uuid':'xxxdddsa-bdf7-4382-8cc4-351367c39e48',
'x-user-scope':'cdasf',
'x-php-ob-level':1,
'x-cc-bb-async':1,
'x-cc-bb-ddasd':1.45,
'Content-Type':'application\/json'},
'body':'{\'from\':\'System notification\',t;:&quot;Bola V\\\\u00e1m prideda.com\\\\\\\/user\\\\\\\/task-list\\\\\\\/108\\\\\\\/edit&quot;}}<\\\/html>\'}',
'method':'POST'}}".

(** The body that the tests expect: the value of the body field as it
    stands in [msgStr], with its quotes. *)
Definition msgStr_body : bytes :=
  json_text "'{\'from\':\'System notification\',t;:&quot;Bola V\\\\u00e1m prideda.com\\\\\\\/user\\\\\\\/task-list\\\\\\\/108\\\\\\\/edit&quot;}}<\\\/html>\'}'".

(* ===================================================================== *)
(** * consumer: one goroutine per delivery, automatic acknowledgement *)
(* ===================================================================== *)

(** The version of the consumer that registers with automatic
    acknowledgement and whose [handleMsg] makes no call on the delivery.
    Its states, inputs and events are those of [ConsumerV1]. *)
Module ConsumerV0.
Import ConsumerV1.

Section WithHandler.
Context {Err : Type}.

(** [func (c *Consumer) handleMsg(d amqp.Delivery)] *)
Definition handleMsg (c : Consumer) (h : handling Err) : list (event Err) :=
  let d := delivery h in
  (if DebugLogger c then [EvDebug "received message: %v" (AMQP.Body d)] else [])
  ++ [EvHandleMessage (AMQP.Body d); EvHandleReturned (handle_result h)]
  ++ match handle_result h with
     | Some e => [EvError "could not handle message: %v" e]
     | None => []
     end.

Definition consume_call (c : Consumer) : AMQP.call :=
  AMQP.Consume (Queue c) "" true false false false.

(** The statements of [Consume] when the registration fails, and from the
    registration to [<-forever]. *)
Definition failed_events (c : Consumer) : list (event Err) :=
  [EvCall (consume_call c); EvFatal "failed to register a consumer: %s"].

Definition start_events (c : Consumer) : list (event Err) :=
  [EvCall (consume_call c); EvCall AMQP.NotifyClose;
   EvGo "ConnectionCloseHandler"; EvGo "range msgs";
   EvInfo "waiting for messages..."].

(** The deferred calls, in the order in which they run at the return,
    after [wg.Wait()]. *)
Definition return_events : list (event Err) :=
  [EvWait; EvCall AMQP.ChannelClose; EvCall AMQP.ConnectionClose].

Definition main_step (p : pc) (evs : list (event Err)) (s : state Err) : state Err :=
  {| at_pc := p; trace := trace s ++ ((fun e => (GMain, e)) <$> evs);
     forever := forever s; next_tag := next_tag s;
     handlers := handlers s; unacked := unacked s |}.

(** One step; the broker holds no delivery unacknowledged, since it counts
    a delivery as acknowledged when it sends it. *)
Definition step (c : Consumer) (i : input Err) (s : state Err) : option (state Err) :=
  match i with
  | InConsume failed =>
      match at_pc s with
      | PcStart =>
          if failed then Some (main_step PcExited (failed_events c) s)
          else Some (main_step PcForever (start_events c) s)
      | _ => None
      end
  | InDelivery body hres ares =>
      if alive (at_pc s) then
        let h := {| delivery := {| AMQP.Body := body; AMQP.DeliveryTag := next_tag s |};
                    handle_result := hres; ack_result := ares |} in
        Some {| at_pc := at_pc s; trace := trace s; forever := forever s;
                next_tag := N.succ (next_tag s);
                handlers := handlers s ++ [(h, handleMsg c h)];
                unacked := unacked s |}
      else None
  | InHandler k =>
      if alive (at_pc s) then
        match handlers s !! k with
        | Some (h, e :: rest) =>
            Some {| at_pc := at_pc s;
                    trace := trace s ++ [(GHandler (AMQP.DeliveryTag (delivery h)), e)];
                    forever := forever s; next_tag := next_tag s;
                    handlers := <[k := (h, rest)]> (handlers s);
                    unacked := broker_ack e (unacked s) |}
        | _ => None
        end
      else None
  | InRun =>
      match at_pc s with
      | PcForever =>
          match chan_recv false (forever s) with
          | Some (_, ch) =>
              Some {| at_pc := PcWait; trace := trace s; forever := ch;
                      next_tag := next_tag s; handlers := handlers s;
                      unacked := unacked s |}
          | None => None
          end
      | PcWait =>
          if forallb (fun hr : handling Err * list (event Err) =>
                        match hr.2 with [] => true | _ => false end) (handlers s)
          then Some (main_step PcReturned return_events s)
          else None
      | _ => None
      end
  | InConnClosed =>
      if alive (at_pc s)
      then Some (main_step PcExited [EvFatal "connection closed: %v"] s)
      else None
  end.

Fixpoint run (c : Consumer) (ins : list (input Err)) (s : state Err)
  : option (state Err) :=
  match ins with
  | [] => Some s
  | i :: ins' =>
      match step c i s with
      | Some s' => run c ins' s'
      | None => None
      end
  end.

Definition reachable (c : Consumer) (s : state Err) : Prop :=
  ∃ ins, run c ins init = Some s.

(** An event that is a call on the broker. *)
Definition is_call (e : event Err) : bool :=
  match e with EvCall _ => true | _ => false end.

(** What holds in every state of [Consume]. *)
Record Inv (c : Consumer) (s : state Err) : Prop := {
  inv_forever : forever s = make_chan bool;
  inv_pc : at_pc s ≠ PcWait ∧ at_pc s ≠ PcReturned;
  inv_next : next_tag s = N.of_nat (S (length (handlers s)));
  inv_unacked : unacked s = [];
  inv_handlers : ∀ k h rest, handlers s !! k = Some (h, rest) →
    tag_of h = N.of_nat (S k) ∧
    events_of (tag_of h) (trace s) ++ rest = handleMsg c h;
  inv_trace : ∀ g e, (g, e) ∈ trace s →
    match g with
    | GMain => main_event e = true
    | GHandler t =>
        is_call e = false ∧
        ∃ k h rest, handlers s !! k = Some (h, rest) ∧ tag_of h = t
    end
}.

End WithHandler.

End ConsumerV0.

(** Two deliveries for the consumer with automatic acknowledgement;
    [HandleMessage] fails on the first. *)
Definition inputs_auto_ack : list (ConsumerV1.input string) :=
  [ConsumerV1.InConsume false;
   ConsumerV1.InDelivery payload_not_json (Some "could not parse message") None;
   ConsumerV1.InDelivery payload_body_only None None;
   ConsumerV1.InHandler 0; ConsumerV1.InHandler 1; ConsumerV1.InHandler 0;
   ConsumerV1.InHandler 0; ConsumerV1.InHandler 1].

(* ===================================================================== *)
(** * main: from the command line to Consume *)
(* ===================================================================== *)

Module Main.

(** The flags of the command line, as [cli.Context] returns them. *)
Record Flags : Type := {
  configuration : string;
  verbose : bool;
  queue_name : string;
  http_timeout : Z
}.

(** The two file names of the [Logs] section of the configuration. *)
Record Logs : Type := { Logs_Error : string; Logs_Info : string }.

(** Where a logger writes. *)
Inductive writer : Type :=
| File (name : string)
| Stdout
| Stderr.

Definition set_RabbitMq_Queue (q : string) (cfg : Config) : Config :=
  {| RabbitMq_Username := RabbitMq_Username cfg;
     RabbitMq_Password := RabbitMq_Password cfg;
     RabbitMq_Host := RabbitMq_Host cfg; RabbitMq_Port := RabbitMq_Port cfg;
     RabbitMq_Vhost := RabbitMq_Vhost cfg; RabbitMq_Queue := q;
     Prefetch_Count := Prefetch_Count cfg; Prefetch_Global := Prefetch_Global cfg;
     Exchange_Name := Exchange_Name cfg; Exchange_Type := Exchange_Type cfg;
     Exchange_Durable := Exchange_Durable cfg;
     Exchange_Autodelete := Exchange_Autodelete cfg;
     QueueSettings_Routingkey := QueueSettings_Routingkey cfg;
     QueueSettings_MessageTTL := QueueSettings_MessageTTL cfg;
     QueueSettings_DeadLetterExchange := QueueSettings_DeadLetterExchange cfg;
     QueueSettings_DeadLetterRoutingKey := QueueSettings_DeadLetterRoutingKey cfg;
     Workers_Count := Workers_Count cfg; Workers_Queue := Workers_Queue cfg |}.

Section Action.
(** [config.LoadAndParse], which is not among the sources: the
    configuration and its log files, or an error. *)
Variable LoadAndParse : string → option (Config * Logs).
(** Whether [os.OpenFile] opens the file. *)
Variable OpenFile : string → bool.
Variable b : AMQP.broker.

(** [func getDebugLogger(verbose bool) *log.Logger]: whether the logger is
    not nil. *)
Definition getDebugLogger (verbose : bool) : bool :=
  if verbose then true else false.

(** [func createLogger(filename string, verbose bool, out io.Writer)]: the
    writers of the logger, or an error. *)
Definition createLogger (filename : string) (verbose : bool) (out : writer)
  : option (list writer) :=
  if OpenFile filename then
    let writers := [File filename] in
    Some (if verbose then writers ++ [out] else writers)
  else None.

(** How the action of the application ends. *)
Inductive outcome : Type :=
| Help                                   (* cli.ShowAppHelp(c); os.Exit(1) *)
| Fatal (format : string) (calls : list AMQP.call)
      (* log.Fatalf or errLogger.Fatalf: the line, then os.Exit(1) *)
| Consume (calls : list AMQP.call) (c : ConsumerV1.Consumer)
          (errLogger infLogger : list writer).
      (* cons.Consume() is called *)

(** [app.Action] *)
Definition Action (f : Flags) : outcome :=
  if String.eqb (configuration f) "" then Help else
  let debugLogger := getDebugLogger (verbose f) in
  match LoadAndParse (configuration f) with
  | None => Fatal "failed parsing configuration: %s\n" []
  | Some (cfg, logs) =>
      match createLogger (Logs_Error logs) (verbose f) Stderr with
      | None => Fatal "failed creating error log: %s" []
      | Some errLogger =>
          match createLogger (Logs_Info logs) (verbose f) Stdout with
          | None => Fatal "failed creating info log: %s" []
          | Some infLogger =>
              let cfg :=
                if negb (String.eqb (queue_name f) "")
                then set_RabbitMq_Queue (queue_name f) cfg else cfg in
              match New b cfg with
              | (calls, _, Some _) => Fatal "failed creating consumer: %s" calls
              | (calls, cfg', None) =>
                  Consume calls
                    {| ConsumerV1.Queue := RabbitMq_Queue cfg';
                       ConsumerV1.DebugLogger := debugLogger |}
                    errLogger infLogger
              end
          end
      end
  end.

End Action.

End Main.

(** A command line and a loader for the examples. *)
Definition flags0 : Main.Flags :=
  {| Main.configuration := "consumer.conf"; Main.verbose := true;
     Main.queue_name := "override"; Main.http_timeout := 30 |}.

Definition loader0 (file : string) : option (Config * Main.Logs) :=
  if String.eqb file "consumer.conf"
  then Some (config0, {| Main.Logs_Error := "err.log"; Main.Logs_Info := "info.log" |})
  else None.

(** The calls by which [New] sets the consumer up. *)
Definition is_setup_call (c : AMQP.call) : bool :=
  match c with
  | AMQP.Dial _ | AMQP.OpenChannel | AMQP.Qos _ _ _
  | AMQP.QueueDeclare _ _ _ _ _ _ | AMQP.ExchangeDeclare _ _ _ _ _ _
  | AMQP.QueueBind _ _ _ _ => true
  | _ => false
  end.

(* ===================================================================== *)
(** * The scanner reads a prefix of its input *)
(* ===================================================================== *)

Module ScanFacts.
Local Open Scope char_scope.

Lemma skip_space_suffix (s : bytes) : skip_space s `suffix_of` s.
Proof.
  induction s as [|c s IH]; simpl; [done|].
  destruct (isSpace c); [by apply suffix_cons_r | done].
Qed.

Lemma span_digits_split (s : bytes) :
  s = (span_digits s).1 ++ (span_digits s).2.
Proof.
  induction s as [|c s IH]; simpl; [done|].
  destruct (is_digit c); [|done].
  destruct (span_digits s) as [d r]; simpl in *. by rewrite IH at 1.
Qed.

Lemma lex_string_split (s body rest : bytes) :
  lex_string s = Some (body, rest) → s = body ++ dquote :: rest.
Proof.
  revert body rest. induction s as [s IH] using (induction_ltof1 _ (@length ascii)).
  unfold ltof in IH. intros body rest H.
  destruct s as [|c r]; simpl in H; [done|].
  destruct (Ascii.eqb_spec c dquote) as [->|_].
  { by simplify_eq. }
  destruct (Ascii.eqb c "\").
  - destruct r as [|e r1]; [done|].
    destruct (Ascii.eqb e "u").
    + destruct r1 as [|h1 [|h2 [|h3 [|h4 r2]]]]; try done.
      destruct (_ && _); [|done].
      destruct (lex_string r2) as [[b' r']|] eqn:E; [|done]. simplify_eq.
      apply IH in E; [|simpl; lia]. by rewrite E.
    + destruct (_ || _); [|done].
      destruct (lex_string r1) as [[b' r']|] eqn:E; [|done]. simplify_eq.
      apply IH in E; [|simpl; lia]. by rewrite E.
  - destruct (_ <? _)%N; [done|].
    destruct (lex_string r) as [[b' r']|] eqn:E; [|done]. simplify_eq.
    apply IH in E; [|simpl; lia]. by rewrite E.
Qed.

Lemma strip_prefix_split (p s r : bytes) :
  strip_prefix p s = Some r → s = p ++ r.
Proof.
  revert s. induction p as [|a p IH]; intros [|b s] H; simplify_eq/=; try done.
  destruct (Ascii.eqb_spec a b) as [->|]; [|done]. f_equal. by apply IH.
Qed.

Lemma span_digits_eq (s d r : bytes) : span_digits s = (d, r) → s = d ++ r.
Proof. intros H. pose proof (span_digits_split s) as E. by rewrite H in E. Qed.

Local Ltac digits :=
  repeat match goal with
         | H : span_digits _ = (_, _) |- _ => apply span_digits_eq in H
         end;
  simplify_eq/=; rewrite <- ?app_assoc; simpl; try done.

Lemma lex_int_split (s i r : bytes) : lex_int s = Some (i, r) → s = i ++ r.
Proof.
  unfold lex_int. intros H. repeat (case_match; simplify_eq/=); digits.
Qed.

Lemma lex_frac_split (s f r : bytes) : lex_frac s = Some (f, r) → s = f ++ r.
Proof.
  unfold lex_frac. intros H. repeat (case_match; simplify_eq/=); digits.
Qed.

Lemma lex_exp_split (s e r : bytes) : lex_exp s = Some (e, r) → s = e ++ r.
Proof.
  unfold lex_exp. intros H. repeat (case_match; simplify_eq/=); digits.
Qed.

(** A number literal is exactly the bytes that were read: its text is
    kept as it stands in the input. *)
Lemma lex_number_split (s lit r : bytes) :
  lex_number s = Some (lit, r) → s = lit ++ r.
Proof.
  unfold lex_number. intros H.
  destruct (match s with
            | c :: r => if Ascii.eqb c "-" then ([c], r) else ([], s)
            | [] => ([], s)
            end) as [sign r0] eqn:Es.
  assert (s = sign ++ r0) as ->.
  { destruct s as [|c s']; simplify_eq/=; try done.
    destruct (Ascii.eqb c "-"); by simplify_eq/=. }
  destruct (lex_int r0) as [[i r1]|] eqn:Ei; [|done].
  destruct (lex_frac r1) as [[f r2]|] eqn:Ef; [|done].
  destruct (lex_exp r2) as [[e r3]|] eqn:Ee; [|done].
  simplify_eq.
  apply lex_int_split in Ei as ->. apply lex_frac_split in Ef as ->.
  apply lex_exp_split in Ee as ->. by rewrite <- !app_assoc.
Qed.

Lemma raw_of_app (c r : bytes) : raw_of (c ++ r) r = c.
Proof.
  unfold raw_of. rewrite length_app.
  replace (length c + length r - length r) with (length c) by lia.
  by rewrite take_app_length.
Qed.

Local Ltac list_eq :=
  repeat (rewrite <- app_assoc || rewrite <- app_comm_cons); try done.

Section ContainerFacts.
Variable value : bytes → option (json * bytes).
Hypothesis value_suffix : ∀ s v r, value s = Some (v, r) → r `suffix_of` s.

Lemma elements_suffix n s vs r :
  elements value n s = Some (vs, r) → r `suffix_of` s.
Proof.
  revert s vs r. induction n as [|n IH]; intros s vs r H; simpl in H; [done|].
  destruct (value s) as [[v r0]|] eqn:Ev; [|done].
  apply value_suffix in Ev.
  pose proof (skip_space_suffix r0) as Hs.
  destruct (skip_space r0) as [|c r1]; [done|].
  assert (r1 `suffix_of` s) as H1.
  { etrans; [|exact Ev]. etrans; [|exact Hs]. by apply suffix_cons_r. }
  destruct (Ascii.eqb c ",").
  - destruct (elements value n (skip_space r1)) as [[vs' r2]|] eqn:E; [|done].
    simplify_eq. apply IH in E. etrans; [exact E|].
    etrans; [apply skip_space_suffix | exact H1].
  - destruct (Ascii.eqb c "]"); by simplify_eq.
Qed.

(** Every member of a parsed object carries the bytes its value was
    read from, and these bytes stand in the input as they are. *)
Lemma members_spec n s ms r :
  members value n s = Some (ms, r) →
  r `suffix_of` s ∧
  ∀ k raw v, (k, raw, v) ∈ ms →
    ∃ pre post, s = pre ++ raw ++ post ∧ value (raw ++ post) = Some (v, post).
Proof.
  revert s ms r. induction n as [|n IH]; intros s ms r H; simpl in H; [done|].
  destruct s as [|q r0]; [done|].
  destruct (Ascii.eqb q dquote); [|done].
  destruct (lex_string r0) as [[key r1]|] eqn:Ek; [|done].
  apply lex_string_split in Ek.
  pose proof (skip_space_suffix r1) as [w1 Hw1].
  destruct (skip_space r1) as [|c r2]; [done|].
  destruct (Ascii.eqb c ":"); [|done].
  pose proof (skip_space_suffix r2) as [w2 Hw2].
  destruct (value (skip_space r2)) as [[v r4]|] eqn:Ev; [|done].
  pose proof (value_suffix _ _ _ Ev) as [raw Hraw].
  rewrite Hraw in H. rewrite raw_of_app in H. rewrite Hraw in Ev.
  assert (∃ pre, q :: r0 = pre ++ raw ++ r4) as [pre Hpre].
  { exists (q :: key ++ dquote :: w1 ++ c :: w2).
    rewrite Ek, Hw1, Hw2, Hraw. list_eq. }
  assert (skip_space r4 `suffix_of` q :: r0) as Hs4.
  { etrans; [apply skip_space_suffix|]. exists (pre ++ raw). rewrite Hpre. list_eq. }
  destruct (skip_space r4) as [|d r5]; [done|].
  apply suffix_cons_l in Hs4.
  destruct (Ascii.eqb d ",").
  - destruct (members value n (skip_space r5)) as [[ms' r6]|] eqn:E; [|done].
    injection H as <- <-. apply IH in E as [Hsuf Hms].
    assert (skip_space r5 `suffix_of` q :: r0) as Hs5.
    { etrans; [apply skip_space_suffix | exact Hs4]. }
    split; [by etrans|].
    intros k0 raw0 v0 [?|Hin]%elem_of_cons.
    + simplify_eq. by exists pre, r4.
    + apply Hms in Hin as (pre' & post' & Heq & Hval).
      destruct Hs5 as [k' Hk']. exists (k' ++ pre'), post'. split; [|done].
      rewrite Hk', Heq. list_eq.
  - destruct (Ascii.eqb d "}"); [|done]. injection H as <- <-. split; [done|].
    intros k0 raw0 v0 ?%list_elem_of_singleton. simplify_eq.
    by exists pre, r4.
Qed.
End ContainerFacts.

Lemma value_suffix n s v r : value n s = Some (v, r) → r `suffix_of` s.
Proof.
  revert s v r. induction n as [|n IH]; intros s v r H; cbn [value] in H; [done|].
  destruct s as [|c r0]; [done|].
  pose proof (skip_space_suffix r0) as Hs.
  destruct (Ascii.eqb c "{").
  { destruct (skip_space r0) as [|c1 r1] eqn:E0; [done|].
    destruct (Ascii.eqb c1 "}").
    - simplify_eq. apply suffix_cons_r. etrans; [|exact Hs]. by apply suffix_cons_r.
    - destruct (members _ _ _) as [[ms r2]|] eqn:E; [|done]. simplify_eq.
      apply members_spec in E as [E _]; [|exact (IH)].
      apply suffix_cons_r. by etrans. }
  destruct (Ascii.eqb c "[").
  { destruct (skip_space r0) as [|c1 r1] eqn:E0; [done|].
    destruct (Ascii.eqb c1 "]").
    - simplify_eq. apply suffix_cons_r. etrans; [|exact Hs]. by apply suffix_cons_r.
    - destruct (elements _ _ _) as [[vs r2]|] eqn:E; [|done]. simplify_eq.
      apply elements_suffix in E; [|exact IH].
      apply suffix_cons_r. by etrans. }
  destruct (Ascii.eqb c dquote).
  { destruct (lex_string r0) as [[b r1]|] eqn:E; [|done]. simplify_eq.
    apply lex_string_split in E as ->. apply suffix_cons_r.
    apply suffix_app_r. by apply suffix_cons_r. }
  destruct (Ascii.eqb c "t").
  { destruct (strip_prefix _ r0) as [r1|] eqn:E; [|done]. simplify_eq.
    apply strip_prefix_split in E as ->. apply suffix_cons_r. by apply suffix_app_r. }
  destruct (Ascii.eqb c "f").
  { destruct (strip_prefix _ r0) as [r1|] eqn:E; [|done]. simplify_eq.
    apply strip_prefix_split in E as ->. apply suffix_cons_r. by apply suffix_app_r. }
  destruct (Ascii.eqb c "n").
  { destruct (strip_prefix _ r0) as [r1|] eqn:E; [|done]. simplify_eq.
    apply strip_prefix_split in E as ->. apply suffix_cons_r. by apply suffix_app_r. }
  destruct (lex_number (c :: r0)) as [[lit r1]|] eqn:E; [|done]. simplify_eq.
  apply lex_number_split in E. rewrite E. by apply suffix_app_r.
Qed.

(** The members of the object that [value] returns. *)
Lemma value_object_members n s ms r k raw v :
  value n s = Some (JObject ms, r) →
  (k, raw, v) ∈ ms →
  ∃ pre post m, s = pre ++ raw ++ post ∧ value m (raw ++ post) = Some (v, post).
Proof.
  destruct n as [|n]; cbn [value]; [done|].
  destruct s as [|c r0]; [done|].
  intros H Hin.
  destruct (Ascii.eqb c "{").
  - pose proof (skip_space_suffix r0) as [w Hw].
    destruct (skip_space r0) as [|c1 r1] eqn:E0; [done|].
    destruct (Ascii.eqb c1 "}").
    { injection H as <- <-. by apply elem_of_nil in Hin. }
    destruct (members _ _ _) as [[ms' r2]|] eqn:E; [|done].
    injection H as <- <-.
    apply members_spec in E as [_ E]; [|apply value_suffix].
    apply E in Hin as (pre & post & Heq & Hv).
    exists (c :: w ++ pre), post, n. split; [|done].
    rewrite Hw, Heq. list_eq.
  - repeat (case_match; try done); simplify_eq.
Qed.

End ScanFacts.

(* ===================================================================== *)
(** * handler: what BuildJob returns *)
(* ===================================================================== *)

Section HandlerFacts.
Context {URL : Type}.
Variable url_Parse : string → option URL.
Implicit Types (h : HTTPJobBuilder) (rng : range_order).
Implicit Types (msg : httpMessage) (data : bytes) (hd : Header).

Lemma reset_zero msg : reset msg = zero_message.
Proof. reflexivity. Qed.

Lemma text_or_not (v : json) :
  (∃ t, is_text v = Some t ∧ (v = JString t ∨ v = JNumber t)) ∨ is_text v = None.
Proof. destruct v; simpl; eauto. Qed.

(** The loop fails on the first entry that is no text, and only
    there. *)
Lemma loop_Err es hd e :
  buildHeaders_loop es hd = Err e →
  ∃ k v, (k, v) ∈ es ∧ is_text v = None ∧ e = ErrInvalidHeader k v.
Proof.
  revert hd. induction es as [|[k v] es IH]; intros hd H; simpl in H; [done|].
  destruct v;
    first [ apply IH in H as (k' & v' & ? & ? & ?); exists k', v';
            split; [by right|done]
          | injection H as <-; eexists k, _; split; [by left|done] ].
Qed.

Lemma loop_Ok_text es hd hd' :
  buildHeaders_loop es hd = Ok hd' →
  ∀ k v, (k, v) ∈ es → is_Some (is_text v).
Proof.
  revert hd. induction es as [|[k v] es IH]; intros hd H k' v' Hin; simpl in H.
  { by apply elem_of_nil in Hin. }
  apply elem_of_cons in Hin as [[= -> ->]|Hin].
  - destruct v; simplify_eq/=; eauto.
  - destruct v; simplify_eq/=; eauto.
Qed.

Lemma loop_total es hd :
  (∀ k v, (k, v) ∈ es → is_Some (is_text v)) →
  ∃ hd', buildHeaders_loop es hd = Ok hd'.
Proof.
  revert hd. induction es as [|[k v] es IH]; intros hd H; simpl; [eauto|].
  destruct (H k v) as [t Ht]; [left|].
  destruct v; simplify_eq/=; apply IH; intros; apply (H k0); by right.
Qed.

(** The value kept for a canonical key that all the entries spelling it
    agree on. *)
Lemma loop_lookup es hd hd' k v t :
  buildHeaders_loop es hd = Ok hd' →
  is_text v = Some t →
  (∀ k' v', (k', v') ∈ es →
     CanonicalMIMEHeaderKey k' = CanonicalMIMEHeaderKey k → v' = v) →
  (k, v) ∈ es ∨ hd !! CanonicalMIMEHeaderKey k = Some [t] →
  hd' !! CanonicalMIMEHeaderKey k = Some [t].
Proof.
  intros H Ht. revert hd H.
  induction es as [|[k0 v0] es IH]; intros hd H Hsame Hin; simpl in H.
  { destruct Hin as [Hin|Hin]; [by apply elem_of_nil in Hin|]. by simplify_eq. }
  assert (∃ t0, is_text v0 = Some t0 ∧
                buildHeaders_loop es (Header_Set k0 t0 hd) = Ok hd')
    as (t0 & Ht0 & Hloop).
  { destruct v0; simplify_eq/=; eauto. }
  apply (IH _ Hloop).
  { intros k' v' Hin'. apply Hsame. by right. }
  destruct (decide (CanonicalMIMEHeaderKey k0 = CanonicalMIMEHeaderKey k)) as [Hc|Hc].
  - right. assert (v0 = v) as -> by (apply (Hsame k0); [left|done]).
    simplify_eq. unfold Header_Set. rewrite Hc. apply lookup_insert_eq.
  - destruct Hin as [Hin|Hin].
    + apply elem_of_cons in Hin as [?|?]; [by simplify_eq | by left].
    + right. unfold Header_Set. by rewrite lookup_insert_ne.
Qed.

Lemma headers_ok_lookup msg hs :
  Headers (RequestParams msg) = Some hs →
  headers_ok msg = true ↔ ∀ k v, hs !! k = Some v → is_Some (is_text v).
Proof.
  intros Hh. unfold headers_ok. rewrite Hh, forallb_forall.
  split.
  - intros H k v Hkv. apply elem_of_map_to_list, list_elem_of_In in Hkv.
    apply H in Hkv. by apply bool_decide_eq_true in Hkv.
  - intros H [k v] Hkv%list_elem_of_In%elem_of_map_to_list.
    apply bool_decide_eq_true. eauto.
Qed.

(** [BuildJob] on any pooled message, step by step on the decoded
    payload. *)
Lemma BuildJob_on_eq h rng msg0 data :
  BuildJob_on url_Parse h rng msg0 data =
  let msg := (Decode.Decode data zero_message).1 in
  (match (Decode.Decode data zero_message).2 with
   | Some e => Err (ErrWrap "could not parse message" (ErrDecode e))
   | None =>
       if String.eqb (Method (RequestParams msg)) "" then
         Err (ErrWrap "could not parse message" (ErrNew "empty http method"))
       else if String.eqb (URI (RequestParams msg)) "" then
         Err (ErrWrap "could not parse message" (ErrNew "empty http uri"))
       else
         match buildRequest url_Parse rng msg with
         | Err e => Err (ErrWrap "could not build http request" e)
         | Ok r => Ok {| client := builder_client h; req := r |}
         end
   end, msg).
Proof.
  unfold BuildJob_on, parse. rewrite reset_zero.
  destruct (Decode.Decode data zero_message) as [msg [e|]]; simpl; [done|].
  destruct (String.eqb _ ""); [done|]. destruct (String.eqb _ ""); [done|].
  by destruct (buildRequest _ _ _).
Qed.

(** What [buildRequest] returns, case by case. *)
Lemma buildRequest_cases rng msg :
  range_ok rng →
  let p := RequestParams msg in
  Method p ≠ "" →
  match buildRequest url_Parse rng msg with
  | Ok rq =>
      validMethod (Method p) = true ∧ url_Parse (URI p) = Some (ReqURL rq) ∧
      headers_ok msg = true ∧ ReqMethod rq = Method p ∧ ReqBody rq = Body p ∧
      match Headers p with
      | Some hs => buildHeaders_loop (rng (map_to_list hs)) ∅ = Ok (ReqHeader rq)
      | None => ReqHeader rq = ∅
      end
  | Err e =>
      (validMethod (Method p) = false ∧ e = ErrInvalidMethod (Method p)) ∨
      (validMethod (Method p) = true ∧ url_Parse (URI p) = None ∧
       e = ErrURLParse (URI p)) ∨
      (validMethod (Method p) = true ∧ is_Some (url_Parse (URI p)) ∧
       headers_ok msg = false ∧
       ∃ k v hs, Headers p = Some hs ∧ hs !! k = Some v ∧ is_text v = None ∧
                 e = ErrWrap "could not build http headers" (ErrInvalidHeader k v))
  end.
Proof.
  intros Hrng p Hm. unfold buildRequest, NewRequest. fold p.
  destruct (String.eqb_spec (Method p) "") as [|_]; [done|].
  destruct (validMethod (Method p)) eqn:Hv; simpl; [|by left].
  destruct (url_Parse (URI p)) as [u|] eqn:Hu; [|right; by left].
  unfold buildHeaders. fold p.
  destruct (Headers p) as [hs|] eqn:Hh; simpl.
  - destruct (buildHeaders_loop (rng (map_to_list hs)) ∅) as [hd|e] eqn:Hl; simpl.
    + repeat split; try done.
      apply (headers_ok_lookup msg hs Hh). intros k v Hkv.
      apply (loop_Ok_text _ _ _ Hl k). rewrite (Hrng _).
      by apply elem_of_map_to_list.
    + right; right. apply loop_Err in Hl as (k & v & Hin & Hnt & ->).
      rewrite (Hrng _) in Hin. apply elem_of_map_to_list in Hin.
      repeat split; [eauto| |by exists k, v, hs].
      destruct (headers_ok msg) eqn:Hok; [|done].
      apply (headers_ok_lookup msg hs Hh) in Hin as [t Ht]; [|done]. congruence.
  - repeat split; try done. unfold headers_ok. fold p. by rewrite Hh.
Qed.

End HandlerFacts.

(* ===================================================================== *)
(** * handler: the claims about BuildJob *)
(* ===================================================================== *)

Section BuildJobClaims.
Context {URL : Type}.
Variable url_Parse : string → option URL.
Implicit Types (h : HTTPJobBuilder) (rng : range_order).
Implicit Types (msg : httpMessage) (data : bytes).

(** C3 (as amended).  [BuildJob] returns a job and no error exactly when
    the decoder accepts the payload, method and uri are not empty,
    [http.NewRequest] accepts the method and the uri, and every header
    value is a string or a number.  Otherwise it returns an error and no
    job: the decoder's error when the scanner rejects the payload (a
    syntax error) or a field has a value of the wrong JSON type; else
    "empty http method", else "empty http uri"; else the error of
    [http.NewRequest] for the method, else for the uri; else the error
    for a header value that is neither a string nor a number. *)
Theorem BuildJob_outcome h rng msg0 data :
  range_ok rng →
  let r := (BuildJob_on url_Parse h rng msg0 data).1 in
  (is_Ok r = true ↔
     ∃ msg, decoded data = Some msg ∧
            Method (RequestParams msg) ≠ "" ∧ URI (RequestParams msg) ≠ "" ∧
            validMethod (Method (RequestParams msg)) = true ∧
            is_Some (url_Parse (URI (RequestParams msg))) ∧
            headers_ok msg = true) ∧
  (scan data = None →
     r = Err (ErrWrap "could not parse message" (ErrDecode SyntaxError))) ∧
  (decoded data = None →
     ∃ e, r = Err (ErrWrap "could not parse message" (ErrDecode e))) ∧
  (∀ msg, decoded data = Some msg →
     let p := RequestParams msg in
     (Method p = "" →
        r = Err (ErrWrap "could not parse message" (ErrNew "empty http method"))) ∧
     (Method p ≠ "" → URI p = "" →
        r = Err (ErrWrap "could not parse message" (ErrNew "empty http uri"))) ∧
     (Method p ≠ "" → URI p ≠ "" → validMethod (Method p) = false →
        r = Err (ErrWrap "could not build http request" (ErrInvalidMethod (Method p)))) ∧
     (Method p ≠ "" → URI p ≠ "" → validMethod (Method p) = true →
      url_Parse (URI p) = None →
        r = Err (ErrWrap "could not build http request" (ErrURLParse (URI p)))) ∧
     (Method p ≠ "" → URI p ≠ "" → validMethod (Method p) = true →
      is_Some (url_Parse (URI p)) → headers_ok msg = false →
        ∃ k v hs, Headers p = Some hs ∧ hs !! k = Some v ∧ is_text v = None ∧
          r = Err (ErrWrap "could not build http request"
                     (ErrWrap "could not build http headers" (ErrInvalidHeader k v))))).
Proof.
  intros Hrng r. subst r. rewrite BuildJob_on_eq. cbn [fst].
  unfold decoded, Decode.Decode.
  destruct (scan data) as [v|] eqn:Hscan.
  2:{ cbn [snd]. split_and!; try done.
      - split; [done|]. by intros (? & ? & _).
      - eauto. }
  destruct (Decode.store_message zero_message v) as [msg [e|]] eqn:Hst; cbn [fst snd].
  { split_and!; try done; [|eauto]. split; [done|]. by intros (? & ? & _). }
  pose proof (buildRequest_cases url_Parse rng msg Hrng) as Hreq. cbn zeta in Hreq.
  destruct (String.eqb_spec (Method (RequestParams msg)) "") as [Hm|Hm].
  { split_and!; try done.
    - split; [done|]. intros (? & ? & ? & _). by simplify_eq.
    - intros ? [= <-]. cbn zeta. by split_and!. }
  specialize (Hreq Hm).
  destruct (String.eqb_spec (URI (RequestParams msg)) "") as [Hu|Hu].
  { split_and!; try done.
    - split; [done|]. intros (? & ? & ? & ? & _). by simplify_eq.
    - intros ? [= <-]. cbn zeta. by split_and!. }
  destruct (buildRequest url_Parse rng msg) as [rq|e].
  - destruct Hreq as (Hv & Hp & Hok & _).
    split_and!; try done.
    + split; [|done]. intros _. exists msg. split_and!; eauto.
    + intros ? [= <-]. cbn zeta. split_and!; try done; try congruence.
  - split_and!; try done.
    + split; [done|]. intros (? & [= <-] & _ & _ & Hv & [u Hp] & Hok).
      destruct Hreq as [[? _]|[(_ & ? & _)|(_ & _ & ? & _)]]; congruence.
    + intros ? [= <-]. cbn zeta. split_and!; try done.
      * intros _ _ Hv.
        destruct Hreq as [[? ->]|[(? & _)|(? & _)]]; [done|congruence..].
      * intros _ _ Hv Hp.
        destruct Hreq as [[? _]|[(_ & _ & ->)|(_ & [u Hu'] & _)]];
          [congruence|done|congruence].
      * intros _ _ Hv [u Hp] Hok.
        destruct Hreq as [[? _]|[(_ & ? & _)|(_ & _ & _ & k & v' & hs & ? & ? & ? & ->)]];
          [congruence..|]. by exists k, v', hs.
Qed.

End BuildJobClaims.

(** C3, the counterexample: a payload that is valid JSON with a method and
    a uri that are not empty and no header at all, for which [BuildJob]
    returns an error: the method has a space in it, and [http.NewRequest]
    rejects it. *)
Lemma BuildJob_rejects_valid_payload :
  payload_valid payload_bad_method = true ∧
  (BuildJob_on URLLite.Parse builder0 id zero_message payload_bad_method).1
  = Err (ErrWrap "could not build http request" (ErrInvalidMethod "GE T")).
Proof. split; vm_compute; reflexivity. Qed.

Lemma range_ok_id : range_ok id.
Proof. by intros l. Qed.

(** C3, an instance: the payload of the specification with an empty method
    yields the validation error and no job, and bytes that are not JSON
    yield the decoder's error. *)
Lemma BuildJob_outcome_witness :
  range_ok id ∧
  (BuildJob_on URLLite.Parse builder0 id zero_message payload_empty_method).1
  = Err (ErrWrap "could not parse message" (ErrNew "empty http method")) ∧
  (BuildJob_on URLLite.Parse builder0 id zero_message payload_not_json).1
  = Err (ErrWrap "could not parse message" (ErrDecode SyntaxError)).
Proof.
  split; [exact range_ok_id|]. split.
  - pose proof (BuildJob_outcome URLLite.Parse builder0 id zero_message
                  payload_empty_method range_ok_id) as (_ & _ & _ & H).
    destruct (decoded payload_empty_method) as [msg|] eqn:E; [|by vm_compute in E].
    destruct (H msg eq_refl) as (H1 & _). apply H1.
    vm_compute in E. by injection E as <-.
  - pose proof (BuildJob_outcome URLLite.Parse builder0 id zero_message
                  payload_not_json range_ok_id) as (_ & H & _).
    apply H. vm_compute. reflexivity.
Defined.

(* ===================================================================== *)
(** * handler: headers, body and the pooled message *)
(* ===================================================================== *)

Section RequestClaims.
Context {URL : Type}.
Variable url_Parse : string → option URL.
Implicit Types (h : HTTPJobBuilder) (rng : range_order).
Implicit Types (msg : httpMessage) (data : bytes).

(** A job is built from the decoded payload. *)
Lemma BuildJob_on_Ok h rng msg0 data job :
  (BuildJob_on url_Parse h rng msg0 data).1 = Ok job →
  ∃ msg, decoded data = Some msg ∧
         Method (RequestParams msg) ≠ "" ∧
         buildRequest url_Parse rng msg = Ok (req job).
Proof.
  rewrite BuildJob_on_eq. cbn [fst]. unfold decoded.
  destruct (Decode.Decode data zero_message) as [msg [e|]]; cbn [fst snd]; [done|].
  destruct (String.eqb_spec (Method (RequestParams msg)) "") as [|Hm]; [done|].
  destruct (String.eqb _ ""); [done|].
  destruct (buildRequest url_Parse rng msg) as [rq|] eqn:E; [|done].
  intros [= <-]. by exists msg.
Qed.

(** C6 (as amended).  When a job is built, every header of the payload
    whose key has a canonical form (CanonicalMIMEHeaderKey) that no other
    key of the headers object shares is in the request under that
    canonical form, with one value: the content of the string, or the
    literal text of the number as the payload has it. *)
Theorem headers_round_trip h rng msg0 data job msg hs k v :
  range_ok rng →
  (BuildJob_on url_Parse h rng msg0 data).1 = Ok job →
  decoded data = Some msg →
  Headers (RequestParams msg) = Some hs →
  hs !! k = Some v →
  (∀ k', is_Some (hs !! k') →
         CanonicalMIMEHeaderKey k' = CanonicalMIMEHeaderKey k → k' = k) →
  ∃ t, (v = JString t ∨ v = JNumber t) ∧
       ReqHeader (req job) !! CanonicalMIMEHeaderKey k = Some [t].
Proof.
  intros Hrng Hjob Hdec Hhs Hk Huniq.
  apply BuildJob_on_Ok in Hjob as (msg' & Hdec' & Hm & Hreq).
  assert (msg' = msg) as -> by congruence.
  pose proof (buildRequest_cases url_Parse rng msg Hrng Hm) as Hc.
  rewrite Hreq, Hhs in Hc. destruct Hc as (_ & _ & Hok & _ & _ & Hloop).
  pose proof (proj1 (headers_ok_lookup msg hs Hhs) Hok) as Htext.
  destruct (text_or_not v) as [(t & Ht & Hv)|Hn].
  2:{ destruct (Htext k v Hk) as [t Ht]. congruence. }
  exists t. split; [done|].
  eapply loop_lookup; [exact Hloop|exact Ht| |].
  - intros k' v' Hin Hcan. rewrite (Hrng _) in Hin.
    apply elem_of_map_to_list in Hin.
    assert (k' = k) as -> by (apply Huniq; eauto). congruence.
  - left. rewrite (Hrng _). by apply elem_of_map_to_list.
Qed.

Lemma buildRequest_body rng msg rq :
  buildRequest url_Parse rng msg = Ok rq →
  ReqBody rq = Body (RequestParams msg).
Proof.
  unfold buildRequest, NewRequest.
  destruct (negb _); [done|]. destruct (url_Parse _); [|done].
  destruct (buildHeaders rng msg) as [[hd|]|]; by intros [= <-].
Qed.

End RequestClaims.

(** The names of the fields fold to different keys, so a key selects at
    most one field. *)
Lemma field_match_fold name key :
  Decode.field_match name key = true →
  Decode.foldName name = Decode.foldName key.
Proof.
  unfold Decode.field_match. intros [H|H]%orb_true_iff.
  - by apply String.eqb_eq in H as ->.
  - by apply String.eqb_eq in H.
Qed.

Lemma field_match_body key :
  Decode.field_match "body" key = true →
  Decode.field_match "uri" key = false ∧ Decode.field_match "headers" key = false.
Proof.
  intros Hb%field_match_fold.
  split; apply not_true_is_false; intros H%field_match_fold;
    rewrite <- H in Hb; by vm_compute in Hb.
Qed.

Lemma store_param_Body p saved (m : member) :
  Body (Decode.store_param (p, saved) m).1 =
  if Decode.field_match "body" m.1.1 then Some m.1.2 else Body p.
Proof.
  destruct m as [[key raw] v]. cbn [fst snd Decode.store_param].
  destruct (Decode.field_match "body" key) eqn:Hb.
  - apply field_match_body in Hb as [-> ->]. done.
  - destruct (Decode.field_match "uri" key).
    { by destruct (Decode.store_string _ _ _ _). }
    destruct (Decode.field_match "headers" key).
    { by destruct (Decode.store_map _ _ _ _). }
    destruct (Decode.field_match "method" key); [|done].
    by destruct (Decode.store_string _ _ _ _).
Qed.

Lemma store_params_Body p v saved :
  Body (Decode.store_params p v saved).1 =
  from_option Some (Body p) (last (body_raws_of_params v)).
Proof.
  destruct v; try done. simpl.
  revert p saved. induction ms as [|m ms IH]; intros p saved; [done|].
  cbn [foldl omap list_omap].
  destruct (Decode.store_param (p, saved) m) as [p' saved'] eqn:E.
  rewrite IH. pose proof (store_param_Body p saved m) as Hb. rewrite E in Hb.
  cbn [fst] in Hb. rewrite Hb.
  destruct (Decode.field_match "body" m.1.1); [|done].
  rewrite last_cons. by destruct (last _).
Qed.

(** The decoded message holds the body field of the payload. *)
Lemma store_message_Body msg v :
  Body (RequestParams (Decode.store_message msg v).1) =
  from_option Some (Body (RequestParams msg)) (last (body_raws v)).
Proof.
  destruct v; try done. simpl.
  generalize (@None decode_error) as saved.
  revert msg. induction ms as [|m ms IH]; intros msg saved; [done|].
  cbn [foldl fmap list_fmap mjoin list_join].
  rewrite last_app.
  destruct m as [[key raw] v]. cbn [Decode.store_member fst snd].
  destruct (Decode.field_match "request_params" key).
  - destruct (Decode.store_params _ v saved) as [p' saved'] eqn:E.
    rewrite IH. cbn [RequestParams].
    pose proof (store_params_Body (RequestParams msg) v saved) as Hb.
    rewrite E in Hb. cbn [fst] in Hb. rewrite Hb.
    by destruct (last (mjoin _)), (last (body_raws_of_params v)).
  - rewrite IH. by destruct (last (mjoin _)).
Qed.

(** The body field stands in the payload as it is. *)
Lemma payload_body_slice (data b : bytes) :
  payload_body data = Some b → ∃ pre post, data = pre ++ b ++ post.
Proof.
  unfold payload_body, scan.
  destruct (value (S (length data)) (skip_space data)) as [[v r]|] eqn:Ev; [|done].
  intros Hb%last_Some_elem_of.
  destruct v as [| | | | |ms]; try by apply elem_of_nil in Hb.
  cbn [body_raws] in Hb.
  apply list_elem_of_join in Hb as (l & Hb & Hl).
  apply list_elem_of_fmap in Hl as ([[key raw] pv] & -> & Hm).
  cbn [fst snd] in Hb.
  destruct (Decode.field_match "request_params" key); [|by apply elem_of_nil in Hb].
  destruct pv as [| | | | |ms']; try by apply elem_of_nil in Hb.
  cbn [body_raws_of_params] in Hb.
  apply list_elem_of_omap in Hb as ([[key' raw'] v'] & Hm' & Hf).
  cbn [fst snd] in Hf.
  destruct (Decode.field_match "body" key'); [|done]. injection Hf as ->.
  destruct (ScanFacts.value_object_members _ _ _ _ _ _ _ Ev Hm)
    as (pre1 & post1 & n1 & Hs1 & Hv1).
  destruct (ScanFacts.value_object_members _ _ _ _ _ _ _ Hv1 Hm')
    as (pre2 & post2 & n2 & Hs2 & _).
  destruct (ScanFacts.skip_space_suffix data) as [w Hw].
  assert (raw ++ post1 = pre2 ++ b ++ post2) as Hraw by done.
  exists (w ++ pre1 ++ pre2), post2.
  rewrite Hw, Hs1, Hraw. by rewrite <- !app_assoc.
Qed.

Section BodyClaim.
Context {URL : Type}.
Variable url_Parse : string → option URL.

(** C7.  When a job is built, the body of its request is the body field
    of the payload: the bytes of the value of that field as they stand in
    the payload, not decoded and not encoded again; when the payload has
    no body field the request has no body. *)
Theorem body_passed_through (h : HTTPJobBuilder) (rng : range_order)
  (msg0 : httpMessage) (data : bytes) (job : HTTPJob) :
  (BuildJob_on url_Parse h rng msg0 data).1 = Ok job →
  ReqBody (req job) = payload_body data ∧
  (∀ b, ReqBody (req job) = Some b → ∃ pre post, data = pre ++ b ++ post) ∧
  (payload_body data = None → ReqBody (req job) = None).
Proof.
  intros (msg & Hdec & _ & Hreq)%BuildJob_on_Ok.
  apply buildRequest_body in Hreq.
  assert (ReqBody (req job) = payload_body data) as Heq.
  { rewrite Hreq. unfold decoded, Decode.Decode, payload_body in *.
    destruct (scan data) as [v|]; [|done].
    pose proof (store_message_Body zero_message v) as Hb.
    destruct (Decode.store_message zero_message v) as [msg' [e|]]; [done|].
    injection Hdec as ->. cbn [fst] in Hb. rewrite Hb.
    by destruct (last (body_raws v)). }
  split; [done|]. split; [|congruence].
  intros b Hb. apply payload_body_slice. congruence.
Qed.

End BodyClaim.

(** C7, an instance: the body of the request is the text of the body field,
    with the blanks inside it. *)
Lemma body_passed_through_witness :
  ∃ job,
    (BuildJob_on URLLite.Parse builder0 id zero_message payload_body_only).1 = Ok job ∧
    ReqBody (req job) = Some (json_text "{'from' : 'jano',  'n':1.0}") ∧
    (BuildJob_on URLLite.Parse builder0 id zero_message payload_headers).1
    = Ok {| client := builder_client builder0;
            req := {| ReqMethod := "POST";
                      ReqURL := {| URLLite.Scheme := "http"; URLLite.Rest := "//x" |};
                      ReqHeader := {[ "X-A" := ["1"]; "X-B" := ["1.45"] ]};
                      ReqBody := None;
                      ContentLength := 0 |} |}.
Proof.
  destruct (BuildJob_on URLLite.Parse builder0 id zero_message payload_body_only).1
    as [job|e] eqn:E; [|by vm_compute in E].
  exists job. split; [done|].
  destruct (body_passed_through URLLite.Parse _ _ _ _ _ E) as (-> & _ & _).
  split; vm_compute; reflexivity.
Defined.

(** C6, the counterexample: the headers object maps [x-a] and [X-A] to
    strings; both keys have the canonical form [X-A], and the request keeps
    one value: the one visited last, whichever the order of the
    iteration. *)
Lemma header_value_lost :
  payload_valid payload_headers_clash = true ∧
  (∃ msg hs, decoded payload_headers_clash = Some msg ∧
     Headers (RequestParams msg) = Some hs ∧
     hs !! "x-a" = Some (JString "1") ∧ hs !! "X-A" = Some (JString "2")) ∧
  (∃ job,
     (BuildJob_on URLLite.Parse builder0 id zero_message payload_headers_clash).1
     = Ok job ∧ ReqHeader (req job) = {[ "X-A" := ["2"] ]}) ∧
  (∃ job,
     (BuildJob_on URLLite.Parse builder0 reverse zero_message payload_headers_clash).1
     = Ok job ∧ ReqHeader (req job) = {[ "X-A" := ["1"] ]}).
Proof.
  split; [vm_compute; reflexivity|]. split; [|split].
  - vm_eq (decoded payload_headers_clash) E.
    eexists _, _. split; [exact E|]. cbn [RequestParams Headers].
    split; [reflexivity|]. split; vm_compute; reflexivity.
  - vm_eq (BuildJob_on URLLite.Parse builder0 id zero_message
             payload_headers_clash).1 E.
    eexists. split; [exact E|]. vm_compute; reflexivity.
  - vm_eq (BuildJob_on URLLite.Parse builder0 reverse zero_message
             payload_headers_clash).1 E.
    eexists. split; [exact E|]. vm_compute; reflexivity.
Qed.

(** The headers object of the payload of the specification. *)
Lemma two_headers (hs : gmap string json) :
  map_to_list hs = [("x-a", JString "1"); ("x-b", JNumber "1.45")] →
  hs !! "x-a" = Some (JString "1") ∧ hs !! "x-b" = Some (JNumber "1.45") ∧
  ∀ k1 k2, is_Some (hs !! k1) → is_Some (hs !! k2) →
           CanonicalMIMEHeaderKey k1 = CanonicalMIMEHeaderKey k2 → k1 = k2.
Proof.
  intros Hl.
  assert (∀ k v, hs !! k = Some v →
            (k = "x-a" ∧ v = JString "1") ∨ (k = "x-b" ∧ v = JNumber "1.45")) as Hcases.
  { intros k v Hkv%elem_of_map_to_list. rewrite Hl in Hkv.
    apply elem_of_cons in Hkv as [[= -> ->]|Hkv]; [by left|].
    apply list_elem_of_singleton in Hkv as [= -> ->]. by right. }
  split_and!.
  - apply elem_of_map_to_list. rewrite Hl. by left.
  - apply elem_of_map_to_list. rewrite Hl. right. by left.
  - intros k1 k2 [v1 H1] [v2 H2] Hc.
    destruct (Hcases _ _ H1) as [[-> _]|[-> _]],
             (Hcases _ _ H2) as [[-> _]|[-> _]]; try done; by vm_compute in Hc.
Qed.

(** C6, an instance: the payload of the specification. *)
Lemma headers_round_trip_witness :
  range_ok id ∧
  ∃ job,
    (BuildJob_on URLLite.Parse builder0 id zero_message payload_headers).1 = Ok job ∧
    ReqHeader (req job) !! "X-A" = Some ["1"] ∧
    ReqHeader (req job) !! "X-B" = Some ["1.45"].
Proof.
  split; [exact range_ok_id|].
  vm_eq (BuildJob_on URLLite.Parse builder0 id zero_message payload_headers).1 E.
  eexists. split; [exact E|].
  vm_eq (decoded payload_headers) Ed.
  match type of Ed with
  | _ = Some {| RequestParams := {| URI := _; Headers := Some ?m; Body := _;
                                    Method := _ |} |} => set (hs := m) in *
  end.
  assert (map_to_list hs = [("x-a", JString "1"); ("x-b", JNumber "1.45")]) as Hl
    by (vm_compute; reflexivity).
  clearbody hs.
  destruct (two_headers hs Hl) as (Ha & Hb & Huniq).
  split.
  - destruct (headers_round_trip URLLite.Parse builder0 id zero_message
                payload_headers _ _ hs "x-a" (JString "1")
                range_ok_id E Ed eq_refl Ha) as (t & Ht & Hget).
    { intros k' Hk' Hc. apply Huniq; [exact Hk'| |exact Hc]. eexists; exact Ha. }
    destruct Ht as [Ht|Ht]; [injection Ht as <-|discriminate Ht]. exact Hget.
  - destruct (headers_round_trip URLLite.Parse builder0 id zero_message
                payload_headers _ _ hs "x-b" (JNumber "1.45")
                range_ok_id E Ed eq_refl Hb) as (t & Ht & Hget).
    { intros k' Hk' Hc. apply Huniq; [exact Hk'| |exact Hc]. eexists; exact Hb. }
    destruct Ht as [Ht|Ht]; [discriminate Ht|injection Ht as <-]. exact Hget.
Defined.

(* ===================================================================== *)
(** * handler: the pooled message does not carry data between calls *)
(* ===================================================================== *)

(** Without [reset] the decoder would leave in place the fields that the
    payload does not mention: parsing a payload with no body into a message
    that holds a body keeps that body. *)
Lemma parse_keeps_unmentioned_fields :
  let dirty := {| RequestParams := {| URI := "http://old"; Headers := None;
                                      Body := Some (json_text "'secret'");
                                      Method := "POST" |} |} in
  Body (RequestParams (parse dirty payload_empty_method).1)
  = Some (json_text "'secret'") ∧
  Body (RequestParams (parse (reset dirty) payload_empty_method).1) = None.
Proof. split; vm_compute; reflexivity. Qed.

Section MessagePoolClaims.
Context {URL : Type}.
Variable url_Parse : string → option URL.
Implicit Types (h : HTTPJobBuilder) (c : call) (pool : list httpMessage).

(** The result of one call is the result on a new message. *)
Lemma BuildJob_result h c pool :
  (BuildJob url_Parse h c pool).1
  = (BuildJob_on url_Parse h (call_range c) zero_message (call_data c)).1.
Proof.
  unfold BuildJob. destruct (Pool_Get (call_get c) pool) as [msg0 pool'].
  rewrite (BuildJob_on_eq url_Parse h _ msg0), (BuildJob_on_eq url_Parse h _ zero_message).
  done.
Qed.

Lemma BuildJobs_last h cs c pool :
  last (BuildJobs url_Parse h (cs ++ [c]) pool).1
  = Some (BuildJob_on url_Parse h (call_range c) zero_message (call_data c)).1.
Proof.
  revert pool. induction cs as [|c0 cs IH]; intros pool; cbn [app BuildJobs].
  - pose proof (BuildJob_result h c pool) as Hr.
    destruct (BuildJob url_Parse h c pool) as [r pool']. cbn in *. by rewrite Hr.
  - destruct (BuildJob url_Parse h c0 pool) as [r0 pool0].
    specialize (IH pool0).
    destruct (BuildJobs url_Parse h (cs ++ [c]) pool0) as [rs pool1] eqn:E.
    cbn [fst] in *. rewrite last_cons, IH. done.
Qed.

(** C8 (as amended).  Two sequences of calls that end with the same payload,
    visited in the same order by the loop over its headers, end with the
    same result:
    the same job (method, URL, headers, body) or the same error, whatever
    payloads came before, whatever the pool held at first and whichever
    pooled messages the calls were handed. *)
Theorem BuildJob_depends_on_payload h cs cs' c c' pool pool' :
  call_data c = call_data c' →
  call_range c = call_range c' →
  last (BuildJobs url_Parse h (cs ++ [c]) pool).1
  = last (BuildJobs url_Parse h (cs' ++ [c']) pool').1.
Proof. intros Hd Hr. by rewrite !BuildJobs_last, Hd, Hr. Qed.

End MessagePoolClaims.

(** C8, an instance: after a payload with a body and headers, handed the
    message that this call put back, the payload with headers only gives
    the result it gives on its own. *)
Lemma BuildJob_depends_on_payload_witness :
  let first := {| call_get := None; call_range := id; call_data := payload_body_only |} in
  let again := {| call_get := Some 0; call_range := id; call_data := payload_headers |} in
  let alone := {| call_get := None; call_range := id; call_data := payload_headers |} in
  call_data again = call_data alone ∧
  call_range again = call_range alone ∧
  last (BuildJobs URLLite.Parse builder0 ([first] ++ [again]) []).1
  = last (BuildJobs URLLite.Parse builder0 ([] ++ [alone]) []).1.
Proof.
  intros first again alone. split; [done|]. split; [done|].
  apply (BuildJob_depends_on_payload URLLite.Parse builder0 [first] [] again alone);
    reflexivity.
Defined.

(** C8, the counterexample: two calls with the same payload do not give
    the same job.  The headers object holds [x-a] and [X-A]; the loop of
    [buildHeaders] ranges over a Go map, whose order is not fixed, and
    [Header.Set] keeps the value visited last: one call builds a request
    with [X-A: 2], the other a request with [X-A: 1]. *)
Lemma BuildJob_depends_on_iteration_order :
  call_data call_clash_forward = call_data call_clash_backward ∧
  range_ok (call_range call_clash_forward) ∧
  range_ok (call_range call_clash_backward) ∧
  (∃ job job',
     last (BuildJobs URLLite.Parse builder0 [call_clash_forward] []).1
     = Some (Ok job) ∧
     last (BuildJobs URLLite.Parse builder0 [call_clash_backward] []).1
     = Some (Ok job') ∧
     ReqHeader (req job) = {[ "X-A" := ["2"] ]} ∧
     ReqHeader (req job') = {[ "X-A" := ["1"] ]}) ∧
  last (BuildJobs URLLite.Parse builder0 [call_clash_forward] []).1
  ≠ last (BuildJobs URLLite.Parse builder0 [call_clash_backward] []).1.
Proof.
  split; [reflexivity|]. split; [exact range_ok_id|].
  split; [intros l; apply reverse_Permutation|]. split.
  - vm_eq (last (BuildJobs URLLite.Parse builder0 [call_clash_forward] []).1) E.
    vm_eq (last (BuildJobs URLLite.Parse builder0 [call_clash_backward] []).1) E'.
    eexists _, _. split; [exact E|]. split; [exact E'|].
    split; vm_compute; reflexivity.
  - intros Heq.
    apply (f_equal (λ r, match r with
                         | Some (Ok job) => ReqHeader (req job) !! "X-A"
                         | _ => None
                         end)) in Heq.
    vm_compute in Heq. discriminate Heq.
Qed.

(* ===================================================================== *)
(** * consumer/pool.go: the invariant of the pool *)
(* ===================================================================== *)

Module PoolFacts.
Import Pool.

Section WithJob.
Context {J : Type}.
Implicit Types (s : state J) (l : label J) (ws : list (wstate J)).
Implicit Types (p : wstate J → bool).

Lemma count_le p ws : count p ws ≤ length ws.
Proof. induction ws as [|st ws IH]; simpl; [lia|]. destruct (p st); lia. Qed.

Lemma count_all p ws :
  count p ws = length ws → ∀ w st, ws !! w = Some st → p st = true.
Proof.
  induction ws as [|st0 ws IH]; intros H w st Hw; [done|]. simpl in H.
  pose proof (count_le p ws).
  destruct w as [|w]; simpl in Hw.
  - injection Hw as ->. destruct (p st); [done|lia].
  - apply (IH ltac:(destruct (p st0); lia) w st Hw).
Qed.

Lemma count_disjoint p q ws :
  (∀ st, p st = true → q st = false) →
  count p ws + count q ws ≤ length ws.
Proof.
  intros Hpq. induction ws as [|st ws IH]; simpl; [lia|].
  specialize (Hpq st). destruct (p st), (q st); try lia.
  all: by specialize (Hpq eq_refl).
Qed.

(** The count after one worker changes its state. *)
Lemma count_insert p ws w st st' :
  ws !! w = Some st →
  count p (<[w := st']> ws) + (if p st then 1 else 0)
  = count p ws + (if p st' then 1 else 0).
Proof.
  revert w. induction ws as [|st0 ws IH]; intros w Hw; [done|].
  destruct w as [|w]; simpl in *.
  - injection Hw as ->. destruct (p st), (p st'); lia.
  - specialize (IH w Hw). destruct (p st0); lia.
Qed.

Lemma length_executing s : length (executing s) = count is_exec (workers s).
Proof.
  unfold executing. generalize 0 as i.
  induction (workers s) as [|st ws IH]; intros i; [done|].
  destruct st; cbn [executing_from count is_exec length]; by rewrite ?IH.
Qed.

Lemma count_replicate p n st : p st = false → count p (replicate n st) = 0.
Proof. intros Hp. induction n as [|n IH]; simpl; [done|]. by rewrite Hp, IH. Qed.

Lemma Inv_NewPool n : Inv n (@NewPool J n).
Proof.
  split; simpl.
  - apply length_replicate.
  - apply NoDup_nil_2.
  - intros w Hw. by apply elem_of_nil in Hw.
  - done.
  - by rewrite count_replicate.
  - unfold phase_ok. simpl. by rewrite !count_replicate.
Qed.

Lemma lookup_insert_same ws w st st0 :
  ws !! w = Some st0 → <[w := st]> ws !! w = Some st.
Proof. intros H. apply list_lookup_insert_eq. by eapply lookup_lt_Some. Qed.

(** The four counts after worker [w] goes from [st] to [st']. *)
Lemma counts_insert ws w st st' :
  ws !! w = Some st →
  count is_select (<[w := st']> ws) + (if is_select st then 1 else 0)
  = count is_select ws + (if is_select st' then 1 else 0) ∧
  count is_stopped (<[w := st']> ws) + (if is_stopped st then 1 else 0)
  = count is_stopped ws + (if is_stopped st' then 1 else 0) ∧
  count is_ack (<[w := st']> ws) + (if is_ack st then 1 else 0)
  = count is_ack ws + (if is_ack st' then 1 else 0).
Proof. intros H. split_and!; by apply count_insert. Qed.

Lemma is_WSelect_true (o : option (wstate J)) :
  is_WSelect o = true → o = Some WSelect.
Proof. by destruct o as [[]|]. Qed.

Lemma is_WAck_true (o : option (wstate J)) : is_WAck o = true → o = Some WAck.
Proof. by destruct o as [[]|]. Qed.

Lemma idle_insert ws (pool : list nat) w st :
  (∀ w0, w0 ∈ pool → ws !! w0 = Some WSelect) →
  w ∉ pool →
  ∀ w0, w0 ∈ pool → <[w := st]> ws !! w0 = Some WSelect.
Proof.
  intros Hidle Hw w0 Hin. rewrite list_lookup_insert_ne; [by apply Hidle|].
  by intros ->.
Qed.

Lemma not_in_pool ws (pool : list nat) w st :
  (∀ w0, w0 ∈ pool → ws !! w0 = Some WSelect) →
  ws !! w = Some st → is_select st = false → w ∉ pool.
Proof. intros Hidle Hw Hst Hin. apply Hidle in Hin. by simplify_eq. Qed.

Local Ltac counts Hw st' :=
  let H := fresh in
  pose proof (counts_insert _ _ _ st' Hw) as H; simpl in H;
  destruct H as (? & ? & ?).

(** A worker that is neither stopping nor stopped changes its state:
    the stop loop stands where it stood. *)
Lemma phase_ok_worker n s w st st' :
  workers s !! w = Some st →
  is_stopped st = false → is_stopped st' = false →
  is_ack st = false → is_ack st' = false →
  phase_ok n s → phase_ok n (set_worker w st' s).
Proof.
  intros Hw Hs Hs' Ha Ha'. unfold phase_ok. simpl.
  pose proof (counts_insert _ _ _ st' Hw) as (_ & H1 & H2).
  rewrite Hs, Hs' in H1. rewrite Ha, Ha' in H2.
  assert (count is_stopped (<[w:=st']> (workers s)) = count is_stopped (workers s))
    as -> by lia.
  assert (count is_ack (<[w:=st']> (workers s)) = count is_ack (workers s))
    as -> by lia.
  destruct (disp s); try done.
  intros (? & ? & Hw0 & ? & ?). split_and!; try done.
  rewrite list_lookup_insert_ne; [done|]. intros ->. by simplify_eq.
Qed.

Local Ltac split_inv :=
  split; simpl; rewrite ?length_insert; unfold phase_ok; simpl; try done.

Local Ltac use_disp :=
  unfold phase_ok in *;
  repeat match goal with
         | H : disp _ = _ |- _ => rewrite H in *; clear H
         | H : workerPool _ = _ :: _ |- _ => rewrite H in *; clear H
         end.

Lemma Inv_step n q l s s' : Inv n s → step n q l s = Some s' → Inv n s'.
Proof.
  intros HI Hstep.
  unfold step in Hstep. destruct (panicked s); [done|].
  destruct l; repeat case_match; simplify_eq;
    repeat match goal with
           | H : is_WSelect _ = true |- _ => apply is_WSelect_true in H
           | H : is_WAck _ = true |- _ => apply is_WAck_true in H
           end;
    destruct HI as [Hlen Hnd Hidle Hheld Hcnt Hph].
  - (* LAddJob, buffered *)
    by split.
  - (* LAddJob, handed to the dispatcher *)
    use_disp. split_inv.
  - (* LRegister *)
    match goal with H : workers s !! w = Some WRegister |- _ => rename H into Hw end.
    assert (w ∉ workerPool s) as Hnin by exact (not_in_pool _ _ _ _ Hidle Hw eq_refl).
    counts Hw (@WSelect J).
    split; simpl; rewrite ?length_insert; try done.
    + apply NoDup_app. split_and!; [done| |apply NoDup_singleton].
      intros x Hx ->%list_elem_of_singleton. done.
    + intros w0 [Hin| ->%list_elem_of_singleton]%elem_of_app.
      * by apply (idle_insert _ (workerPool s)).
      * by eapply lookup_insert_same.
    + intros w0 Hh. destruct (Hheld w0 Hh) as [Hs Hn]. split.
      * rewrite list_lookup_insert_ne; [done|]. intros ->. by simplify_eq.
      * intros [?| ->%list_elem_of_singleton]%elem_of_app; [done|]. by simplify_eq.
    + rewrite length_app. simpl. lia.
    + by apply (phase_ok_worker n s w _ _ Hw).
  - (* LTakeJob *)
    use_disp. split_inv.
  - (* LTakeWorker *)
    use_disp. apply NoDup_cons in Hnd as [Hn0 Hnd].
    split; simpl; try done.
    + intros w Hin. apply Hidle. by right.
    + intros w [= <-]. split; [|done]. apply Hidle. by left.
    + unfold held01 in *; simpl in *; lia.
  - (* LHandOff *)
    use_disp. destruct (Hheld w eq_refl) as [Hw Hnin].
    counts Hw (WExec job).
    split; simpl; rewrite ?length_insert; try done.
    + by apply idle_insert.
    + unfold held01 in *; simpl in *; lia.
    + unfold phase_ok. simpl. destruct_and?. split_and!; try done; lia.
  - (* LFinish *)
    match goal with H : workers s !! w = Some (WExec _) |- _ => rename H into Hw end.
    assert (w ∉ workerPool s) as Hnin by exact (not_in_pool _ _ _ _ Hidle Hw eq_refl).
    counts Hw (@WRegister J).
    split; simpl; rewrite ?length_insert; try done.
    + by apply idle_insert.
    + intros w0 Hh. destruct (Hheld w0 Hh) as [Hs Hn]. split; [|done].
      rewrite list_lookup_insert_ne; [done|]. intros ->. by simplify_eq.
    + lia.
    + by apply (phase_ok_worker n s w _ _ Hw).
  - (* LPanic *)
    by split.
  - (* LRelease *)
    use_disp. split; simpl; try done. unfold phase_ok. simpl. by destruct_and?.
  - (* LStopTake *)
    use_disp. apply NoDup_cons in Hnd as [Hn0 Hnd].
    split; simpl; try done.
    + intros w Hin. apply Hidle. by right.
    + intros w [= <-]. split; [|done]. apply Hidle. by left.
    + unfold held01 in *; simpl in *; lia.
    + unfold phase_ok. simpl. by destruct_and?.
  - (* LStopSend *)
    use_disp. destruct (Hheld w eq_refl) as [Hw Hnin].
    counts Hw (@WAck J).
    split; simpl; rewrite ?length_insert; try done.
    + by apply idle_insert.
    + unfold held01 in *; simpl in *; lia.
    + unfold phase_ok. simpl. destruct_and?. split_and!; try done; try lia.
      by eapply lookup_insert_same.
  - (* LStopAck *)
    unfold phase_ok in Hph. use_disp. destruct Hph as (Hst & Hack & Hw & Hi & Hr).
    assert (w ∉ workerPool s) as Hnin by exact (not_in_pool _ _ _ _ Hidle Hw eq_refl).
    counts Hw (@WStopped J).
    split; simpl; rewrite ?length_insert; try done.
    + by apply idle_insert.
    + unfold held01 in *; simpl in *; lia.
    + unfold phase_ok. simpl. split_and!; try done; lia.
  - (* LStopExit *)
    use_disp. split; simpl; try done. unfold phase_ok. simpl.
    destruct Hph as (Hst & _ & Hr). split; [|done].
    pose proof (count_le is_stopped (workers s)). lia.
  - (* LReply *)
    use_disp. split; simpl; try done. unfold phase_ok. simpl. by destruct_and?.
Qed.

Lemma Inv_run n q ls s s' : Inv n s → run n q ls s = Some s' → Inv n s'.
Proof.
  revert s. induction ls as [|l ls IH]; intros s HI Hrun; simpl in Hrun.
  - by simplify_eq.
  - destruct (step n q l s) as [s1|] eqn:Hs; [|done].
    eapply IH; [|exact Hrun]. by eapply Inv_step.
Qed.

Lemma Inv_reachable n q s : reachable n q s → Inv n s.
Proof. intros [ls Hrun]. eapply Inv_run; [apply Inv_NewPool|exact Hrun]. Qed.

(** How a step changes the state of a worker. *)
Lemma step_worker n q l s s' w st :
  step n q l s = Some s' →
  workers s' !! w = Some st →
  workers s !! w = Some st ∨
  (l = LRegister w ∧ st = WSelect ∧ workers s !! w = Some WRegister) ∨
  (l = LHandOff ∧ (∃ job, st = WExec job ∧ disp s = DSend job w) ∧
   workers s !! w = Some WSelect) ∨
  (l = LFinish w ∧ st = WRegister ∧ ∃ j, workers s !! w = Some (WExec (Some j))) ∨
  (l = LStopSend ∧ st = WAck ∧ workers s !! w = Some WSelect ∧
   ∃ i, disp s = DStopSend i w ∧ disp s' = DStopWait i w) ∨
  (l = LStopAck ∧ st = WStopped ∧ workers s !! w = Some WAck ∧
   ∃ i, disp s = DStopWait i w ∧ disp s' = DStop (S i)).
Proof.
  intros Hstep Hw. unfold step in Hstep. destruct (panicked s); [done|].
  destruct l; repeat case_match; simplify_eq; simpl in Hw; try by left.
  all: repeat match goal with
           | H : is_WSelect _ = true |- _ => apply is_WSelect_true in H
           | H : is_WAck _ = true |- _ => apply is_WAck_true in H
           end.
  all: apply list_lookup_insert_Some in Hw as [(<- & <- & _)|[? ?]]; [|by left].
  all: right; eauto 12.
Qed.

End WithJob.
End PoolFacts.

(* ===================================================================== *)
(** * consumer/pool.go: bounded concurrency and the drain of Release *)
(* ===================================================================== *)

Section WorkerPoolClaims.
Import Pool PoolFacts.
Context {J : Type}.
Implicit Types (s : state J) (l : label J).

(** C4.  In every state that a pool of [n] workers reaches, whatever the
    jobs submitted, the workers executing a job, the workers in the idle
    registry and the worker that the dispatcher holds are together at most
    [n]: at most [n] jobs execute at once.  A worker is in the registry at
    most once and is idle while it is there.  A worker starts a job only by
    the hand-off from the dispatcher, which holds this worker then, out of
    the registry; the dispatcher gets a worker to hand a job to only by
    taking the first one out of the registry, and cannot take one while
    the registry is empty. *)
Theorem bounded_concurrency n q s :
  reachable n q s →
  length (executing s) + length (workerPool s) + held01 (disp s) ≤ n ∧
  NoDup (workerPool s) ∧
  (∀ w, w ∈ workerPool s → workers s !! w = Some WSelect) ∧
  (∀ l s' w job,
     step n q l s = Some s' → workers s' !! w = Some (WExec job) →
     workers s !! w = Some (WExec job) ∨
     (l = LHandOff ∧ disp s = DSend job w ∧
      workers s !! w = Some WSelect ∧ (w ∉ workerPool s))) ∧
  (∀ l s' job w,
     step n q l s = Some s' → disp s' = DSend job w →
     disp s = DSend job w ∨
     (l = LTakeWorker ∧ disp s = DHaveJob job ∧
      workerPool s = w :: workerPool s')) ∧
  (workerPool s = [] → step n q LTakeWorker s = None).
Proof.
  intros [Hlen Hnd Hidle Hheld Hcnt Hph]%Inv_reachable. split_and!; try done.
  - rewrite length_executing.
    pose proof (count_disjoint is_exec is_select (workers s)) as Hd.
    rewrite <- Hlen. rewrite <- Nat.add_assoc, Hcnt. apply Hd. by intros [].
  - intros l s' w job Hstep Hw.
    destruct (step_worker _ _ _ _ _ _ _ Hstep Hw)
      as [?|[(_ & ? & _)|[(-> & (job' & [= <-] & Hd) & Hsel)|[(_ & ? & _)|
          [(_ & ? & _)|(_ & ? & _)]]]]]; try done; [by left|].
    right. split_and!; try done. apply Hheld. by rewrite Hd.
  - intros l s' job w Hstep Hd. unfold step in Hstep.
    destruct (panicked s); [done|].
    destruct l; repeat case_match; simplify_eq; simpl in Hd; simplify_eq;
      try (by left); try congruence.
    right. by split_and!.
  - intros Hp. unfold step. destruct (panicked s); [done|].
    rewrite Hp. by destruct (disp s).
Qed.

(** C5.  While the stop loop runs ([Release] is waiting), its index is the
    number of workers that have stopped; it stops one worker at a time: it
    holds a worker that it took idle from the registry, and waits for the
    reply of that worker before the index moves.  A worker that executes a
    job stays in it until the job returns, and gets a stop signal only
    while it is idle, from the stop loop; it stops only by replying to that
    signal.  When [Release] has returned the dispatcher has returned too,
    all the [n] workers have returned, and nothing in the pool can take a
    step but a send into a job queue that still has room. *)
Theorem release_drains n q s :
  reachable n q s →
  (∀ i, disp s = DStop i →
        count is_stopped (workers s) = i ∧ count is_ack (workers s) = 0 ∧
        releaser s = RWaiting) ∧
  (∀ i w, disp s = DStopSend i w →
          count is_stopped (workers s) = i ∧ i < n ∧
          workers s !! w = Some WSelect ∧ (w ∉ workerPool s) ∧
          releaser s = RWaiting) ∧
  (∀ i w, disp s = DStopWait i w →
          count is_stopped (workers s) = i ∧ i < n ∧
          workers s !! w = Some WAck ∧ count is_ack (workers s) = 1 ∧
          releaser s = RWaiting) ∧
  (∀ l s' w job,
     step n q l s = Some s' → workers s !! w = Some (WExec job) →
     workers s' !! w = Some (WExec job) ∨
     (l = LFinish w ∧ workers s' !! w = Some WRegister)) ∧
  (∀ l s' w,
     step n q l s = Some s' → workers s' !! w = Some WAck →
     workers s !! w = Some WAck ∨
     (l = LStopSend ∧ workers s !! w = Some WSelect ∧
      ∃ i, disp s = DStopSend i w ∧ disp s' = DStopWait i w)) ∧
  (∀ l s' w,
     step n q l s = Some s' → workers s' !! w = Some WStopped →
     workers s !! w = Some WStopped ∨
     (l = LStopAck ∧ workers s !! w = Some WAck ∧
      ∃ i, disp s = DStopWait i w ∧ disp s' = DStop (S i))) ∧
  (releaser s = RReturned →
     disp s = DDone ∧ length (workers s) = n ∧
     (∀ w st, workers s !! w = Some st → st = WStopped) ∧
     (∀ l s', step n q l s = Some s' → ∃ job, l = LAddJob job)).
Proof.
  intros HI%Inv_reachable.
  pose proof HI as [Hlen Hnd Hidle Hheld Hcnt Hph]. unfold phase_ok in Hph.
  split_and!.
  - intros i Hd. rewrite Hd in Hph. by destruct_and?.
  - intros i w Hd. rewrite Hd in Hph, Hheld.
    destruct (Hheld w eq_refl). by destruct_and?.
  - intros i w Hd. rewrite Hd in Hph. by destruct_and?.
  - clear HI Hph Hheld Hcnt.
    intros l s' w job Hstep Hw. unfold step in Hstep.
    destruct (panicked s); [done|].
    destruct l; repeat case_match; simplify_eq; simpl; try (by left).
    all: repeat match goal with
           | H : is_WSelect _ = true |- _ => apply is_WSelect_true in H
           | H : is_WAck _ = true |- _ => apply is_WAck_true in H
           end.
    all: match goal with
         | |- context [<[?w0 := _]> _ !! ?w1] => destruct (decide (w0 = w1)) as [->|]
         end; simplify_eq.
    all: try (left; by rewrite list_lookup_insert_ne).
    all: right; split; [done|]; by eapply lookup_insert_same.
  - intros l s' w Hstep Hw.
    destruct (step_worker _ _ _ _ _ _ _ Hstep Hw)
      as [?|[(_ & ? & _)|[(_ & (? & ? & _) & _)|[(_ & ? & _)|
          [(-> & _ & ? & ?)|(_ & ? & _)]]]]]; try done; [by left|].
    right. by split_and!.
  - intros l s' w Hstep Hw.
    destruct (step_worker _ _ _ _ _ _ _ Hstep Hw)
      as [?|[(_ & ? & _)|[(_ & (? & ? & _) & _)|[(_ & ? & _)|
          [(_ & ? & _)|(-> & _ & ? & ?)]]]]]; try done; [by left|].
    right. by split_and!.
  - intros Hr.
    assert (disp s = DDone) as Hd.
    { destruct (disp s); destruct_and?; congruence. }
    rewrite Hd in Hph. destruct Hph as [Hall _]. rewrite <- Hlen in Hall.
    assert (∀ w st, workers s !! w = Some st → st = WStopped) as Hstopped.
    { intros w st Hw. pose proof (count_all _ _ Hall w st Hw). by destruct st. }
    split_and!; try done. clear HI Hheld Hcnt Hall.
    intros l s' Hstep. unfold step in Hstep. destruct (panicked s); [done|].
    destruct l; try (by eexists); exfalso; repeat case_match; simplify_eq;
      repeat match goal with
             | H : workers s !! _ = Some _ |- _ => apply Hstopped in H
             end; congruence.
Qed.

End WorkerPoolClaims.

(** C4, an instance: two workers and a burst of three jobs; two jobs
    execute and the dispatcher waits with the third for an idle worker. *)
Lemma bounded_concurrency_witness :
  Pool.reachable 2 3 Pool.state_burst ∧
  length (Pool.executing Pool.state_burst) = 2 ∧
  length (Pool.executing Pool.state_burst)
  + length (Pool.workerPool Pool.state_burst)
  + Pool.held01 (Pool.disp Pool.state_burst) ≤ 2 ∧
  Pool.step 2 3 Pool.LTakeWorker Pool.state_burst = None.
Proof.
  assert (Pool.reachable 2 3 Pool.state_burst) as Hr.
  { exists Pool.schedule_burst. reflexivity. }
  split; [exact Hr|]. split; [reflexivity|].
  destruct (bounded_concurrency 2 3 Pool.state_burst Hr) as (Hb & _ & _ & _ & _ & Hn).
  split; [exact Hb|]. apply Hn. reflexivity.
Defined.

(** C5, an instance: Release is called while worker 0 executes a job; it
    returns after the job has returned and both workers have stopped. *)
Lemma release_drains_witness :
  Pool.reachable 2 3 Pool.state_drained ∧
  Pool.disp Pool.state_drained = Pool.DDone ∧
  length (Pool.workers Pool.state_drained) = 2 ∧
  (∀ w st, Pool.workers Pool.state_drained !! w = Some st → st = Pool.WStopped).
Proof.
  assert (Pool.reachable 2 3 Pool.state_drained) as Hr.
  { exists Pool.schedule_drain. reflexivity. }
  split; [exact Hr|].
  destruct (release_drains 2 3 Pool.state_drained Hr) as (_ & _ & _ & _ & _ & _ & H).
  destruct (H eq_refl) as (Hd & Hl & Hs & _). by split_and!.
Defined.

(* ===================================================================== *)
(** * consumer: New *)
(* ===================================================================== *)

Lemma declare_all_qos b cfg :
  let applied := if (Prefetch_Count cfg =? 0)%Z then 3%Z else Prefetch_Count cfg in
  qos_counts (declare_all b cfg).1.1 = [applied] ∧
  AMQP.Qos applied 0 (Prefetch_Global cfg) ∈ (declare_all b cfg).1.1 ∧
  Prefetch_Count (declare_all b cfg).1.2 = applied.
Proof.
  unfold declare_all.
  destruct (Prefetch_Count cfg =? 0)%Z eqn:E; simpl;
    repeat (case_match; simpl); split_and!; try done; try (by left).
Qed.

(** C9.  [New] sets the QoS of the channel once, when the connection and
    the channel are open, and not before or otherwise: with the prefetch
    count 3 when the configured count is 0, with the configured count
    when it is not 0; the size is 0 and the global flag the configured
    one.  The configuration that the consumer keeps holds the count that
    was applied. *)
Theorem New_prefetch_count (b : AMQP.broker) (cfg : Config) :
  let applied := if (Prefetch_Count cfg =? 0)%Z then 3%Z else Prefetch_Count cfg in
  let opened := negb (b (AMQP.Dial (dial_uri cfg))) && negb (b AMQP.OpenChannel) in
  qos_counts (New b cfg).1.1 = (if opened then [applied] else []) ∧
  (if opened
   then AMQP.Qos applied 0 (Prefetch_Global cfg) ∈ (New b cfg).1.1 ∧
        Prefetch_Count (New b cfg).1.2 = applied
   else (New b cfg).1.2 = cfg) ∧
  (Prefetch_Count cfg = 0%Z → applied = 3%Z) ∧
  (Prefetch_Count cfg ≠ 0%Z → applied = Prefetch_Count cfg).
Proof.
  intros applied opened. subst opened. unfold New.
  pose proof (declare_all_qos b cfg) as (Hq & Hin & Hc). fold applied in Hq, Hin, Hc.
  destruct (b (AMQP.Dial (dial_uri cfg))); simpl.
  { split_and!; try done; subst applied.
    - by intros ->.
    - intros H. by apply Z.eqb_neq in H as ->. }
  destruct (b AMQP.OpenChannel); simpl.
  { split_and!; try done; subst applied.
    - by intros ->.
    - intros H. by apply Z.eqb_neq in H as ->. }
  destruct (declare_all b cfg) as [[calls cfg'] err]. simpl in *.
  split_and!; try done; subst applied.
  - by do 2 right.
  - by intros ->.
  - intros H. by apply Z.eqb_neq in H as ->.
Qed.

(* ===================================================================== *)
(** * consumer: Consume with the worker pool *)
(* ===================================================================== *)

Module ConsumerFacts.
Import Consumer.

Section WithJobBuilder.
Context {Job Err : Type}.
Variable BuildJob : bytes → option Job * option Err.
Implicit Types (c : Consumer) (s : state Job Err) (i : input).

Lemma Consume_Inv_init : Inv (@init Job Err).
Proof. by split. Qed.

Lemma loop_body_events c d :
  Forall (λ e : event Job Err, is_deferred e = false ∧ is_ack e = false)
         (loop_body BuildJob c d).1.
Proof.
  unfold loop_body. destruct (BuildJob (AMQP.Body d)) as [job [e|]];
    destruct (DebugLogger c); simpl; repeat constructor.
Qed.

Lemma Consume_Inv_step c i s s' : Inv s → step BuildJob c i s = Some s' → Inv s'.
Proof.
  intros [Hf Hw Hp Ht] Hstep. unfold step in Hstep.
  destruct (at_pc s) eqn:Hpc, i as [[]|d| | | |]; simplify_eq/=;
    try (split; simpl; try done; apply Forall_app; split; [done|];
         repeat constructor; done).
  - pose proof (loop_body_events c d) as Hl.
    destruct (loop_body BuildJob c d) as [evs job]. simplify_eq/=.
    split; simpl; try done. by apply Forall_app.
  - rewrite Hw in Hstep. simplify_eq/=.
    split; simpl; try done. apply Forall_app. split; [done|]. repeat constructor.
  - rewrite Hf in Hstep. done.
Qed.

Lemma Consume_Inv_reachable c s : reachable BuildJob c s → Inv s.
Proof.
  intros [ins Hrun]. revert Hrun. generalize (Consume_Inv_init). generalize (@init Job Err).
  induction ins as [|i ins IH]; intros s0 HI Hrun; simpl in Hrun.
  - by simplify_eq.
  - destruct (step BuildJob c i s0) as [s1|] eqn:Hs; [|done].
    eapply IH; [|exact Hrun]. by eapply Consume_Inv_step.
Qed.

(** C2, the behaviour of the code.  When [BuildJob] returns a nil job and
    an error for the body of a delivery, the loop logs the error and goes
    on to [pool.AddJob(job)]: the nil job is sent on the job queue. *)
Theorem failed_build_is_enqueued c s (d : AMQP.Delivery) (e : Err) :
  at_pc s = PcLoop →
  BuildJob (AMQP.Body d) = (None, Some e) →
  ∃ s1 s2,
    step BuildJob c (InDelivery d) s = Some s1 ∧
    at_pc s1 = PcAddJob None ∧
    step BuildJob c InAddJob s1 = Some s2 ∧
    at_pc s2 = PcLoop ∧
    trace s2 = trace s
               ++ (if DebugLogger c
                   then [EvDebug "received message: %v" (AMQP.Body d)] else [])
               ++ [EvError "could not build job: %v" e; EvAddJob None].
Proof.
  intros Hpc Hb. unfold step. rewrite Hpc. unfold loop_body. rewrite Hb.
  eexists _, _. split; [reflexivity|]. simpl. split; [done|].
  split; [reflexivity|]. simpl. split; [done|].
  rewrite <- !app_assoc. done.
Qed.

End WithJobBuilder.
End ConsumerFacts.

(** C2, at the failing input: a delivery whose body is not JSON, with the
    HTTP job builder.  The nil job is enqueued; a worker that takes a nil
    job panics. *)
Lemma failed_build_is_enqueued_witness :
  http_BuildJob (AMQP.Body delivery_bad)
  = (None, Some (ErrWrap "could not parse message" (ErrDecode SyntaxError))) ∧
  (∃ s0 s2,
     Consumer.run http_BuildJob consumer0 [Consumer.InConsume false] Consumer.init
     = Some s0 ∧
     Consumer.at_pc s0 = Consumer.PcLoop ∧
     Consumer.run http_BuildJob consumer0
       [Consumer.InDelivery delivery_bad; Consumer.InAddJob] s0 = Some s2 ∧
     Consumer.trace s2
     = Consumer.trace s0
       ++ [Consumer.EvError "could not build job: %v"
             (ErrWrap "could not parse message" (ErrDecode SyntaxError));
           Consumer.EvAddJob None]) ∧
  (∃ s, Pool.run 1 1 Pool.schedule_nil_job (Pool.NewPool 1) = Some s ∧
        Pool.panicked s = true).
Proof.
  assert (http_BuildJob (AMQP.Body delivery_bad)
          = (None, Some (ErrWrap "could not parse message" (ErrDecode SyntaxError))))
    as Hb by (vm_compute; reflexivity).
  split; [exact Hb|]. split.
  - vm_eq (Consumer.run http_BuildJob consumer0 [Consumer.InConsume false]
             Consumer.init) E0.
    match type of E0 with
    | _ = Some ?st =>
        destruct (ConsumerFacts.failed_build_is_enqueued http_BuildJob consumer0
                    st delivery_bad _ eq_refl Hb)
          as (s1 & s2 & H1 & _ & H2 & _ & Ht);
        exists st, s2
    end.
    split; [exact E0|]. split; [reflexivity|].
    cbn [Consumer.run]. rewrite H1, H2. split; [reflexivity|exact Ht].
  - eexists. split; reflexivity.
Defined.

(* ===================================================================== *)
(** * consumer: Consume with one goroutine per delivery *)
(* ===================================================================== *)

Module ConsumerV1Facts.
Import ConsumerV1.

Section WithHandler.
Context {Err : Type}.
Implicit Types (c : Consumer) (s : state Err) (i : input Err).
Implicit Types (h : handling Err) (e : event Err) (tr : list (gid * event Err)).

(** The tags of the handlers are below the tag of the next delivery. *)
Lemma handlers_Inv_tag_lt c s g e :
  Inv c s → (g, e) ∈ trace s →
  match g with GMain => True | GHandler t => (t < next_tag s)%N end.
Proof.
  intros [_ _ Hn Hh Ht] Hin. pose proof (Ht g e Hin) as Hg.
  destruct g as [|t]; [done|]. destruct Hg as (k & h & rest & Hk & <-).
  destruct (Hh k h rest Hk) as [-> _]. rewrite Hn.
  apply lookup_lt_Some in Hk. lia.
Qed.

Lemma events_of_app t tr tr' :
  events_of t (tr ++ tr') = events_of t tr ++ events_of t tr'.
Proof. unfold events_of. apply omap_app. Qed.

Lemma events_of_main t (evs : list (event Err)) :
  events_of t ((λ e, (GMain, e)) <$> evs) = [].
Proof. induction evs as [|e evs IH]; [done|]. exact IH. Qed.

Lemma events_of_fresh t tr :
  (∀ g e, (g, e) ∈ tr → match g with GMain => True | GHandler t' => t' ≠ t end) →
  events_of t tr = [].
Proof.
  induction tr as [|[g e] tr IH]; intros H; [done|].
  unfold events_of in *. cbn [omap list_omap fst snd].
  assert ((g, e) ∈ (g, e) :: tr) as Hin by left.
  pose proof (H g e Hin) as Hg.
  rewrite IH by (intros g' e' Hin'; apply (H g' e'); by right).
  destruct g as [|t']; [done|]. by apply N.eqb_neq in Hg as ->.
Qed.

Lemma lookup_insert_same_list {A} (l : list A) k x y :
  l !! k = Some x → <[k := y]> l !! k = Some y.
Proof. intros H. apply list_lookup_insert_eq. by eapply lookup_lt_Some. Qed.

Lemma elem_of_events_of t e tr : (GHandler t, e) ∈ tr → e ∈ events_of t tr.
Proof.
  intros Hin. unfold events_of. apply list_elem_of_omap.
  exists (GHandler t, e). split; [done|]. simpl. by rewrite N.eqb_refl.
Qed.

Lemma handlers_Inv_init c : Inv c (@init Err).
Proof.
  split; try done.
  intros g e Hin. by apply elem_of_nil in Hin.
Qed.

(** The main goroutine adds events of its own: the handlers stand where
    they stood. *)
Lemma handlers_Inv_main c s p (evs : list (event Err)) :
  Inv c s → p ≠ PcWait → p ≠ PcReturned →
  Forall (λ e, main_event e = true) evs →
  Inv c {| at_pc := p; trace := trace s ++ ((λ e, (GMain, e)) <$> evs);
           forever := forever s; next_tag := next_tag s;
           handlers := handlers s; unacked := unacked s |}.
Proof.
  intros [Hf Hp Hn Hh Ht] Hp1 Hp2 Hevs. split; simpl; try done.
  - intros k h rest Hk. destruct (Hh k h rest Hk) as [H1 H2]. split; [done|].
    by rewrite events_of_app, events_of_main, app_nil_r.
  - intros g e [Hin|Hin]%elem_of_app; [by apply (Ht g e)|].
    apply list_elem_of_fmap in Hin as (e' & [= -> ->] & Hin).
    rewrite Forall_forall in Hevs. by apply Hevs.
Qed.

Lemma handlers_Inv_step c i s s' : Inv c s → step c i s = Some s' → Inv c s'.
Proof.
  intros HI Hstep. pose proof HI as [Hf Hp Hn Hh Ht].
  destruct i as [failed|body hres ares|k| |]; simpl in Hstep.
  - (* InConsume *)
    destruct (at_pc s); try done. destruct failed; simplify_eq.
    + apply (handlers_Inv_main c s PcExited
               [EvInfo "registering consumer... "; EvCall (consume_call c);
                EvFatal "failed to register a consumer: %s"]); try done.
      repeat constructor.
    + apply (handlers_Inv_main c s PcForever
               [EvInfo "registering consumer... "; EvCall (consume_call c);
                EvInfo "succeeded registering consumer."; EvCall AMQP.NotifyClose;
                EvGo "ConnectionCloseHandler"; EvGo "range msgs";
                EvInfo "waiting for messages..."]); try done.
      repeat constructor.
  - (* InDelivery *)
    destruct (alive (at_pc s)); simplify_eq. split; simpl; try done.
    + rewrite length_app. simpl. rewrite Hn. lia.
    + intros k h rest [Hk|[Hk Heq]]%lookup_app_Some.
      * by apply Hh.
      * destruct (k - length (handlers s)) as [|?] eqn:Ek; simplify_eq/=.
        unfold tag_of. simpl. split.
        { rewrite Hn. f_equal. lia. }
        rewrite events_of_fresh; [done|].
        intros g e Hin. pose proof (handlers_Inv_tag_lt c s g e HI Hin) as Hg.
        destruct g; [done|]. lia.
    + intros g e Hin. pose proof (Ht g e Hin) as Hg. destruct g; [done|].
      destruct Hg as (k & h & rest & Hk & Htag). exists k, h, rest.
      split; [|done]. by apply lookup_app_l_Some.
  - (* InHandler *)
    destruct (alive (at_pc s)); [|done].
    destruct (handlers s !! k) as [[h [|e rest]]|] eqn:Hk; simplify_eq.
    destruct (Hh k h _ Hk) as [Htag Hev].
    split; simpl; try done.
    + by rewrite length_insert.
    + intros k' h' rest' Hk'.
      apply list_lookup_insert_Some in Hk' as [(<- & [= <- <-] & _)|[Hne Hk']].
      * split; [done|]. rewrite events_of_app. unfold events_of at 2.
        cbn [omap list_omap fst snd]. fold (tag_of h). rewrite N.eqb_refl.
        by rewrite <- app_assoc.
      * destruct (Hh k' h' rest' Hk') as [Htag' Hev']. split; [done|].
        rewrite events_of_app. unfold events_of at 2.
        cbn [omap list_omap fst snd]. fold (tag_of h).
        assert (tag_of h ≠ tag_of h') as Hd by (rewrite Htag, Htag'; lia).
        apply N.eqb_neq in Hd as ->. by rewrite app_nil_r.
    + intros g e' [Hin|Hin%list_elem_of_singleton]%elem_of_app.
      * pose proof (Ht g e' Hin) as Hg. destruct g as [|t]; [done|].
        destruct Hg as (k' & h' & rest' & Hk' & Ht').
        destruct (decide (k = k')) as [<-|Hne].
        -- simplify_eq. exists k, h, rest. split; [|done].
           by eapply lookup_insert_same_list.
        -- exists k', h', rest'. split; [|done].
           by rewrite list_lookup_insert_ne.
      * injection Hin as -> ->. exists k, h, rest. split; [|done].
        by eapply lookup_insert_same_list.
  - (* InRun *)
    destruct (at_pc s) eqn:Hpc; try done.
    + rewrite Hf in Hstep. done.
    + by destruct Hp.
  - (* InConnClosed *)
    destruct (alive (at_pc s)); simplify_eq.
    apply (handlers_Inv_main c s PcExited [EvFatal "connection closed: %v"]); try done.
    repeat constructor.
Qed.

Lemma handlers_Inv_reachable c s : reachable c s → Inv c s.
Proof.
  intros [ins Hrun]. revert Hrun. generalize (handlers_Inv_init c). generalize (@init Err).
  induction ins as [|i ins IH]; intros s0 HI Hrun; simpl in Hrun.
  - by simplify_eq.
  - destruct (step c i s0) as [s1|] eqn:Hs; [|done].
    eapply IH; [|exact Hrun]. by eapply handlers_Inv_step.
Qed.

End WithHandler.
End ConsumerV1Facts.

(* ===================================================================== *)
(** * consumer: acknowledgement and return *)
(* ===================================================================== *)

(** The one element of a list that satisfies [p] is found at one place. *)
Lemma split_unique {A} (p : A → bool) (pre tl X Y : list A) (e a : A) :
  pre ++ e :: tl = X ++ a :: Y →
  p e = true →
  Forall (λ x, p x = false) X → Forall (λ x, p x = false) Y →
  pre = X ∧ e = a ∧ tl = Y.
Proof.
  revert X. induction pre as [|b pre IH]; intros [|x X] Heq He HX HY;
    simplify_eq/=.
  - done.
  - apply Forall_cons in HX as [Hx _]. congruence.
  - rewrite Forall_forall in HY.
    assert (e ∈ pre ++ e :: tl) as Hin by (apply elem_of_app; right; left).
    apply HY in Hin. congruence.
  - apply Forall_cons in HX as [_ HX].
    destruct (IH X ltac:(done) He HX HY) as (-> & -> & ->). done.
Qed.

Lemma filter_none {A} (p : A → bool) (l : list A) :
  Forall (λ x, p x = false) l → List.filter p l = [].
Proof.
  induction 1 as [|x l Hx _ IH]; [done|]. simpl. by rewrite Hx.
Qed.

Section HandleMsg.
Import ConsumerV1 ConsumerV1Facts.
Context {Err : Type}.
Implicit Types (c : Consumer) (h : handling Err) (e : event Err).

(** [handleMsg] around its acknowledgement. *)
Lemma handleMsg_shape c h :
  ∃ before after,
    handleMsg c h = before ++ EvCall (AMQP.Ack (tag_of h) true) :: after ∧
    EvHandleReturned (handle_result h) ∈ before ∧
    Forall (λ e, is_ack e = false) before ∧
    Forall (λ e, is_ack e = false) after.
Proof.
  destruct h as [d hres ares]. unfold handleMsg, tag_of. simpl.
  exists ((if DebugLogger c then [EvDebug "received message: %v" (AMQP.Body d)] else [])
          ++ [EvHandleMessage (AMQP.Body d); EvHandleReturned hres]
          ++ match hres with
             | Some e => [EvError "could not handle message: %v" e]
             | None => []
             end),
         (match ares with
          | Some e => [EvError "could not acknowledge message: %v" e]
          | None => []
          end).
  split_and!.
  - by rewrite <- !app_assoc.
  - apply elem_of_app. right. right. left.
  - destruct (DebugLogger c), hres; repeat constructor.
  - destruct ares; repeat constructor.
Qed.

(** What a handler has done so far, when it runs [handleMsg]: at most one
    acknowledgement, of its own delivery and after [HandleMessage]
    returned; exactly one when it is through. *)
Lemma handleMsg_prefix c h (evs rest : list (event Err)) :
  evs ++ rest = handleMsg c h →
  length (List.filter is_ack evs) ≤ 1 ∧
  (∀ pre e post, evs = pre ++ e :: post → is_ack e = true →
     e = EvCall (AMQP.Ack (tag_of h) true) ∧
     EvHandleReturned (handle_result h) ∈ pre) ∧
  (rest = [] → length (List.filter is_ack evs) = 1).
Proof.
  intros H. destruct (handleMsg_shape c h) as (X & Y & Hs & Hr & HX & HY).
  rewrite Hs in H.
  assert (List.filter is_ack (evs ++ rest)
          = [EvCall (AMQP.Ack (tag_of h) true)]) as Hf.
  { rewrite H, List.filter_app. simpl. by rewrite !filter_none. }
  rewrite List.filter_app in Hf. split_and!.
  - apply (f_equal length) in Hf. rewrite length_app in Hf. simpl in Hf. lia.
  - intros pre e post -> He. rewrite <- app_assoc in H. simpl in H.
    destruct (split_unique is_ack _ _ _ _ _ _ H He HX HY) as (-> & -> & _). done.
  - intros ->. simpl in Hf. rewrite app_nil_r in Hf. by rewrite Hf.
Qed.

End HandleMsg.

(** C1 (as amended).  In the consumer that registers without automatic
    acknowledgement and runs [handleMsg] for every delivery in a goroutine
    of its own: the [Ack] call of a delivery is made by the handler of
    that delivery, after [HandleMessage] has returned for it, with or
    without an error; a handler has made at most one [Ack] call, and
    exactly one when it is through; no other goroutine makes [Ack] calls.
    The consumer of consumer/pool.go registers with automatic
    acknowledgement and makes no [Ack] call. *)
Theorem ack_after_handling {Job Err Err1 : Type}
  (BuildJob : bytes → option Job * option Err) :
  (∀ (c : ConsumerV1.Consumer) (s : ConsumerV1.state Err1),
     ConsumerV1.reachable c s →
     (∀ k h rest, ConsumerV1.handlers s !! k = Some (h, rest) →
        let evs := ConsumerV1.events_of (ConsumerV1.tag_of h)
                     (ConsumerV1.trace s) in
        evs ++ rest = ConsumerV1.handleMsg c h ∧
        length (List.filter ConsumerV1.is_ack evs) ≤ 1 ∧
        (∀ pre e post, evs = pre ++ e :: post → ConsumerV1.is_ack e = true →
           e = ConsumerV1.EvCall (AMQP.Ack (ConsumerV1.tag_of h) true) ∧
           ConsumerV1.EvHandleReturned (ConsumerV1.handle_result h) ∈ pre) ∧
        (rest = [] → length (List.filter ConsumerV1.is_ack evs) = 1)) ∧
     (∀ g e, (g, e) ∈ ConsumerV1.trace s → ConsumerV1.is_ack e = true →
        ∃ k h rest, ConsumerV1.handlers s !! k = Some (h, rest) ∧
                    g = ConsumerV1.GHandler (ConsumerV1.tag_of h) ∧
                    e = ConsumerV1.EvCall (AMQP.Ack (ConsumerV1.tag_of h) true))) ∧
  (∀ (c : Consumer.Consumer) (s : Consumer.state Job Err),
     Consumer.reachable BuildJob c s →
     Forall (λ e, Consumer.is_ack e = false) (Consumer.trace s) ∧
     Consumer.consume_call c = AMQP.Consume (Consumer.Queue c) "" true false false false).
Proof.
  split.
  - intros c s [Hf Hp Hn Hh Ht]%ConsumerV1Facts.handlers_Inv_reachable. split.
    + intros k h rest Hk evs. destruct (Hh k h rest Hk) as [_ Hev].
      split; [exact Hev|]. by apply (handleMsg_prefix c h evs rest).
    + intros g e Hin Hack. pose proof (Ht g e Hin) as Hg.
      destruct g as [|t].
      { destruct e as [[]| | | | | | | |]; done. }
      destruct Hg as (k & h & rest & Hk & <-). exists k, h, rest.
      split; [done|]. split; [done|].
      apply ConsumerV1Facts.elem_of_events_of in Hin.
      apply list_elem_of_split in Hin as (pre & post & Hsplit).
      destruct (Hh k h rest Hk) as [_ Hev].
      destruct (handleMsg_prefix c h _ rest Hev) as (_ & Hone & _).
      by destruct (Hone pre e post Hsplit Hack).
  - intros c s [_ _ _ Ht]%ConsumerFacts.Consume_Inv_reachable. split; [|done].
    eapply Forall_impl; [exact Ht|]. by intros e [_ ?].
Qed.

(** C1, the counterexample: the consumer of consumer/pool.go takes a
    delivery, builds its job and hands it to the pool; the delivery stream
    ends and [Consume] stands at [<-forever].  It registered with
    automatic acknowledgement, and it has made no [Ack] call: the
    delivery was acknowledged when it was sent, before its job ran, and
    not by the consumer. *)
Lemma pool_consumer_never_acks :
  ∃ s,
    Consumer.run http_BuildJob consumer0 inputs_one_delivery Consumer.init = Some s ∧
    Consumer.at_pc s = Consumer.PcForever ∧
    (∃ job, Consumer.trace s !! 8 = Some (Consumer.EvAddJob (Some job))) ∧
    List.filter Consumer.is_ack (Consumer.trace s) = [] ∧
    Consumer.trace s !! 0
    = Some (Consumer.EvCall (AMQP.Consume "jobs" "" true false false false)).
Proof.
  vm_eq (Consumer.run http_BuildJob consumer0 inputs_one_delivery Consumer.init) E.
  eexists. split; [exact E|]. split; [reflexivity|]. split.
  - eexists. reflexivity.
  - split; reflexivity.
Qed.

(** C1, an instance: [HandleMessage] returns an error for the first
    delivery; its handler logs the error and acknowledges the delivery,
    once. *)
Lemma ack_after_handling_witness :
  ∃ s h,
    ConsumerV1.run consumer1 inputs_failed_handling ConsumerV1.init = Some s ∧
    ConsumerV1.handlers s !! 0 = Some (h, []) ∧
    ConsumerV1.handle_result h = Some "could not parse message" ∧
    length (List.filter ConsumerV1.is_ack
              (ConsumerV1.events_of (ConsumerV1.tag_of h) (ConsumerV1.trace s)))
    = 1.
Proof.
  vm_eq (ConsumerV1.run consumer1 inputs_failed_handling ConsumerV1.init) E.
  match type of E with
  | _ = Some ?st =>
      assert (ConsumerV1.reachable consumer1 st) as Hr
        by (exists inputs_failed_handling; exact E);
      exists st
  end.
  eexists. split; [exact E|]. split; [reflexivity|]. split; [reflexivity|].
  destruct (@ack_after_handling unit unit string (λ _, (None, None))) as [H _].
  destruct (H _ _ Hr) as [Hh _].
  destruct (Hh 0 _ [] eq_refl) as (_ & _ & _ & Hdone).
  exact (Hdone eq_refl).
Defined.

(** An acknowledgement with [multiple] set covers the deliveries before
    it: after the handler of the second delivery has acknowledged, the
    broker holds no unacknowledged delivery, and the handler of the first
    delivery has not yet called [HandleMessage]. *)
Lemma ack_multiple_covers_earlier :
  ∃ s,
    ConsumerV1.run consumer1 inputs_second_first ConsumerV1.init = Some s ∧
    ConsumerV1.unacked s = [] ∧
    ConsumerV1.events_of 1 (ConsumerV1.trace s) = [] ∧
    ConsumerV1.events_of 2 (ConsumerV1.trace s)
    = [ConsumerV1.EvHandleMessage payload_body_only;
       ConsumerV1.EvHandleReturned None;
       ConsumerV1.EvCall (AMQP.Ack 2 true)].
Proof.
  vm_eq (ConsumerV1.run consumer1 inputs_second_first ConsumerV1.init) E.
  eexists. split; [exact E|]. split; [reflexivity|]. split; reflexivity.
Qed.

(** C10.  [Consume] never returns.  With the pool: in every state nothing
    was sent on [forever] and it is not closed, no deferred call
    ([pool.Release], the two [Close]) has run, and once the goroutine is
    at [<-forever] the only step left is the exit of the process on a
    close notification.  With [handleMsg]: the main goroutine never gets
    to [wg.Wait()] and makes no [Close] call. *)
Theorem Consume_never_returns {Job Err Err1 : Type}
  (BuildJob : bytes → option Job * option Err) :
  (∀ (c : Consumer.Consumer) (s : Consumer.state Job Err),
     Consumer.reachable BuildJob c s →
     Consumer.at_pc s ≠ Consumer.PcReturned ∧
     Consumer.forever s = make_chan bool ∧
     Forall (λ e, Consumer.is_deferred e = false) (Consumer.trace s) ∧
     (Consumer.at_pc s = Consumer.PcForever →
      ∀ i s', Consumer.step BuildJob c i s = Some s' →
              i = Consumer.InConnClosed ∧ Consumer.at_pc s' = Consumer.PcExited)) ∧
  (∀ (c : ConsumerV1.Consumer) (s : ConsumerV1.state Err1),
     ConsumerV1.reachable c s →
     ConsumerV1.at_pc s ≠ ConsumerV1.PcWait ∧
     ConsumerV1.at_pc s ≠ ConsumerV1.PcReturned ∧
     ConsumerV1.forever s = make_chan bool ∧
     (∀ e, (ConsumerV1.GMain, e) ∈ ConsumerV1.trace s →
           e ≠ ConsumerV1.EvWait ∧ e ≠ ConsumerV1.EvCall AMQP.ChannelClose ∧
           e ≠ ConsumerV1.EvCall AMQP.ConnectionClose)).
Proof.
  split.
  - intros c s [Hf Hw Hp Ht]%ConsumerFacts.Consume_Inv_reachable. split_and!; try done.
    + eapply Forall_impl; [exact Ht|]. by intros e [? _].
    + intros Hpc i s' Hstep. unfold Consumer.step in Hstep. rewrite Hpc in Hstep.
      destruct i; simplify_eq/=; [|done]. by rewrite Hf in Hstep.
  - intros c s [Hf [Hp1 Hp2] _ _ Ht]%ConsumerV1Facts.handlers_Inv_reachable.
    split_and!; try done.
    intros e Hin. pose proof (Ht _ _ Hin) as He. simpl in He.
    split_and!; intros ->; done.
Qed.

(** C10, an instance: after its one delivery and the end of the stream the
    goroutine stands at [<-forever] and cannot go on. *)
Lemma Consume_never_returns_witness :
  ∃ s,
    Consumer.run http_BuildJob consumer0 inputs_one_delivery Consumer.init = Some s ∧
    Consumer.at_pc s = Consumer.PcForever ∧
    Consumer.step http_BuildJob consumer0 Consumer.InRun s = None ∧
    Forall (λ e, Consumer.is_deferred e = false) (Consumer.trace s).
Proof.
  vm_eq (Consumer.run http_BuildJob consumer0 inputs_one_delivery Consumer.init) E.
  match type of E with
  | _ = Some ?st =>
      assert (Consumer.reachable http_BuildJob consumer0 st) as Hr
        by (exists inputs_one_delivery; exact E);
      exists st
  end.
  split; [exact E|]. split; [reflexivity|]. split; [reflexivity|].
  destruct (@Consume_never_returns _ _ unit http_BuildJob) as [H _].
  destruct (H _ _ Hr) as (_ & _ & Hd & _). exact Hd.
Defined.

(* ===================================================================== *)
(** * handler: the request of a job, and the two versions of the handler *)
(* ===================================================================== *)

Section RequestFacts.
Context {URL DoErr : Type}.
Variable url_Parse : string → option URL.
Variable client_Do : Request URL → DoErr + string.
Implicit Types (h : HTTPJobBuilder) (rng : range_order).
Implicit Types (msg : httpMessage) (data : bytes) (hd : Header).

(** Where a value of the headers built by the loop comes from. *)
Lemma loop_lookup_inv es hd hd' K vs :
  buildHeaders_loop es hd = Ok hd' →
  hd' !! K = Some vs →
  hd !! K = Some vs ∨
  ∃ k v t, (k, v) ∈ es ∧ CanonicalMIMEHeaderKey k = K ∧
           is_text v = Some t ∧ vs = [t].
Proof.
  revert hd. induction es as [|[k0 v0] es IH]; intros hd H HK; simpl in H.
  { left. by simplify_eq. }
  assert (∃ t0, is_text v0 = Some t0 ∧
                buildHeaders_loop es (Header_Set k0 t0 hd) = Ok hd')
    as (t0 & Ht0 & Hloop).
  { destruct v0; simplify_eq/=; eauto. }
  destruct (IH _ Hloop HK) as [Hhd|(k & v & t & Hin & Hc & Ht & ->)].
  - unfold Header_Set in Hhd.
    destruct (decide (CanonicalMIMEHeaderKey k0 = K)) as [Hc|Hc].
    + rewrite Hc, lookup_insert_eq in Hhd. injection Hhd as <-.
      right. exists k0, v0, t0. split_and!; try done. by left.
    + rewrite lookup_insert_ne in Hhd by done. by left.
  - right. exists k, v, t. split_and!; try done. by right.
Qed.

(** X1.  The headers of the request of a job come from the payload, all of
    them: a header of the request is the canonical form of a key of the
    headers object, and its value is the one text of the value of such a
    key.  The builder adds no header of its own; with no headers object
    the request has no header. *)
Theorem headers_only_from_payload h rng msg0 data job :
  range_ok rng →
  (BuildJob_on url_Parse h rng msg0 data).1 = Ok job →
  ∃ msg, decoded data = Some msg ∧
    (Headers (RequestParams msg) = None → ReqHeader (req job) = ∅) ∧
    ∀ K vs, ReqHeader (req job) !! K = Some vs →
      ∃ hs k v t, Headers (RequestParams msg) = Some hs ∧ hs !! k = Some v ∧
                  CanonicalMIMEHeaderKey k = K ∧
                  (v = JString t ∨ v = JNumber t) ∧ vs = [t].
Proof.
  intros Hrng (msg & Hdec & Hm & Hreq)%BuildJob_on_Ok.
  exists msg. split; [done|].
  pose proof (buildRequest_cases url_Parse rng msg Hrng Hm) as Hc.
  rewrite Hreq in Hc. destruct Hc as (_ & _ & _ & _ & _ & Hhd).
  destruct (Headers (RequestParams msg)) as [hs|] eqn:Hhs.
  - split; [done|]. intros K vs HK.
    destruct (loop_lookup_inv _ _ _ _ _ Hhd HK)
      as [Hemp|(k & v & t & Hin & Hcan & Ht & ->)].
    { by rewrite lookup_empty in Hemp. }
    rewrite (Hrng _) in Hin. apply elem_of_map_to_list in Hin.
    exists hs, k, v, t. split_and!; try done.
    destruct v; simplify_eq/=; eauto.
  - split; [done|]. intros K vs HK. rewrite Hhd, lookup_empty in HK. done.
Qed.

(** The fields of the request of a job. *)
Lemma BuildJob_on_request h rng msg0 data job :
  (BuildJob_on url_Parse h rng msg0 data).1 = Ok job →
  ∃ msg, decoded data = Some msg ∧
    let p := RequestParams msg in
    ReqMethod (req job) = Method p ∧ Method p ≠ "" ∧
    validMethod (Method p) = true ∧
    URI p ≠ "" ∧ url_Parse (URI p) = Some (ReqURL (req job)) ∧
    client job = builder_client h ∧
    ContentLength (req job)
    = match Body p with Some b => Z.of_nat (length b) | None => 0%Z end.
Proof.
  rewrite BuildJob_on_eq. cbn [fst]. unfold decoded.
  destruct (Decode.Decode data zero_message) as [msg [e|]]; cbn [fst snd]; [done|].
  destruct (String.eqb_spec (Method (RequestParams msg)) "") as [|Hm]; [done|].
  destruct (String.eqb_spec (URI (RequestParams msg)) "") as [|Hu]; [done|].
  unfold buildRequest, NewRequest.
  destruct (String.eqb_spec (Method (RequestParams msg)) "") as [|_]; [done|].
  destruct (validMethod (Method (RequestParams msg))) eqn:Hv; simpl; [|done].
  destruct (url_Parse (URI (RequestParams msg))) as [u|] eqn:Hp; [|done].
  destruct (buildHeaders rng msg) as [[hd|]|]; intros [= <-]; exists msg; by simpl.
Qed.

(** X2.  The request of a job has the method of the payload as it is (the
    default of [http.NewRequest] for an empty method is never used), the
    URL that the uri of the payload parses to, the client of the builder,
    and the length of the body field as its content length. *)
Theorem request_of_payload h rng msg0 data job :
  (BuildJob_on url_Parse h rng msg0 data).1 = Ok job →
  ∃ msg, decoded data = Some msg ∧
    let p := RequestParams msg in
    ReqMethod (req job) = Method p ∧ Method p ≠ "" ∧
    validMethod (Method p) = true ∧
    URI p ≠ "" ∧ url_Parse (URI p) = Some (ReqURL (req job)) ∧
    client job = builder_client h ∧
    ContentLength (req job)
    = match Body p with Some b => Z.of_nat (length b) | None => 0%Z end.
Proof. apply BuildJob_on_request. Qed.

(** [parseMessage] on a new message and [parse] on the pooled message
    after its [reset] decode a payload alike. *)
Lemma parseMessage_parse msg0 data :
  match parseMessage data with
  | Ok msg => parse (reset msg0) data = (msg, None)
  | Err e => (parse (reset msg0) data).2 = Some e
  end.
Proof.
  unfold parseMessage, parse. rewrite reset_zero.
  destruct (Decode.Decode data zero_message) as [msg [e|]]; [done|].
  destruct (String.eqb _ ""); [done|]. by destruct (String.eqb _ "").
Qed.


End RequestFacts.

(** An instance: the payload with a body and no headers object gives a
    request with no header. *)
Lemma headers_only_from_payload_witness :
  range_ok id ∧
  ∃ job,
    (BuildJob_on URLLite.Parse builder0 id zero_message payload_body_only).1 = Ok job ∧
    ReqHeader (req job) = ∅.
Proof.
  split; [exact range_ok_id|].
  vm_eq (BuildJob_on URLLite.Parse builder0 id zero_message payload_body_only).1 E.
  eexists. split; [exact E|].
  destruct (headers_only_from_payload URLLite.Parse builder0 id zero_message
              payload_body_only _ range_ok_id E) as (msg & Hdec & Hnone & _).
  vm_eq (decoded payload_body_only) Ed.
  rewrite Ed in Hdec. injection Hdec as Hmsg.
  apply Hnone. rewrite <- Hmsg. reflexivity.
Defined.

(** An instance: the request of the payload with two headers. *)
Lemma request_of_payload_witness :
  ∃ job,
    (BuildJob_on URLLite.Parse builder0 id zero_message payload_headers).1 = Ok job ∧
    ReqMethod (req job) = "POST" ∧
    ReqURL (req job) = {| URLLite.Scheme := "http"; URLLite.Rest := "//x" |} ∧
    ContentLength (req job) = 0%Z.
Proof.
  vm_eq (BuildJob_on URLLite.Parse builder0 id zero_message payload_headers).1 E.
  eexists. split; [exact E|].
  destruct (request_of_payload URLLite.Parse builder0 id zero_message
              payload_headers _ E) as (msg & Hdec & Hm & _ & _ & _ & Hu & _ & Hl).
  vm_eq (decoded payload_headers) Ed.
  rewrite Ed in Hdec. injection Hdec as Hmsg. rewrite <- Hmsg in Hm, Hu, Hl.
  split; [exact Hm|]. split; [reflexivity|exact Hl].
Defined.

(* ===================================================================== *)
(** * consumer: New and the arguments of the queue *)
(* ===================================================================== *)

Lemma declare_all_stops (b : AMQP.broker) (cfg : Config) :
  let calls := (declare_all b cfg).1.1 in
  calls `prefix_of` (declare_all (λ _, false) cfg).1.1 ∧
  (∀ i c, calls !! i = Some c → S i < length calls → b c = false) ∧
  match (declare_all b cfg).2 with
  | Some (CErr _ c) => last calls = Some c ∧ b c = true
  | None => calls = (declare_all (λ _, false) cfg).1.1 ∧ ∀ c, c ∈ calls → b c = false
  end.
Proof.
  unfold declare_all. cbn zeta beta iota.
  set (cfg1 := if (Prefetch_Count cfg =? 0)%Z then set_Prefetch_Count 3 cfg else cfg).
  set (qos := AMQP.Qos _ _ _).
  set (qd := AMQP.QueueDeclare _ _ _ _ _ _).
  set (cfg2 := if String.eqb "" (Exchange_Name cfg1) && _ && _ && _ then _ else _).
  set (ed := AMQP.ExchangeDeclare _ _ _ _ _ _).
  set (qb := AMQP.QueueBind _ _ _ _).
  clearbody qos qd ed qb cfg2 cfg1.
  destruct (b qos) eqn:E1.
  { destruct (negb _); stops. }
  destruct (b qd) eqn:E2.
  { destruct (negb _); stops. }
  destruct (negb _); [|stops].
  destruct (b ed) eqn:E3; [stops|].
  destruct (b qb) eqn:E4; stops.
Qed.

(** The calls of [New] and its error. *)
Lemma New_stops (b : AMQP.broker) (cfg : Config) :
  let calls := (New b cfg).1.1 in
  calls `prefix_of` (New (λ _, false) cfg).1.1 ∧
  (∀ i c, calls !! i = Some c → S i < length calls → b c = false) ∧
  match (New b cfg).2 with
  | Some (CErr _ c) => last calls = Some c ∧ b c = true
  | None => calls = (New (λ _, false) cfg).1.1 ∧ ∀ c, c ∈ calls → b c = false
  end.
Proof.
  pose proof (declare_all_stops b cfg) as H. cbn zeta in H.
  unfold New. cbn zeta beta iota.
  set (d := AMQP.Dial _). clearbody d.
  destruct (declare_all (λ _, false) cfg) as [[full cfg'] err'].
  destruct (b d) eqn:E1; [stops|].
  destruct (b AMQP.OpenChannel) eqn:E2; [stops|].
  destruct (declare_all b cfg) as [[calls cfg''] err]. cbn [fst snd] in *.
  destruct H as (Hp & Hi & He). split_and!.
  - by do 2 apply prefix_cons.
  - intros [|[|i]] c Hc Hlen; simpl in *; simplify_eq; try done.
    apply (Hi i c Hc). lia.
  - destruct err as [[t c]|].
    + destruct He as [Hl Hb]. split; [|done].
      destruct calls as [|c0 calls]; [done|]. exact Hl.
    + destruct He as [-> Hall]. split; [done|].
      intros c Hc. in_list; simplify_eq; try done. by apply Hall.
Qed.

(** X4.  [New] makes its calls in one order and stops at the first call that
    fails: the calls made are a prefix of the calls made when every call
    succeeds, every call but the last one succeeded, and [New] returns an
    error exactly when the last call made failed, the error of that
    call. *)
Theorem New_stops_at_first_failure (b : AMQP.broker) (cfg : Config) :
  let calls := (New b cfg).1.1 in
  calls `prefix_of` (New (λ _, false) cfg).1.1 ∧
  (∀ i c, calls !! i = Some c → S i < length calls → b c = false) ∧
  match (New b cfg).2 with
  | Some (CErr _ c) => last calls = Some c ∧ b c = true
  | None => calls = (New (λ _, false) cfg).1.1 ∧ ∀ c, c ∈ calls → b c = false
  end.
Proof. apply New_stops. Qed.

Lemma transformToStringValue_not_marker (s : string) :
  transformToStringValue s ≠ EmptyString.
Proof.
  unfold transformToStringValue.
  destruct (String.eqb_spec s EmptyString); [done|done].
Qed.

Lemma declare_all_exchange (b : AMQP.broker) (cfg : Config) :
  let calls := (declare_all b cfg).1.1 in
  let cfg' := (declare_all b cfg).1.2 in
  (∀ name kind d a i nw,
     AMQP.ExchangeDeclare name kind d a i nw ∈ calls →
     name = Exchange_Name cfg ∧ name ≠ "" ∧ kind = Exchange_Type cfg ∧
     d = Exchange_Durable cfg ∧ a = Exchange_Autodelete cfg ∧
     i = false ∧ nw = false ∧ Exchange_Type cfg' = Exchange_Type cfg) ∧
  (∀ q key ex nw,
     AMQP.QueueBind q key ex nw ∈ calls →
     q = RabbitMq_Queue cfg ∧
     key = transformToStringValue (QueueSettings_Routingkey cfg) ∧
     ex = transformToStringValue (Exchange_Name cfg) ∧ nw = false ∧
     AMQP.ExchangeDeclare (Exchange_Name cfg) (Exchange_Type cfg)
       (Exchange_Durable cfg) (Exchange_Autodelete cfg) false false ∈ calls ∧
     ∃ pre,
       calls = pre ++ [AMQP.ExchangeDeclare (Exchange_Name cfg) (Exchange_Type cfg)
                         (Exchange_Durable cfg) (Exchange_Autodelete cfg) false false;
                       AMQP.QueueBind q key ex nw] ∧
       b (AMQP.ExchangeDeclare (Exchange_Name cfg) (Exchange_Type cfg)
            (Exchange_Durable cfg) (Exchange_Autodelete cfg) false false) = false) ∧
  (Exchange_Type cfg' ≠ Exchange_Type cfg →
     Exchange_Type cfg' = "direct" ∧ Exchange_Name cfg = "" ∧
     Exchange_Type cfg = "" ∧ (declare_all b cfg).2 = None).
Proof.
  unfold declare_all. cbn zeta beta iota.
  set (cfg1 := if (Prefetch_Count cfg =? 0)%Z then set_Prefetch_Count 3 cfg else cfg).
  assert (Exchange_Name cfg1 = Exchange_Name cfg ∧
          Exchange_Type cfg1 = Exchange_Type cfg ∧
          Exchange_Durable cfg1 = Exchange_Durable cfg ∧
          Exchange_Autodelete cfg1 = Exchange_Autodelete cfg ∧
          RabbitMq_Queue cfg1 = RabbitMq_Queue cfg ∧
          QueueSettings_Routingkey cfg1 = QueueSettings_Routingkey cfg)
    as (Hn & Ht & Hd & Ha & Hq & Hr).
  { subst cfg1. by destruct (Prefetch_Count cfg =? 0)%Z. }
  clearbody cfg1.
  set (qos := AMQP.Qos _ _ _).
  set (qd := AMQP.QueueDeclare _ _ _ _ _ _).
  assert (∀ x y z u v w, AMQP.ExchangeDeclare x y z u v w ≠ qos) as Hq1 by done.
  assert (∀ x y z u, AMQP.QueueBind x y z u ≠ qos) as Hq2 by done.
  assert (∀ x y z u v w, AMQP.ExchangeDeclare x y z u v w ≠ qd) as Hq3 by done.
  assert (∀ x y z u, AMQP.QueueBind x y z u ≠ qd) as Hq4 by done.
  clearbody qos qd.
  set (cfg2 := if String.eqb "" (Exchange_Name cfg1) && _ && _ && _ then _ else _).
  assert (Exchange_Name cfg2 = Exchange_Name cfg ∧
          Exchange_Durable cfg2 = Exchange_Durable cfg ∧
          Exchange_Autodelete cfg2 = Exchange_Autodelete cfg ∧
          RabbitMq_Queue cfg2 = RabbitMq_Queue cfg ∧
          QueueSettings_Routingkey cfg2 = QueueSettings_Routingkey cfg ∧
          (Exchange_Type cfg2 = Exchange_Type cfg ∨
           Exchange_Type cfg2 = "direct" ∧ Exchange_Name cfg = "" ∧
           Exchange_Type cfg = ""))
    as (Hn2 & Hd2 & Ha2 & Hq' & Hr2 & Ht2).
  { subst cfg2. rewrite Hn, Ht.
    destruct (String.eqb_spec "" (Exchange_Name cfg)) as [Hn0|]; cbn [andb];
      [|split_and!; try done; by left].
    destruct (String.eqb_spec "" (Exchange_Type cfg)) as [Ht0|]; cbn [andb];
      [|split_and!; try done; by left].
    destruct (negb _ && negb _); cbn; split_and!; try done; first [by left|by right]. }
  clearbody cfg2.
  destruct (b qos).
  { cbn [fst snd]. split_and!; [intros; in_list; other_call..|done]. }
  destruct (b qd).
  { cbn [fst snd]. split_and!; [intros; in_list; other_call..|done]. }
  destruct (String.eqb_spec "" (Exchange_Name cfg2)) as [He|He]; cbn [negb].
  { cbn [fst snd]. split_and!; [intros; in_list; other_call..|].
    intros Hne. destruct Ht2 as [|(? & ? & ?)]; done. }
  assert (Exchange_Type cfg2 = Exchange_Type cfg) as Ht3.
  { destruct Ht2 as [|(_ & Hc & _)]; [done|]. congruence. }
  rewrite Hn2, Hd2, Ha2, Hq', Hr2, Ht3 in *.
  set (ed := AMQP.ExchangeDeclare _ _ _ _ _ _).
  set (qb := AMQP.QueueBind _ _ _ _).
  destruct (b ed) eqn:Eed; [|destruct (b qb)]; cbn [fst snd].
  all: split_and!; [| |done].
  all: intros; in_list; try other_call.
  all: subst ed qb; simplify_eq; split_and!; try done.
  all: try (do 2 right; by left).
  all: by exists [qos; qd].
Qed.

(** X5.  The exchange that [New] declares is the configured one, under its
    configured name, which is not empty, and with its configured type:
    the type [direct] that [New] puts in the configuration when the
    exchange settings are all unset goes with an empty name, for which
    nothing is declared.  The queue is bound only after that declaration:
    the binding is the last call of [New], the call just before it is the
    declaration of the exchange, and that declaration succeeded.  The
    queue is bound to the key and the exchange of the configuration, where
    the marker [<empty>] stands for the empty string. *)
Theorem New_declares_configured_exchange (b : AMQP.broker) (cfg : Config) :
  let calls := (New b cfg).1.1 in
  let cfg' := (New b cfg).1.2 in
  (∀ name kind d a i nw,
     AMQP.ExchangeDeclare name kind d a i nw ∈ calls →
     name = Exchange_Name cfg ∧ name ≠ "" ∧ kind = Exchange_Type cfg ∧
     d = Exchange_Durable cfg ∧ a = Exchange_Autodelete cfg ∧
     i = false ∧ nw = false ∧ Exchange_Type cfg' = Exchange_Type cfg) ∧
  (∀ q key ex nw,
     AMQP.QueueBind q key ex nw ∈ calls →
     q = RabbitMq_Queue cfg ∧
     key = transformToStringValue (QueueSettings_Routingkey cfg) ∧
     ex = transformToStringValue (Exchange_Name cfg) ∧
     key ≠ EmptyString ∧ ex ≠ EmptyString ∧ nw = false ∧
     AMQP.ExchangeDeclare (Exchange_Name cfg) (Exchange_Type cfg)
       (Exchange_Durable cfg) (Exchange_Autodelete cfg) false false ∈ calls ∧
     ∃ pre,
       calls = pre ++ [AMQP.ExchangeDeclare (Exchange_Name cfg) (Exchange_Type cfg)
                         (Exchange_Durable cfg) (Exchange_Autodelete cfg) false false;
                       AMQP.QueueBind q key ex nw] ∧
       b (AMQP.ExchangeDeclare (Exchange_Name cfg) (Exchange_Type cfg)
            (Exchange_Durable cfg) (Exchange_Autodelete cfg) false false) = false) ∧
  (Exchange_Type cfg' ≠ Exchange_Type cfg →
     Exchange_Type cfg' = "direct" ∧ Exchange_Name cfg = "" ∧
     Exchange_Type cfg = "" ∧ (New b cfg).2 = None).
Proof.
  pose proof (declare_all_exchange b cfg) as H. cbn zeta in H.
  unfold New. cbn zeta beta iota.
  set (dial := AMQP.Dial _).
  assert (∀ x y z u v w, AMQP.ExchangeDeclare x y z u v w ≠ dial) as Hq1 by done.
  assert (∀ x y z u, AMQP.QueueBind x y z u ≠ dial) as Hq2 by done.
  clearbody dial.
  destruct (b dial).
  { cbn [fst snd]. split_and!; [intros; in_list; other_call..|done]. }
  destruct (b AMQP.OpenChannel).
  { cbn [fst snd]. split_and!; [intros; in_list; other_call..|done]. }
  destruct (declare_all b cfg) as [[calls cfg'] err]. cbn [fst snd] in *.
  destruct H as (He & Hb & Ht). split_and!; [| |done].
  - intros name kind d a i nw Hin. in_list; [other_call|]. by apply He.
  - intros q key ex nw Hin. in_list; [other_call|].
    destruct (Hb _ _ _ _ Hin) as (-> & -> & -> & -> & Hed & pre & -> & Hok).
    split_and!; try done; try apply transformToStringValue_not_marker.
    + by do 2 right.
    + by exists (dial :: AMQP.OpenChannel :: pre).
Qed.

Lemma size_insert_pos (m : AMQP.Table) (k : string) (v : AMQP.tvalue) :
  0 < size (<[k:=v]> m).
Proof.
  assert (size (<[k:=v]> m) ≠ 0) as H; [|lia].
  rewrite map_size_empty_iff. apply insert_non_empty.
Qed.

(** X6.  The arguments of the queue declaration.  They are nil exactly when no
    time to live above 0 and no dead-letter exchange are configured.
    Otherwise they hold the time to live, converted to 32 bits, when it
    is above 0; the dead-letter exchange when it is configured; the
    dead-letter routing key when both it and the dead-letter exchange are
    configured (without the exchange the key is dropped); and nothing
    else.  The marker [<empty>] stands for the empty string. *)
Theorem sanitizeQueueArgs_spec (cfg : Config) :
  let ttl := QueueSettings_MessageTTL cfg in
  let dlx := QueueSettings_DeadLetterExchange cfg in
  let dlk := QueueSettings_DeadLetterRoutingKey cfg in
  (sanitizeQueueArgs cfg = None ↔ (ttl ≤ 0)%Z ∧ dlx = "") ∧
  ∀ args, sanitizeQueueArgs cfg = Some args →
    args !! "x-message-ttl"
    = (if (0 <? ttl)%Z then Some (AMQP.TInt32 (int32 ttl)) else None) ∧
    args !! "x-dead-letter-exchange"
    = (if String.eqb dlx "" then None
       else Some (AMQP.TString (transformToStringValue dlx))) ∧
    args !! "x-dead-letter-routing-key"
    = (if String.eqb dlx "" || String.eqb dlk "" then None
       else Some (AMQP.TString (transformToStringValue dlk))) ∧
    (∀ k, is_Some (args !! k) →
          k = "x-message-ttl" ∨ k = "x-dead-letter-exchange" ∨
          k = "x-dead-letter-routing-key") ∧
    ((0 < ttl < 2147483648)%Z →
     args !! "x-message-ttl" = Some (AMQP.TInt32 ttl)).
Proof.
  intros ttl dlx dlk. unfold sanitizeQueueArgs. fold ttl dlx dlk.
  set (vx := AMQP.TString (transformToStringValue dlx)).
  set (vk := AMQP.TString (transformToStringValue dlk)).
  set (vt := AMQP.TInt32 (int32 ttl)).
  assert ((0 < ttl < 2147483648)%Z → vt = AMQP.TInt32 ttl) as Hint.
  { intros ?. subst vt. f_equal. unfold int32.
    rewrite Z.mod_small by lia. lia. }
  clearbody vx vk vt.
  destruct (Z.ltb_spec 0 ttl) as [Httl|Httl],
           (String.eqb_spec dlx "") as [Hx|Hx],
           (String.eqb_spec dlk "") as [Hk|Hk]; cbn [negb orb].
  all: match goal with
       | |- context [decide (0 < size ?m)] =>
           destruct (decide (0 < size m)) as [Hpos|Hpos]
       end.
  all: try (exfalso; rewrite map_size_empty in Hpos; lia).
  all: try (exfalso; apply Hpos; apply size_insert_pos).
  all: (split; [split; [try done; intros [? ?]; try done; lia
                       | try done; intros [? ?]; try done; lia]|]).
  all: intros args [= <-].
  all: split_and!.
  all: try (lk; reflexivity).
  all: try (intros Hr; lk; first [apply f_equal, Hint, Hr | lia]).
  all: intros k [v Hk'];
       repeat (apply lookup_insert_Some in Hk' as [[<- _]|[_ Hk']]; [eauto|]);
       by rewrite lookup_empty in Hk'.
Qed.

(* ===================================================================== *)
(** * consumer/pool.go: queue, registry and progress *)
(* ===================================================================== *)

Module PoolRunFacts.
Import Pool PoolFacts PoolRuns.

Section WithJob.
Context {J : Type}.
Implicit Types (s : state J) (l : label J) (ws : list (wstate J)).
Implicit Types (p : wstate J → bool).

Lemma count_lt p ws w st :
  ws !! w = Some st → p st = false → count p ws < length ws.
Proof.
  revert w. induction ws as [|st0 ws IH]; intros w Hw Hp; [done|].
  pose proof (count_le p ws). destruct w as [|w]; simpl in *.
  - injection Hw as ->. rewrite Hp. lia.
  - specialize (IH w Hw Hp). destruct (p st0); lia.
Qed.

Lemma count_none p ws w st :
  count p ws = 0 → ws !! w = Some st → p st = false.
Proof.
  revert w. induction ws as [|st0 ws IH]; intros w Hc Hw; [done|].
  simpl in Hc. destruct w as [|w]; simpl in Hw.
  - injection Hw as ->. destruct (p st); [lia|done].
  - apply (IH w); [|done]. destruct (p st0); lia.
Qed.

Lemma count_missing p ws :
  count p ws < length ws → ∃ w st, ws !! w = Some st ∧ p st = false.
Proof.
  induction ws as [|st0 ws IH]; simpl; [lia|]. intros H.
  destruct (p st0) eqn:Hp.
  - destruct IH as (w & st & Hw & Hst); [lia|]. by exists (S w), st.
  - by exists 0, st0.
Qed.

Lemma queue_bound_step n q l s s' :
  length (jobQueue s) ≤ q → step n q l s = Some s' → length (jobQueue s') ≤ q.
Proof.
  intros Hq Hstep. unfold step in Hstep. destruct (panicked s); [done|].
  destruct l; repeat case_match; simplify_eq; simpl in *; try done; try lia.
  - rewrite length_app. simpl. lia.
  - match goal with H : jobQueue s = [] |- _ => by rewrite H end.
Qed.

Lemma queue_bound_run n q ls s s' :
  length (jobQueue s) ≤ q → run n q ls s = Some s' → length (jobQueue s') ≤ q.
Proof.
  revert s. induction ls as [|l ls IH]; intros s Hq Hrun; simpl in Hrun.
  - by simplify_eq.
  - destruct (step n q l s) as [s1|] eqn:Hs; [|done].
    eapply IH; [|exact Hrun]. by eapply queue_bound_step.
Qed.

(** The capacities of the two buffered channels. *)
Lemma registry_room n q s :
  reachable n q s →
  length (jobQueue s) ≤ q ∧
  length (workerPool s) ≤ n ∧
  (∀ w, workers s !! w = Some WRegister → length (workerPool s) < n) ∧
  (∀ w, workers s !! w = Some WRegister → panicked s = false →
        step n q (LRegister w) s
        = Some (set_workerPool (workerPool s ++ [w]) (set_worker w WSelect s))).
Proof.
  intros Hr. pose proof (Inv_reachable n q s Hr) as [Hlen _ _ _ Hcount _].
  assert (∀ w, workers s !! w = Some WRegister → length (workerPool s) < n) as Hroom.
  { intros w Hw. pose proof (count_lt is_select _ _ _ Hw eq_refl). lia. }
  split_and!; try done.
  - destruct Hr as [ls Hrun]. eapply queue_bound_run; [|exact Hrun]. simpl. lia.
  - pose proof (count_le is_select (workers s)). lia.
  - intros w Hw Hp. unfold step. rewrite Hp, Hw.
    destruct (decide _) as [|Hn]; [done|]. destruct Hn. by apply (Hroom w).
Qed.

(** X7.  The two buffered channels stay within their capacities, and a worker
    never blocks when it registers: the registry has room for every worker
    that is not yet in it. *)
Theorem registry_has_room n q s :
  reachable n q s →
  length (jobQueue s) ≤ q ∧
  length (workerPool s) ≤ n ∧
  (∀ w, workers s !! w = Some WRegister → length (workerPool s) < n) ∧
  (∀ w, workers s !! w = Some WRegister → panicked s = false →
        step n q (LRegister w) s
        = Some (set_workerPool (workerPool s ++ [w]) (set_worker w WSelect s))).
Proof. apply registry_room. Qed.

(** What one step does to the jobs that wait. *)
Lemma pending_step n q l s s' :
  step n q l s = Some s' →
  pending s ++ match l with LAddJob job => [job] | _ => [] end
  = match l, disp s with LHandOff, DSend job _ => [job] | _, _ => [] end
    ++ pending s'.
Proof.
  unfold step, pending. destruct (panicked s); [done|].
  destruct l, (disp s) eqn:Hd; intros Hstep;
    repeat match goal with
           | H : context [match ?x with _ => _ end] |- _ =>
               destruct x eqn:?; simplify_eq
           end;
    simplify_eq; simpl; rewrite ?Hd; simpl; rewrite ?app_nil_r; try done.
  match goal with H : jobQueue s = [] |- _ => by rewrite H end.
Qed.

Lemma handed_run n q ls s s' :
  run n q ls s = Some s' →
  pending s ++ added ls = handed n q ls s ++ pending s'.
Proof.
  revert s. induction ls as [|l ls IH]; intros s Hrun; simpl in Hrun.
  { simplify_eq. simpl. by rewrite app_nil_r. }
  destruct (step n q l s) as [s1|] eqn:Hs; [|done].
  specialize (IH _ Hrun). pose proof (pending_step _ _ _ _ _ Hs) as Hp.
  cbn [handed]. rewrite Hs.
  assert (added (l :: ls)
          = match l with LAddJob job => [job] | _ => [] end ++ added ls) as ->.
  { by destruct l. }
  rewrite app_assoc, Hp, <- app_assoc, IH.
  destruct l; try done. by destruct (disp s).
Qed.

(** X8.  No job is lost, none is handed out twice, and the jobs reach the
    workers in the order in which they were submitted: the jobs submitted
    are the jobs handed to workers, in this order, followed by the job in
    the hands of the dispatcher and the jobs in the queue. *)
Theorem jobs_handed_in_order n q ls s :
  run n q ls (NewPool n) = Some s →
  added ls = handed n q ls (NewPool n) ++ pending s.
Proof. intros Hrun. by rewrite <- (handed_run _ _ _ _ _ Hrun). Qed.

(** A worker that is neither idle in the select, nor stopping, nor
    stopped can take a step of its own. *)
Lemma busy_worker_steps n q s w st :
  panicked s = false →
  workers s !! w = Some st →
  (∀ w', workers s !! w' = Some WRegister → length (workerPool s) < n) →
  is_select st = false → is_ack st = false → is_stopped st = false →
  ∃ l, internal l = true ∧ is_Some (step n q l s).
Proof.
  intros Hp Hw Hroom H1 H2 H3. destruct st as [| |[j|]| |]; try done.
  - exists (LRegister w). split; [done|]. unfold step. rewrite Hp, Hw.
    destruct (decide _) as [|Hn]; [done|]. destruct Hn. by apply (Hroom w).
  - exists (LFinish w). split; [done|]. unfold step. by rewrite Hp, Hw.
  - exists (LPanic w). split; [done|]. unfold step. by rewrite Hp, Hw.
Qed.

(** X9.  The pool does not deadlock.  In a pool with at least one worker, as
    long as no job has panicked and the dispatcher has not returned, either
    a goroutine of the pool can take a step, or the dispatcher waits in
    its select with an empty queue, where it accepts a job and accepts the
    stop of [Release]. *)
Theorem pool_makes_progress n q s :
  reachable n q s → 0 < n → panicked s = false → disp s ≠ DDone →
  (∃ l, internal l = true ∧ is_Some (step n q l s)) ∨
  (disp s = DSelect ∧ jobQueue s = [] ∧
   (∀ job, is_Some (step n q (LAddJob job) s)) ∧
   is_Some (step n q LRelease s)).
Proof.
  intros Hr Hn Hp Hd.
  destruct (registry_room n q s Hr) as (_ & _ & Hroom & _).
  pose proof (Inv_reachable n q s Hr) as [Hlen _ Hidle Hheld Hcount Hphase].
  unfold phase_ok in Hphase.
  assert (∀ i, count is_stopped (workers s) = i → count is_ack (workers s) = 0 →
               held01 (disp s) = 0 → i < n → workerPool s = [] →
               ∃ l, internal l = true ∧ is_Some (step n q l s)) as Hbusy.
  { intros i Hs Ha Hh Hi Hpool. rewrite Hpool, Hh in Hcount. simpl in Hcount.
    destruct (count_missing is_stopped (workers s)) as (w & st & Hw & Hst); [lia|].
    apply (busy_worker_steps n q s w st); try done.
    - by apply (count_none _ _ _ _ (eq_sym Hcount) Hw).
    - by apply (count_none _ _ _ _ Ha Hw). }
  destruct (disp s) as [|job|job w|i|i w|i w| |] eqn:Hdisp; [| | | | | | |done].
  - (* DSelect *)
    destruct Hphase as (_ & _ & Hrel).
    destruct (jobQueue s) as [|job0 jq] eqn:Hq.
    + right. split_and!; try done.
      * intros job. unfold step. rewrite Hp, Hq, Hdisp. simpl.
        destruct (decide _); [done|]. by destruct q; [|lia].
      * unfold step. by rewrite Hp, Hrel, Hdisp.
    + left. exists LTakeJob. split; [done|]. unfold step. by rewrite Hp, Hdisp, Hq.
  - (* DHaveJob *)
    left. destruct Hphase as (Hs & Ha & _).
    destruct (workerPool s) as [|w p] eqn:Hpool.
    + by apply (Hbusy 0).
    + exists LTakeWorker. split; [done|]. unfold step. by rewrite Hp, Hdisp, Hpool.
  - (* DSend *)
    left. exists LHandOff. split; [done|]. unfold step. rewrite Hp, Hdisp.
    destruct (Hheld w eq_refl) as [-> _]. done.
  - (* DStop *)
    left. destruct Hphase as (Hs & Ha & _).
    destruct (decide (i < n)) as [Hi|Hi].
    + destruct (workerPool s) as [|w p] eqn:Hpool.
      * by apply (Hbusy i).
      * exists LStopTake. split; [done|]. unfold step. rewrite Hp, Hdisp, Hpool.
        by destruct (decide _).
    + exists LStopExit. split; [done|]. unfold step. rewrite Hp, Hdisp.
      by destruct (decide _).
  - (* DStopSend *)
    left. exists LStopSend. split; [done|]. unfold step. rewrite Hp, Hdisp.
    destruct (Hheld w eq_refl) as [-> _]. done.
  - (* DStopWait *)
    left. exists LStopAck. split; [done|]. unfold step. rewrite Hp, Hdisp.
    destruct Hphase as (_ & _ & -> & _). done.
  - (* DReply *)
    left. exists LReply. split; [done|]. unfold step. rewrite Hp, Hdisp.
    destruct Hphase as (_ & ->). done.
Qed.

End WithJob.
End PoolRunFacts.

(** An instance: after the burst, worker 0 finishes its job; it finds room
    in the registry. *)
Lemma registry_has_room_witness :
  ∃ s, Pool.run 2 3 (Pool.schedule_burst ++ [Pool.LFinish 0]) (Pool.NewPool 2) = Some s ∧
       Pool.workers s !! 0 = Some Pool.WRegister ∧
       length (Pool.workerPool s) < 2 ∧
       is_Some (Pool.step 2 3 (Pool.LRegister 0) s).
Proof.
  vm_eq (Pool.run 2 3 (Pool.schedule_burst ++ [Pool.LFinish 0]) (Pool.NewPool 2)) E.
  match type of E with
  | _ = Some ?st =>
      assert (Pool.reachable 2 3 st) as Hr by (eexists; exact E); exists st
  end.
  split; [exact E|]. split; [reflexivity|].
  destruct (PoolRunFacts.registry_has_room 2 3 _ Hr) as (_ & _ & Hroom & Hstep).
  split; [exact (Hroom 0 eq_refl)|].
  rewrite (Hstep 0 eq_refl eq_refl). by eexists.
Defined.

(** An instance: the burst of three jobs on two workers. *)
Lemma jobs_handed_in_order_witness :
  Pool.run 2 3 Pool.schedule_burst (Pool.NewPool 2) = Some Pool.state_burst ∧
  PoolRuns.added Pool.schedule_burst = [Some 10; Some 11; Some 12] ∧
  PoolRuns.handed 2 3 Pool.schedule_burst (Pool.NewPool 2) ++
  PoolRuns.pending Pool.state_burst = [Some 10; Some 11; Some 12].
Proof.
  assert (Pool.run 2 3 Pool.schedule_burst (Pool.NewPool 2) = Some Pool.state_burst)
    as E by reflexivity.
  split; [exact E|]. split; [reflexivity|].
  by rewrite <- (PoolRunFacts.jobs_handed_in_order 2 3 _ _ E).
Defined.

(** An instance: after the burst both workers execute and the dispatcher
    holds the third job; a worker can finish. *)
Lemma pool_makes_progress_witness :
  Pool.reachable 2 3 Pool.state_burst ∧
  ∃ l, PoolRuns.internal l = true ∧ is_Some (Pool.step 2 3 l Pool.state_burst).
Proof.
  assert (Pool.reachable 2 3 Pool.state_burst) as Hr.
  { exists Pool.schedule_burst. reflexivity. }
  split; [exact Hr|].
  destruct (PoolRunFacts.pool_makes_progress 2 3 Pool.state_burst Hr)
    as [H|(Hd & _)]; [lia|done|done|exact H|done].
Defined.

(* ===================================================================== *)
(** * consumer: the deliveries and the jobs of Consume with the pool *)
(* ===================================================================== *)

Module ConsumerRunFacts.
Import Consumer ConsumerFacts ConsumerRuns.

Section WithJobBuilder.
Context {Job Err : Type}.
Variable BuildJob : bytes → option Job * option Err.
Implicit Types (c : Consumer) (s : state Job Err) (i : input).

Lemma jobs_added_app (tr tr' : list (event Job Err)) :
  jobs_added (tr ++ tr') = jobs_added tr ++ jobs_added tr'.
Proof. apply omap_app. Qed.

Lemma errors_logged_app (tr tr' : list (event Job Err)) :
  errors_logged (tr ++ tr') = errors_logged tr ++ errors_logged tr'.
Proof. apply omap_app. Qed.

Lemma step_not_exited c i s s' : step BuildJob c i s = Some s' → at_pc s ≠ PcExited.
Proof. unfold step. by destruct (at_pc s). Qed.

(** One step: the jobs added or about to be added grow by the job built for
    the delivery received, and the errors logged by its error; a step that
    exits the process adds nothing. *)
Lemma jobs_step c i s s' :
  Inv s →
  step BuildJob c i s = Some s' →
  jobs_added (trace s') `prefix_of`
    (jobs_added (trace s) ++ job_at (at_pc s)) ++ (fst <$> built BuildJob i) ∧
  errors_logged (trace s')
  = errors_logged (trace s) ++ omap snd (built BuildJob i) ∧
  (at_pc s' ≠ PcExited →
   jobs_added (trace s') ++ job_at (at_pc s')
   = (jobs_added (trace s) ++ job_at (at_pc s)) ++ (fst <$> built BuildJob i)).
Proof.
  intros [Hf Hw _ _]. unfold step, loop_body. rewrite Hf. intros Hstep.
  destruct (at_pc s) eqn:Hpc, i; simplify_eq/=.
  all: try match goal with b : bool |- _ => destruct b; simplify_eq/= end.
  all: try match goal with
           | H : context [BuildJob ?x] |- _ =>
               destruct (BuildJob x) as [? [?|]]; destruct (DebugLogger _);
               simplify_eq/=
           end.
  all: try match goal with
           | H : context [(?w =? 0)%Z] |- _ =>
               destruct (w =? 0)%Z; simplify_eq/=
           end.
  all: rewrite ?jobs_added_app, ?errors_logged_app; simpl; rewrite ?app_nil_r.
  all: split_and!; try done; try by eexists.
Qed.

Lemma built_deliveries (ins : list input) :
  mjoin (built BuildJob <$> ins)
  = (λ d, BuildJob (AMQP.Body d)) <$> deliveries ins.
Proof.
  induction ins as [|i ins IH]; [done|].
  destruct i; simpl; first [exact IH | f_equal; exact IH].
Qed.

Lemma jobs_run c ins s s' :
  Inv s →
  run BuildJob c ins s = Some s' →
  let results := mjoin (built BuildJob <$> ins) in
  jobs_added (trace s') `prefix_of`
    (jobs_added (trace s) ++ job_at (at_pc s)) ++ (fst <$> results) ∧
  errors_logged (trace s') = errors_logged (trace s) ++ omap snd results ∧
  (at_pc s' ≠ PcExited →
   jobs_added (trace s') ++ job_at (at_pc s')
   = (jobs_added (trace s) ++ job_at (at_pc s)) ++ (fst <$> results)).
Proof.
  revert s. induction ins as [|i ins IH]; intros s HI Hrun; simpl in Hrun.
  { simplify_eq. cbn. rewrite !app_nil_r. split_and!; try done.
    by apply prefix_app_r. }
  destruct (step BuildJob c i s) as [s1|] eqn:Hs; [|done].
  destruct (jobs_step c i s s1 HI Hs) as (Hpre & Herr & Heq).
  pose proof (Consume_Inv_step BuildJob c i s s1 HI Hs) as HI1.
  cbn [fmap list_fmap mjoin list_join]. rewrite fmap_app, omap_app, !app_assoc.
  assert (at_pc s1 = PcExited ∨ at_pc s1 ≠ PcExited) as [Hex|Hex]
    by (destruct (at_pc s1); first [by left | by right]).
  - destruct ins as [|i' ins].
    + simpl in Hrun. simplify_eq. cbn. rewrite !app_nil_r.
      split_and!; try done.
    + simpl in Hrun. destruct (step BuildJob c i' s1) as [s2|] eqn:Hs2; [|done].
      by apply step_not_exited in Hs2.
  - destruct (IH s1 HI1 Hrun) as (Hpre' & Herr' & Heq'). cbn zeta in *.
    rewrite (Heq Hex) in Hpre', Heq'. rewrite Herr in Herr'.
    split_and!; try done.
Qed.

(** X10.  Every delivery that the loop receives gives one call of
    [pool.AddJob], in the order of the deliveries, with the job that
    [BuildJob] returned for its body, nil when the build failed; the error
    logger is given the error of every failed build, in order, and nothing
    else.  Only the exit of the process on a closed connection can come
    between a delivery and its [AddJob]. *)
Theorem one_AddJob_per_delivery c ins s :
  run BuildJob c ins init = Some s →
  let results := (λ d, BuildJob (AMQP.Body d)) <$> deliveries ins in
  jobs_added (trace s) `prefix_of` (fst <$> results) ∧
  (at_pc s ≠ PcExited →
   jobs_added (trace s) ++ job_at (at_pc s) = fst <$> results) ∧
  errors_logged (trace s) = omap snd results.
Proof.
  intros Hrun results. subst results. rewrite <- built_deliveries.
  destruct (jobs_run c ins init s (Consume_Inv_init) Hrun) as (H1 & H2 & H3).
  by split_and!.
Qed.

(** X11.  [pool.WaitAll()] returns at once: [Consume] never calls [WaitCount],
    so the counter of the wait group is 0 in every state, also while jobs
    are queued or executing. *)
Theorem WaitAll_returns_at_once c s :
  reachable BuildJob c s →
  wg s = 0%Z ∧
  (at_pc s = PcWaitAll →
   step BuildJob c InRun s = Some (goto PcForever [EvWaitAll] s)).
Proof.
  intros [_ Hw _ _]%Consume_Inv_reachable. split; [done|].
  intros Hpc. unfold step. by rewrite Hpc, Hw.
Qed.

End WithJobBuilder.
End ConsumerRunFacts.

(** An instance: a delivery that cannot be built, then one that can: a nil
    job and a job are added, and one error is logged. *)
Lemma one_AddJob_per_delivery_witness :
  ∃ s job,
    Consumer.run http_BuildJob consumer0 inputs_bad_then_good Consumer.init = Some s ∧
    ConsumerRuns.jobs_added (Consumer.trace s) = [None; Some job] ∧
    ConsumerRuns.errors_logged (Consumer.trace s)
    = [ErrWrap "could not parse message" (ErrDecode SyntaxError)].
Proof.
  vm_eq (Consumer.run http_BuildJob consumer0 inputs_bad_then_good Consumer.init) E.
  match type of E with _ = Some ?st => exists st end.
  eexists. split; [exact E|]. split; [reflexivity|].
  destruct (ConsumerRunFacts.one_AddJob_per_delivery http_BuildJob consumer0 _ _ E)
    as (_ & _ & H).
  etrans; [exact H|]. vm_compute. reflexivity.
Defined.

(** An instance: the delivery channel is closed while the job of the one
    delivery is in the pool; [WaitAll] lets the goroutine through. *)
Lemma WaitAll_returns_at_once_witness :
  ∃ s,
    Consumer.run http_BuildJob consumer0 inputs_until_WaitAll Consumer.init = Some s ∧
    Consumer.at_pc s = Consumer.PcWaitAll ∧
    Consumer.step http_BuildJob consumer0 Consumer.InRun s
    = Some (Consumer.goto Consumer.PcForever [Consumer.EvWaitAll] s).
Proof.
  vm_eq (Consumer.run http_BuildJob consumer0 inputs_until_WaitAll Consumer.init) E.
  match type of E with
  | _ = Some ?st =>
      assert (Consumer.reachable http_BuildJob consumer0 st) as Hr
        by (exists inputs_until_WaitAll; exact E);
      exists st
  end.
  split; [exact E|]. split; [reflexivity|].
  destruct (ConsumerRunFacts.WaitAll_returns_at_once http_BuildJob consumer0 _ Hr)
    as [_ H].
  exact (H eq_refl).
Defined.

(* ===================================================================== *)
(** * consumer: what the broker holds unacknowledged *)
(* ===================================================================== *)

Section BrokerAcks.
Import ConsumerV1 ConsumerV1Facts.
Context {Err : Type}.
Implicit Types (c : Consumer) (s : state Err) (i : input Err).
Implicit Types (h : handling Err) (e : event Err) (tr : list (gid * event Err)).

(** The events of [handleMsg]: its one broker call is the acknowledgement
    of its delivery, with [multiple] set. *)
Lemma handleMsg_call c h (call : AMQP.call) :
  EvCall call ∈ handleMsg c h → call = AMQP.Ack (tag_of h) true.
Proof.
  unfold handleMsg, tag_of.
  destruct (DebugLogger c), (handle_result h), (ack_result h); simpl;
    intros Hin; in_list; by simplify_eq.
Qed.

Lemma no_ack_forallb (l : list (event Err)) :
  forallb (λ e, negb (is_ack e)) l = true ↔ Forall (λ e, is_ack e = false) l.
Proof.
  rewrite forallb_forall, Forall_forall. split.
  - intros H e He. apply list_elem_of_In, H in He. by destruct (is_ack e).
  - intros H e He. apply list_elem_of_In, H in He. by rewrite He.
Qed.

(** An event that is no acknowledgement leaves the broker as it is. *)
Lemma broker_ack_other e (u : list N) : is_ack e = false → broker_ack e u = u.
Proof. by destruct e as [[]| | | | | | | |]. Qed.

(** Where a handler stands against its [Ack] call: the statements it has
    left hold no [Ack] exactly when the call is among its events. *)
Lemma ack_made c h (evs rest : list (event Err)) :
  evs ++ rest = handleMsg c h →
  (EvCall (AMQP.Ack (tag_of h) true) ∈ evs ↔ Forall (λ e, is_ack e = false) rest).
Proof.
  intros Hev. destruct (handleMsg_shape c h) as (X & Y & Hs & _ & HX & HY).
  rewrite Hs in Hev. split.
  - intros (p & q & ->)%list_elem_of_split.
    rewrite <- app_assoc in Hev. simpl in Hev.
    destruct (split_unique is_ack _ _ _ _ _ _ Hev eq_refl HX HY) as (_ & _ & Hq).
    rewrite <- Hq in HY. by apply Forall_app in HY as [_ ?].
  - intros Hrest.
    assert (EvCall (AMQP.Ack (tag_of h) true) ∈ evs ++ rest) as Hin.
    { rewrite Hev. apply elem_of_app. right. by left. }
    apply elem_of_app in Hin as [?|Hin]; [done|].
    rewrite Forall_forall in Hrest. by apply Hrest in Hin.
Qed.

(** The next statement of a handler: when it is the [Ack] call, no [Ack]
    is left after it. *)
Lemma ack_next c h (evs rest : list (event Err)) e :
  evs ++ e :: rest = handleMsg c h →
  is_ack e = true →
  e = EvCall (AMQP.Ack (tag_of h) true) ∧ Forall (λ e, is_ack e = false) rest.
Proof.
  intros Hev He. destruct (handleMsg_shape c h) as (X & Y & Hs & _ & HX & HY).
  rewrite Hs in Hev.
  destruct (split_unique is_ack _ _ _ _ _ _ Hev He HX HY) as (_ & -> & ->). done.
Qed.

Lemma unacked_ok_step c i s s' :
  Inv c s → unacked_ok s → step c i s = Some s' → unacked_ok s'.
Proof.
  intros HI Hok Hstep. pose proof HI as [_ _ Hn Hh _].
  unfold step in Hstep. destruct i as [failed|body hres ares|k| |].
  - destruct (at_pc s); try done. destruct failed; simplify_eq; exact Hok.
  - destruct (alive (at_pc s)); [|done]. simplify_eq. intros t. simpl.
    rewrite elem_of_app, list_elem_of_singleton, (Hok t). split.
    + intros [[Hr Ha]| ->].
      * split; [lia|]. intros k h rest [Hk|[_ Hk]]%lookup_app_Some; [by apply (Ha k)|].
        destruct (k - length (handlers s)) as [|?]; simplify_eq/=.
        intros Hd. unfold ack_delivered, handleMsg in Hd. simpl in Hd.
        destruct (DebugLogger c), hres; simpl in Hd; done.
      * split; [rewrite Hn; lia|].
        intros k h rest [Hk|[_ Hk]]%lookup_app_Some.
        -- intros _. destruct (Hh k h rest Hk) as [-> _]. rewrite Hn.
           apply lookup_lt_Some in Hk. lia.
        -- destruct (k - length (handlers s)) as [|?]; simplify_eq/=.
           intros Hd. unfold ack_delivered, handleMsg in Hd. simpl in Hd.
           destruct (DebugLogger c), hres; simpl in Hd; done.
    + intros [Hr Ha].
      destruct (decide (t = next_tag s)) as [->|Hne]; [by right|].
      left. split; [lia|].
      intros k h rest Hk. apply (Ha k). by apply lookup_app_l_Some.
  - destruct (alive (at_pc s)); [|done].
    destruct (handlers s !! k) as [[h [|e rest]]|] eqn:Hk; try done.
    simplify_eq. intros t. simpl.
    destruct (Hh k h _ Hk) as [_ Hev].
    assert (∀ k' h' rest',
              <[k:=(h, rest)]> (handlers s) !! k' = Some (h', rest') →
              (k' = k ∧ h' = h ∧ rest' = rest) ∨
              (k' ≠ k ∧ handlers s !! k' = Some (h', rest'))) as Hins.
    { intros k' h' rest' [(-> & [= -> ->] & _)|[? ?]]%list_lookup_insert_Some;
        [by left|by right]. }
    destruct (is_ack e) eqn:He.
    + destruct (ack_next c h _ _ _ Hev He) as [-> Hrest].
      assert (ack_delivered (h, EvCall (AMQP.Ack (tag_of h) true) :: rest) = false)
        as Hbefore by done.
      destruct (ack_result h) as [err|] eqn:Hres.
      * (* the call failed: nothing changes at the broker *)
        rewrite (Hok t). split; intros [Hr Ha]; (split; [done|]).
        -- intros k' h' rest' [(-> & -> & ->)|[Hne Hk']]%Hins.
           ++ unfold ack_delivered. simpl. rewrite Hres. by rewrite andb_false_r.
           ++ by apply (Ha k').
        -- intros k' h' rest' Hk' Hd.
           destruct (decide (k' = k)) as [->|Hne]; [by simplify_eq|].
           apply (Ha k' h' rest'); [|done]. by rewrite list_lookup_insert_ne.
      * simpl. rewrite list_elem_of_filter, (Hok t). split.
        -- intros (Hlt & Hr & Ha). split; [done|].
           intros k' h' rest' [(-> & -> & ->)|[Hne Hk']]%Hins; [done|by apply (Ha k')].
        -- intros (Hr & Ha). split; [|split; [done|]].
           ++ apply (Ha k h rest).
              ** eapply lookup_insert_same_list. exact Hk.
              ** unfold ack_delivered. simpl. rewrite Hres, andb_true_r.
                 by apply no_ack_forallb.
           ++ intros k' h' rest' Hk' Hd.
              destruct (decide (k' = k)) as [->|Hne]; [by simplify_eq|].
              apply (Ha k' h' rest'); [|done]. by rewrite list_lookup_insert_ne.
    + assert (match ack_result h with
              | Some _ => unacked s
              | None => broker_ack e (unacked s)
              end = unacked s) as ->.
      { rewrite broker_ack_other by done. by destruct (ack_result h). }
      assert (ack_delivered (h, e :: rest) = ack_delivered (h, rest)) as Hsame.
      { unfold ack_delivered. simpl. by rewrite He. }
      rewrite (Hok t). split; intros [Hr Ha]; (split; [done|]).
      * intros k' h' rest' [(-> & -> & ->)|[Hne Hk']]%Hins.
        -- rewrite <- Hsame. by apply (Ha k).
        -- by apply (Ha k').
      * intros k' h' rest' Hk' Hd.
        destruct (decide (k' = k)) as [->|Hne].
        -- simplify_eq. apply (Ha k h rest).
           ++ eapply lookup_insert_same_list. exact Hk.
           ++ by rewrite <- Hsame.
        -- apply (Ha k' h' rest'); [|done]. by rewrite list_lookup_insert_ne.
  - destruct (at_pc s); try done.
    + destruct (chan_recv false (forever s)) as [[? ch]|]; [|done].
      simplify_eq. exact Hok.
    + destruct (forallb _ _); [|done]. simplify_eq. exact Hok.
  - destruct (alive (at_pc s)); [|done]. simplify_eq. exact Hok.
Qed.

Lemma unacked_ok_run c ins s s' :
  Inv c s → unacked_ok s → run c ins s = Some s' → unacked_ok s'.
Proof.
  revert s. induction ins as [|i ins IH]; intros s HI Hok Hrun; simpl in Hrun.
  - by simplify_eq.
  - destruct (step c i s) as [s1|] eqn:Hs; [|done].
    eapply IH; [| |exact Hrun].
    + by eapply handlers_Inv_step.
    + by eapply unacked_ok_step.
Qed.

(** X12.  An acknowledgement covers the deliveries before it.  Every handler
    acknowledges with [multiple] set, so, an [Ack] call that returns an
    error apart (it did not reach the broker), the broker holds a delivery
    unacknowledged exactly as long as neither its handler nor the handler
    of a later delivery has made its [Ack] call: when a handler has
    acknowledged, every earlier delivery counts as acknowledged, whether
    or not [HandleMessage] has returned, or was called, for it. *)
Theorem Ack_covers_earlier_deliveries c s :
  reachable c s →
  ∀ t, t ∈ unacked s ↔
       (1 ≤ t < next_tag s)%N ∧
       ∀ k h rest,
         handlers s !! k = Some (h, rest) →
         EvCall (AMQP.Ack (tag_of h) true) ∈ events_of (tag_of h) (trace s) →
         ack_result h = None →
         (tag_of h < t)%N.
Proof.
  intros Hr t. pose proof (handlers_Inv_reachable c s Hr) as HI.
  assert (unacked_ok s) as Hok.
  { destruct Hr as [ins Hrun].
    eapply unacked_ok_run; [apply handlers_Inv_init| |exact Hrun].
    intros t'. simpl. split; [by intros ?%elem_of_nil|]. intros [? _]. lia. }
  destruct HI as [_ _ _ Hh _]. rewrite (Hok t).
  split; intros [Hrange Ha]; (split; [done|]); intros k h rest Hk.
  - intros Hin Hres. apply (Ha k h rest Hk).
    destruct (Hh k h rest Hk) as [_ Hev].
    unfold ack_delivered. simpl. rewrite Hres, andb_true_r.
    apply no_ack_forallb. by apply (ack_made c h _ _ Hev).
  - intros Hd. unfold ack_delivered in Hd. simpl in Hd.
    apply andb_true_iff in Hd as [Hrest Hres].
    destruct (Hh k h rest Hk) as [_ Hev].
    apply (Ha k h rest Hk).
    + apply (ack_made c h _ _ Hev). by apply no_ack_forallb.
    + by destruct (ack_result h).
Qed.

End BrokerAcks.

(** An instance: the handler of the second delivery has acknowledged; the
    first delivery is no longer held by the broker, and its handler has
    not started. *)
Lemma Ack_covers_earlier_deliveries_witness :
  ∃ s,
    ConsumerV1.run consumer1 inputs_second_first ConsumerV1.init = Some s ∧
    ConsumerV1.events_of 1 (ConsumerV1.trace s) = [] ∧
    ConsumerV1.unacked s = [] ∧
    (1%N ∈ ConsumerV1.unacked s ↔
     (1 ≤ 1 < ConsumerV1.next_tag s)%N ∧
     ∀ k h rest,
       ConsumerV1.handlers s !! k = Some (h, rest) →
       ConsumerV1.EvCall (AMQP.Ack (ConsumerV1.tag_of h) true)
         ∈ ConsumerV1.events_of (ConsumerV1.tag_of h) (ConsumerV1.trace s) →
       ConsumerV1.ack_result h = None →
       (ConsumerV1.tag_of h < 1)%N).
Proof.
  vm_eq (ConsumerV1.run consumer1 inputs_second_first ConsumerV1.init) E.
  match type of E with
  | _ = Some ?st =>
      assert (ConsumerV1.reachable consumer1 st) as Hr
        by (exists inputs_second_first; exact E);
      exists st
  end.
  split; [exact E|]. split; [reflexivity|]. split; [reflexivity|].
  exact (Ack_covers_earlier_deliveries consumer1 _ Hr 1%N).
Defined.

(** An [Ack] that returns an error reaches nobody: the handler of the
    second delivery is through, its error is logged, and the broker still
    holds both deliveries. *)
Lemma failed_Ack_covers_nothing :
  ∃ s,
    ConsumerV1.run consumer1 inputs_failed_ack ConsumerV1.init = Some s ∧
    ConsumerV1.handlers s !! 1
    = Some ({| ConsumerV1.delivery := {| AMQP.Body := payload_body_only;
                                         AMQP.DeliveryTag := 2 |};
               ConsumerV1.handle_result := None;
               ConsumerV1.ack_result := Some "channel closed" |}, []) ∧
    ConsumerV1.unacked s = [1%N; 2%N].
Proof.
  vm_eq (ConsumerV1.run consumer1 inputs_failed_ack ConsumerV1.init) E.
  eexists. split; [exact E|]. split; reflexivity.
Qed.

(* ===================================================================== *)
(** * consumer: the URI that New dials *)
(* ===================================================================== *)

Lemma bytes_of_string_of_bytes (l : bytes) : bytes_of_string (string_of_bytes l) = l.
Proof. apply list_ascii_of_string_of_list_ascii. Qed.

Lemma hex_digit_safe (n : N) : (n < 16)%N → uri_safe (hex_digit n) = true.
Proof.
  intros Hn.
  assert (forallb (λ k, uri_safe (hex_digit (N.of_nat k))) (seq 0 16) = true) as H
    by (vm_compute; reflexivity).
  rewrite forallb_forall in H. specialize (H (N.to_nat n)).
  rewrite N2Nat.id in H. apply H. apply in_seq. lia.
Qed.

Lemma escape_byte_safe (b c : ascii) : c ∈ escape_byte b → uri_safe c = true.
Proof.
  unfold escape_byte. pose proof (N_ascii_bounded b) as Hb.
  destruct (_ || _) eqn:Hun.
  - intros ->%list_elem_of_singleton. unfold uri_safe.
    apply orb_true_iff in Hun as [Hun|Hun]; [by rewrite Hun|].
    apply orb_true_iff. right. simpl in *.
    repeat (apply orb_true_iff in Hun as [Hun|Hun]; [rewrite Hun; by rewrite ?orb_true_r|]).
    done.
  - destruct (Ascii.eqb b " ").
    + by intros ->%list_elem_of_singleton.
    + intros Hin. in_list; subst; [done| |]; apply hex_digit_safe; unfold byte_val.
      * apply N.Div0.div_lt_upper_bound. lia.
      * apply N.mod_lt. lia.
Qed.

Lemma uri_safe_no_delimiter (c : ascii) : uri_safe c = true → uri_delimiter c = false.
Proof.
  intros Hs. destruct (uri_delimiter c) eqn:Hd; [|done].
  unfold uri_delimiter in Hd. simpl in Hd.
  repeat (apply orb_true_iff in Hd as [Hd|Hd];
          [apply Ascii.eqb_eq in Hd as ->; by vm_compute in Hs|]).
  done.
Qed.

(** X13.  The user name and the password cannot break out of their place in
    the URI that [New] dials: they are written through [url.QueryEscape],
    whose output holds only letters, digits and the bytes [-_.~+%], so
    none of the delimiters [:], [@], [/], [?] and [#].  Host, port and
    virtual host are written as they are configured. *)
Theorem dial_uri_credentials_escaped (cfg : Config) :
  let user := QueryEscape (RabbitMq_Username cfg) in
  let pass := QueryEscape (RabbitMq_Password cfg) in
  dial_uri cfg
  = "amqp://" +:+ user +:+ ":" +:+ pass +:+ "@" +:+ RabbitMq_Host cfg
    +:+ ":" +:+ RabbitMq_Port cfg +:+ RabbitMq_Vhost cfg ∧
  ∀ c, c ∈ bytes_of_string user ++ bytes_of_string pass →
       uri_safe c = true ∧ uri_delimiter c = false.
Proof.
  intros user pass. split; [done|].
  assert (∀ s c, c ∈ bytes_of_string (QueryEscape s) → uri_safe c = true) as H.
  { intros s c. unfold QueryEscape. rewrite bytes_of_string_of_bytes.
    intros (l & Hc & Hl)%list_elem_of_join.
    apply list_elem_of_fmap in Hl as (b & -> & _). by eapply escape_byte_safe. }
  intros c [Hc|Hc]%elem_of_app; apply H in Hc;
    (split; [done|by apply uri_safe_no_delimiter]).
Qed.

(* ===================================================================== *)
(** * The scanner does not look past the value it reads *)
(* ===================================================================== *)

Module ScanExtend.
Import ScanFacts.
Local Open Scope char_scope.

Section Extend.
(** The bytes that follow in the stream. *)
Variable x : bytes.

Lemma skip_space_app (s r : bytes) (c : ascii) :
  skip_space s = c :: r → skip_space (s ++ x) = c :: r ++ x.
Proof.
  induction s as [|a s IH]; simpl; [done|].
  destruct (isSpace a); [done|]. by intros [= -> ->].
Qed.

Lemma lex_string_app (s body rest : bytes) :
  lex_string s = Some (body, rest) → lex_string (s ++ x) = Some (body, rest ++ x).
Proof.
  revert body rest. induction s as [s IH] using (induction_ltof1 _ (@length ascii)).
  unfold ltof in IH. intros body rest H.
  destruct s as [|c r]; simpl in H; [done|]. simpl.
  destruct (Ascii.eqb c dquote); [by simplify_eq|].
  destruct (Ascii.eqb c "\").
  - destruct r as [|e r1]; [done|]. simpl.
    destruct (Ascii.eqb e "u").
    + destruct r1 as [|h1 [|h2 [|h3 [|h4 r2]]]]; try done. simpl.
      destruct (_ && _); [|done].
      destruct (lex_string r2) as [[b' r']|] eqn:E; [|done]. simplify_eq.
      by rewrite (IH r2 ltac:(simpl; lia) _ _ E).
    + destruct (_ || _); [|done].
      destruct (lex_string r1) as [[b' r']|] eqn:E; [|done]. simplify_eq.
      by rewrite (IH r1 ltac:(simpl; lia) _ _ E).
  - destruct (_ <? _)%N; [done|].
    destruct (lex_string r) as [[b' r']|] eqn:E; [|done]. simplify_eq.
    by rewrite (IH r ltac:(simpl; lia) _ _ E).
Qed.

Lemma strip_prefix_app (p s r : bytes) :
  strip_prefix p s = Some r → strip_prefix p (s ++ x) = Some (r ++ x).
Proof.
  revert s. induction p as [|a p IH]; intros [|b s] H; simplify_eq/=; try done.
  destruct (Ascii.eqb a b); [|done]. by apply IH.
Qed.

Lemma span_digits_app (s d r : bytes) (c : ascii) :
  span_digits s = (d, c :: r) → span_digits (s ++ x) = (d, c :: r ++ x).
Proof.
  revert d. induction s as [|a s IH]; intros d H; simpl in *; [done|].
  destruct (is_digit a).
  - destruct (span_digits s) as [d' r'] eqn:E. simplify_eq.
    by rewrite (IH _ eq_refl).
  - by simplify_eq.
Qed.

Lemma lex_int_app (s i r : bytes) (c : ascii) :
  lex_int s = Some (i, c :: r) → lex_int (s ++ x) = Some (i, c :: r ++ x).
Proof.
  unfold lex_int. destruct s as [|a s]; [done|]. simpl.
  destruct (Ascii.eqb a "0"); [intros ?; by simplify_eq/=|].
  destruct (is_digit19 a); [|done].
  destruct (span_digits s) as [d r'] eqn:E. intros ?; simplify_eq.
  by rewrite (span_digits_app _ _ _ _ E).
Qed.

Lemma lex_frac_app (s f r : bytes) (c : ascii) :
  lex_frac s = Some (f, c :: r) → lex_frac (s ++ x) = Some (f, c :: r ++ x).
Proof.
  unfold lex_frac. destruct s as [|a s]; [done|]. simpl.
  destruct (Ascii.eqb a ".").
  - destruct (span_digits s) as [[|d0 d] r'] eqn:E; [done|]. intros ?; simplify_eq.
    by rewrite (span_digits_app _ _ _ _ E).
  - intros ?; by simplify_eq/=.
Qed.

Lemma lex_exp_app (s e r : bytes) (c : ascii) :
  lex_exp s = Some (e, c :: r) → lex_exp (s ++ x) = Some (e, c :: r ++ x).
Proof.
  unfold lex_exp. destruct s as [|a s]; [done|]. simpl.
  destruct (_ || _).
  - destruct s as [|b s]; simpl; [done|].
    destruct (_ || _).
    + destruct (span_digits s) as [[|d0 d] r'] eqn:E; [done|]. intros ?; simplify_eq.
      by rewrite (span_digits_app _ _ _ _ E).
    + destruct (span_digits (b :: s)) as [[|d0 d] r'] eqn:E; [done|].
      intros ?; simplify_eq.
      change (b :: s ++ x) with ((b :: s) ++ x).
      by rewrite (span_digits_app _ _ _ _ E).
  - intros ?; by simplify_eq/=.
Qed.

(** A number that is followed by a byte in the input is read alike
    whatever follows that byte. *)
Lemma lex_number_app (s lit r : bytes) (c : ascii) :
  lex_number s = Some (lit, c :: r) → lex_number (s ++ x) = Some (lit, c :: r ++ x).
Proof.
  unfold lex_number. intros H.
  destruct (match s with
            | a :: r => if Ascii.eqb a "-" then ([a], r) else ([], s)
            | [] => ([], s)
            end) as [sign r0] eqn:Es.
  destruct (lex_int r0) as [[i r1]|] eqn:Ei; [|done].
  destruct (lex_frac r1) as [[f r2]|] eqn:Ef; [|done].
  destruct (lex_exp r2) as [[e r3]|] eqn:Ee; [|done].
  injection H as <- ->.
  assert (∃ c2 r2', r2 = c2 :: r2') as (c2 & r2' & ->).
  { apply lex_exp_split in Ee. destruct r2; [by destruct e|eauto]. }
  assert (∃ c1 r1', r1 = c1 :: r1') as (c1 & r1' & ->).
  { apply lex_frac_split in Ef. destruct r1; [by destruct f|eauto]. }
  assert (match s ++ x with
          | a :: r => if Ascii.eqb a "-" then ([a], r) else ([], s ++ x)
          | [] => ([], s ++ x)
          end = (sign, r0 ++ x)) as ->.
  { destruct s as [|a s]; simpl in *.
    - by simplify_eq.
    - destruct (Ascii.eqb a "-"); by simplify_eq. }
  rewrite (lex_int_app _ _ _ _ Ei). cbn beta iota.
  pose proof (lex_frac_app _ _ _ _ Ef) as Hf. rewrite <- app_comm_cons in Hf.
  rewrite Hf. cbn beta iota.
  pose proof (lex_exp_app _ _ _ _ Ee) as He. rewrite <- app_comm_cons in He.
  by rewrite He.
Qed.

Lemma raw_of_extend (s r : bytes) :
  r `suffix_of` s → raw_of (s ++ x) (r ++ x) = raw_of s r.
Proof.
  intros [k ->]. rewrite <- app_assoc, !raw_of_app. done.
Qed.

Section ContainerExtend.
Variables value1 value2 : bytes → option (json * bytes).
Hypothesis value1_nil : value1 [] = None.
Hypothesis value1_suffix : ∀ s v r, value1 s = Some (v, r) → r `suffix_of` s.
Hypothesis value_ext : ∀ s v c r,
  value1 s = Some (v, c :: r) → value2 (s ++ x) = Some (v, c :: r ++ x).

Lemma skip_space_value (s : bytes) (v : json) (r : bytes) :
  value1 (skip_space s) = Some (v, r) → skip_space (s ++ x) = skip_space s ++ x.
Proof.
  intros H. destruct (skip_space s) as [|c r'] eqn:E.
  - by rewrite value1_nil in H.
  - by apply skip_space_app.
Qed.

Lemma elements_app n n' s vs r :
  elements value1 n s = Some (vs, r) → n ≤ n' →
  elements value2 n' (s ++ x) = Some (vs, r ++ x).
Proof.
  revert n' s vs r. induction n as [|n IH]; intros n' s vs r H Hn; [done|].
  destruct n' as [|n']; [lia|]. cbn [elements] in *.
  destruct (value1 s) as [[v r0]|] eqn:Ev; [|done].
  destruct (skip_space r0) as [|c r1] eqn:Es; [done|].
  destruct r0 as [|c0 r0']; [done|].
  rewrite (value_ext _ _ _ _ Ev).
  change (c0 :: r0' ++ x) with ((c0 :: r0') ++ x).
  rewrite (skip_space_app _ _ _ Es).
  destruct (Ascii.eqb c ",").
  - destruct (elements value1 n (skip_space r1)) as [[vs' r2]|] eqn:E; [|done].
    simplify_eq.
    assert (skip_space (r1 ++ x) = skip_space r1 ++ x) as ->.
    { destruct n as [|n]; [done|]. cbn [elements] in E.
      destruct (value1 (skip_space r1)) as [[v' r']|] eqn:Ev'; [|done].
      by eapply skip_space_value. }
    by rewrite (IH n' _ _ _ E ltac:(lia)).
  - destruct (Ascii.eqb c "]"); by simplify_eq.
Qed.

Lemma members_app n n' s ms r :
  members value1 n s = Some (ms, r) → n ≤ n' →
  members value2 n' (s ++ x) = Some (ms, r ++ x).
Proof.
  revert n' s ms r. induction n as [|n IH]; intros n' s ms r H Hn; [done|].
  destruct n' as [|n']; [lia|]. cbn [members] in *.
  destruct s as [|q r0]; [done|]. cbn [app].
  destruct (Ascii.eqb q dquote); [|done].
  destruct (lex_string r0) as [[key r1]|] eqn:Ek; [|done].
  rewrite (lex_string_app _ _ _ Ek).
  destruct (skip_space r1) as [|c r2] eqn:Es1; [done|].
  rewrite (skip_space_app _ _ _ Es1).
  destruct (Ascii.eqb c ":"); [|done].
  destruct (value1 (skip_space r2)) as [[v r4]|] eqn:Ev; [|done].
  rewrite (skip_space_value _ _ _ Ev).
  destruct (skip_space r4) as [|d r5] eqn:Es4; [done|].
  destruct r4 as [|c4 r4']; [done|].
  rewrite (value_ext _ _ _ _ Ev).
  change (c4 :: r4' ++ x) with ((c4 :: r4') ++ x).
  rewrite (raw_of_extend _ _ (value1_suffix _ _ _ Ev)).
  rewrite (skip_space_app _ _ _ Es4).
  destruct (Ascii.eqb d ",").
  - destruct (members value1 n (skip_space r5)) as [[ms' r6]|] eqn:E; [|done].
    simplify_eq.
    assert (skip_space (r5 ++ x) = skip_space r5 ++ x) as ->.
    { destruct (skip_space r5) as [|c5 r5'] eqn:E5.
      - by destruct n.
      - by apply skip_space_app. }
    by rewrite (IH n' _ _ _ E ltac:(lia)).
  - destruct (Ascii.eqb d "}"); by simplify_eq.
Qed.

End ContainerExtend.

Lemma value_nil n : value n [] = None.
Proof. by destruct n. Qed.

(** A value is read alike whatever follows it, but for a number at the
    very end of the input, which more digits would extend. *)
Lemma value_app n n' s v r :
  value n s = Some (v, r) → n ≤ n' →
  r ≠ [] ∨ (∀ lit, v ≠ JNumber lit) →
  value n' (s ++ x) = Some (v, r ++ x).
Proof.
  revert n' s v r. induction n as [|n IH]; intros n' s v r H Hn Hr; [done|].
  destruct n' as [|n']; [lia|]. cbn [value] in *.
  destruct s as [|c r0]; [done|]. cbn [app].
  assert (∀ s v c r, value n s = Some (v, c :: r) →
                     value n' (s ++ x) = Some (v, c :: r ++ x)) as Hext.
  { intros s' v' c' r' H'. apply (IH n' _ _ _ H'); [lia|by left]. }
  destruct (Ascii.eqb c "{").
  { destruct (skip_space r0) as [|c1 r1] eqn:E0; [done|].
    rewrite (skip_space_app _ _ _ E0).
    destruct (Ascii.eqb c1 "}"); [by simplify_eq|].
    destruct (members _ _ _) as [[ms r2]|] eqn:E; [|done]. simplify_eq.
    change (c1 :: r1 ++ x) with ((c1 :: r1) ++ x).
    rewrite (members_app (value n) (value n') (value_nil n) (value_suffix n) Hext
               _ (length (r0 ++ x)) _ _ _ E); [done|].
    rewrite length_app. lia. }
  destruct (Ascii.eqb c "[").
  { destruct (skip_space r0) as [|c1 r1] eqn:E0; [done|].
    rewrite (skip_space_app _ _ _ E0).
    destruct (Ascii.eqb c1 "]"); [by simplify_eq|].
    destruct (elements _ _ _) as [[vs r2]|] eqn:E; [|done]. simplify_eq.
    change (c1 :: r1 ++ x) with ((c1 :: r1) ++ x).
    rewrite (elements_app (value n) (value n') (value_nil n) Hext
               _ (length (r0 ++ x)) _ _ _ E); [done|].
    rewrite length_app. lia. }
  destruct (Ascii.eqb c dquote).
  { destruct (lex_string r0) as [[b r1]|] eqn:E; [|done]. simplify_eq.
    by rewrite (lex_string_app _ _ _ E). }
  destruct (Ascii.eqb c "t").
  { destruct (strip_prefix _ r0) as [r1|] eqn:E; [|done]. simplify_eq.
    by rewrite (strip_prefix_app _ _ _ E). }
  destruct (Ascii.eqb c "f").
  { destruct (strip_prefix _ r0) as [r1|] eqn:E; [|done]. simplify_eq.
    by rewrite (strip_prefix_app _ _ _ E). }
  destruct (Ascii.eqb c "n").
  { destruct (strip_prefix _ r0) as [r1|] eqn:E; [|done]. simplify_eq.
    by rewrite (strip_prefix_app _ _ _ E). }
  destruct (lex_number (c :: r0)) as [[lit r1]|] eqn:E; [|done]. simplify_eq.
  destruct Hr as [Hr|Hr]; [|by destruct (Hr (string_of_bytes lit))].
  destruct r as [|c1 r1]; [done|].
  change (c :: r0 ++ x) with ((c :: r0) ++ x).
  by rewrite (lex_number_app _ _ _ _ E).
Qed.

(** [Decoder.Decode] reads the first value of the stream and leaves the
    rest. *)
Lemma scan_app (data : bytes) (v : json) :
  scan data = Some v → (∀ lit, v ≠ JNumber lit) → scan (data ++ x) = Some v.
Proof.
  unfold scan. intros H Hv.
  destruct (value (S (length data)) (skip_space data)) as [[v' r]|] eqn:E; [|done].
  simplify_eq.
  assert (skip_space (data ++ x) = skip_space data ++ x) as ->.
  { destruct (skip_space data) as [|c r'] eqn:Es; [done|]. by apply skip_space_app. }
  rewrite (value_app _ (S (length (data ++ x))) _ _ _ E); [done| |by right].
  rewrite length_app. lia.
Qed.

End Extend.
End ScanExtend.

Section TrailingBytes.
Context {URL : Type}.
Variable url_Parse : string → option URL.

Lemma Decode_app (data extra : bytes) (msg msg' : httpMessage) :
  Decode.Decode data msg = (msg', None) →
  Decode.Decode (data ++ extra) msg = (msg', None).
Proof.
  unfold Decode.Decode. destruct (scan data) as [v|] eqn:Hs; [|done].
  intros Hst. rewrite (ScanExtend.scan_app extra data v Hs); [done|].
  intros lit ->. by simplify_eq/=.
Qed.


End TrailingBytes.


(* ===================================================================== *)
(** * handler: the fields that a payload must have *)
(* ===================================================================== *)

Lemma store_param_Method p saved (m : member) :
  Method (Decode.store_param (p, saved) m).1 = Method p ∨
  (Decode.field_match "method" m.1.1 = true ∧
   m.2 = JString (Method (Decode.store_param (p, saved) m).1)).
Proof.
  destruct m as [[key raw] v]. cbn [fst snd Decode.store_param].
  destruct (Decode.field_match "uri" key).
  { left. by destruct (Decode.store_string _ _ _ _). }
  destruct (Decode.field_match "headers" key).
  { left. by destruct (Decode.store_map _ _ _ _). }
  destruct (Decode.field_match "body" key); [by left|].
  destruct (Decode.field_match "method" key); [|by left].
  destruct v; simpl; auto.
Qed.

Lemma store_param_URI p saved (m : member) :
  URI (Decode.store_param (p, saved) m).1 = URI p ∨
  (Decode.field_match "uri" m.1.1 = true ∧
   m.2 = JString (URI (Decode.store_param (p, saved) m).1)).
Proof.
  destruct m as [[key raw] v]. cbn [fst snd Decode.store_param].
  destruct (Decode.field_match "uri" key).
  { destruct v; simpl; auto. }
  destruct (Decode.field_match "headers" key).
  { left. by destruct (Decode.store_map _ _ _ _). }
  destruct (Decode.field_match "body" key); [by left|].
  destruct (Decode.field_match "method" key); [|by left].
  left. by destruct (Decode.store_string _ _ _ _).
Qed.

Lemma store_params_field (name : string) (get : requestParams → string) :
  (∀ p saved m,
     get (Decode.store_param (p, saved) m).1 = get p ∨
     (Decode.field_match name m.1.1 = true ∧
      m.2 = JString (get (Decode.store_param (p, saved) m).1))) →
  ∀ p v saved,
    get (Decode.store_params p v saved).1 = get p ∨
    has_string_field name v (get (Decode.store_params p v saved).1).
Proof.
  intros Hone p v saved. destruct v as [| | | | |ms]; try by left. simpl.
  assert (∀ ms p saved,
            get (foldl Decode.store_param (p, saved) ms).1 = get p ∨
            ∃ key raw, (key, raw, JString (get (foldl Decode.store_param (p, saved) ms).1)) ∈ ms
                       ∧ Decode.field_match name key = true) as H.
  { clear p saved ms. intros ms. induction ms as [|m ms IH]; intros p saved; [by left|].
    cbn [foldl].
    destruct (Decode.store_param (p, saved) m) as [p' saved'] eqn:E.
    destruct (IH p' saved') as [Heq|(key & raw & Hin & Hf)].
    - rewrite Heq. pose proof (Hone p saved m) as Hm. rewrite E in Hm.
      cbn [fst] in Hm. destruct Hm as [Hm|[Hf Hv]]; [by left|].
      right. destruct m as [[key raw] v]. simpl in *. subst v.
      exists key, raw. split; [by left|done].
    - right. exists key, raw. split; [by right|done]. }
  destruct (H ms p saved) as [?|(key & raw & Hin & Hf)]; [by left|].
  right. by exists ms, key, raw.
Qed.

Lemma store_message_field (name : string) (get : requestParams → string) :
  (∀ p v saved,
     get (Decode.store_params p v saved).1 = get p ∨
     has_string_field name v (get (Decode.store_params p v saved).1)) →
  ∀ msg v,
    let s := get (RequestParams (Decode.store_message msg v).1) in
    s = get (RequestParams msg) ∨
    ∃ p, p ∈ request_params_of v ∧ has_string_field name p s.
Proof.
  intros Hone msg v. destruct v as [| | | | |ms]; try by left. simpl.
  generalize (@None decode_error) as saved. revert msg.
  induction ms as [|m ms IH]; intros msg saved; [by left|].
  cbn [foldl]. destruct m as [[key raw] v]. cbn [Decode.store_member fst snd omap list_omap].
  destruct (Decode.field_match "request_params" key).
  - destruct (Decode.store_params _ v saved) as [p' saved'] eqn:E.
    destruct (IH {| RequestParams := p' |} saved') as [Heq|(p & Hin & Hf)].
    + rewrite Heq. cbn [RequestParams].
      pose proof (Hone (RequestParams msg) v saved) as Hv. rewrite E in Hv.
      cbn [fst] in Hv. destruct Hv as [?|Hv]; [by left|].
      right. exists v. split; [by left|done].
    + right. exists p. split; [by right|done].
  - destruct (IH msg saved) as [?|(p & Hin & Hf)]; [by left|].
    right. by exists p.
Qed.

Section RequiredFields.
Context {URL : Type}.
Variable url_Parse : string → option URL.

(** X15.  A job is built only from a payload that gives a method and a uri: the
    payload is a JSON object with a [request_params] object that has a
    [method] member whose value is a string that is not empty, and a
    [request_params] object that has such a [uri] member; these strings
    are the method and the uri that the request is made of.  A payload
    that lacks one of them, or gives it as [null], as an empty string or
    as a value that is not a string, is rejected. *)
Theorem job_needs_method_and_uri (h : HTTPJobBuilder) (rng : range_order)
  (msg0 : httpMessage) (data : bytes) (job : HTTPJob) :
  (BuildJob_on url_Parse h rng msg0 data).1 = Ok job →
  ∃ v method uri,
    scan data = Some v ∧
    method ≠ "" ∧ uri ≠ "" ∧
    (∃ p, p ∈ request_params_of v ∧ has_string_field "method" p method) ∧
    (∃ p, p ∈ request_params_of v ∧ has_string_field "uri" p uri) ∧
    ReqMethod (req job) = method ∧
    url_Parse uri = Some (ReqURL (req job)).
Proof.
  intros Hjob.
  destruct (BuildJob_on_request url_Parse h rng msg0 data job Hjob)
    as (msg & Hdec & Hm & Hmne & _ & Hune & Hu & _).
  unfold decoded, Decode.Decode in Hdec.
  destruct (scan data) as [v|] eqn:Hs; [|done].
  destruct (Decode.store_message zero_message v) as [msg' [e|]] eqn:Hst; [done|].
  injection Hdec as ->.
  exists v, (Method (RequestParams msg)), (URI (RequestParams msg)).
  split_and!; try done.
  - pose proof (store_message_field "method" Method
                  (store_params_field "method" Method store_param_Method)
                  zero_message v) as H.
    cbn zeta in H. rewrite Hst in H. cbn [fst] in H.
    destruct H as [H|H]; [by destruct Hmne|done].
  - pose proof (store_message_field "uri" URI
                  (store_params_field "uri" URI store_param_URI)
                  zero_message v) as H.
    cbn zeta in H. rewrite Hst in H. cbn [fst] in H.
    destruct H as [H|H]; [by destruct Hune|done].
Qed.

End RequiredFields.

(** An instance: the payload with two headers gives its method as the
    string [POST]. *)
Lemma job_needs_method_and_uri_witness :
  ∃ job v,
    (BuildJob_on URLLite.Parse builder0 id zero_message payload_headers).1 = Ok job ∧
    scan payload_headers = Some v ∧
    ∃ p, p ∈ request_params_of v ∧ has_string_field "method" p "POST".
Proof.
  vm_eq (BuildJob_on URLLite.Parse builder0 id zero_message payload_headers).1 E.
  destruct (job_needs_method_and_uri URLLite.Parse builder0 id zero_message
              payload_headers _ E)
    as (v & m & u & Hs & _ & _ & Hm & _ & Hrm & _).
  cbn [ReqMethod req] in Hrm. subst m.
  eexists _, v. split; [exact E|]. split; [exact Hs|exact Hm].
Defined.

(* ===================================================================== *)
(** * handler: the tests of the package, on the model *)
(* ===================================================================== *)

(** [TestParseMessage]: uri, body, headers and method of [msgStr]. *)
Lemma TestParseMessage :
  parseMessage msgStr
  = Ok {| RequestParams :=
            {| URI := "http://xxx.ccc.de:8080/ccc/bbb/api/df";
               Headers := Some {[ "x-user-uuid" := JString "xxxdddsa-bdf7-4382-8cc4-351367c39e48";
                                  "x-user-scope" := JString "cdasf";
                                  "x-php-ob-level" := JNumber "1";
                                  "x-cc-bb-async" := JNumber "1";
                                  "x-cc-bb-ddasd" := JNumber "1.45";
                                  "Content-Type" := JString "application/json" ]};
               Body := Some msgStr_body;
               Method := "POST" |} |}.
Proof. vm_compute. reflexivity. Qed.

(** [TestBuildRequest]: method, headers and body of the request built from
    [msgStr]. *)
Lemma TestBuildRequest :
  ∃ msg rq,
    parseMessage msgStr = Ok msg ∧
    buildRequest URLLite.Parse id msg = Ok rq ∧
    ReqMethod rq = "POST" ∧
    ReqHeader rq = {[ "Content-Type" := ["application/json"];
                      "X-Cc-Bb-Async" := ["1"];
                      "X-Cc-Bb-Ddasd" := ["1.45"];
                      "X-Php-Ob-Level" := ["1"];
                      "X-User-Scope" := ["cdasf"];
                      "X-User-Uuid" := ["xxxdddsa-bdf7-4382-8cc4-351367c39e48"] ]} ∧
    ReqBody rq = Some msgStr_body.
Proof.
  vm_eq (parseMessage msgStr) E.
  match type of E with _ = Ok ?m => exists m end.
  vm_eq (buildRequest URLLite.Parse id
           match parseMessage msgStr with Ok m => m | Err _ => zero_message end) E2.
  eexists. split; [exact E|]. split.
  - etrans; [|exact E2]. apply (f_equal (buildRequest URLLite.Parse id)).
    by rewrite E.
  - split; [reflexivity|]. split; vm_compute; reflexivity.
Qed.

(* ===================================================================== *)
(** * consumer: Consume with automatic acknowledgement *)
(* ===================================================================== *)

Module ConsumerV0Facts.
Import ConsumerV1 ConsumerV1Facts.

Section WithHandler.
Context {Err : Type}.
Implicit Types (c : Consumer) (s : state Err) (i : input Err).
Implicit Types (h : handling Err) (e : event Err) (tr : list (gid * event Err)).

(** [handleMsg] makes no call on the broker. *)
Lemma handleMsg_no_call c h e :
  e ∈ ConsumerV0.handleMsg c h → ConsumerV0.is_call e = false.
Proof.
  unfold ConsumerV0.handleMsg.
  destruct (DebugLogger c), (handle_result h); simpl; intros Hin; in_list;
    by simplify_eq.
Qed.

Lemma auto_Inv_tag_lt c s g e :
  ConsumerV0.Inv c s → (g, e) ∈ trace s →
  match g with GMain => True | GHandler t => (t < next_tag s)%N end.
Proof.
  intros [_ _ Hn _ Hh Ht] Hin. pose proof (Ht g e Hin) as Hg.
  destruct g as [|t]; [done|]. destruct Hg as (_ & k & h & rest & Hk & <-).
  destruct (Hh k h rest Hk) as [-> _]. rewrite Hn.
  apply lookup_lt_Some in Hk. lia.
Qed.

Lemma auto_Inv_init c : ConsumerV0.Inv c (@init Err).
Proof.
  split; try done.
  intros g e Hin. by apply elem_of_nil in Hin.
Qed.

Lemma auto_Inv_main c s p (evs : list (event Err)) :
  ConsumerV0.Inv c s → p ≠ PcWait → p ≠ PcReturned →
  Forall (λ e, main_event e = true) evs →
  ConsumerV0.Inv c (ConsumerV0.main_step p evs s).
Proof.
  intros [Hf Hp Hn Hu Hh Ht] Hp1 Hp2 Hevs. split; simpl; try done.
  - intros k h rest Hk. destruct (Hh k h rest Hk) as [H1 H2]. split; [done|].
    by rewrite events_of_app, events_of_main, app_nil_r.
  - intros g e [Hin|Hin]%elem_of_app; [by apply (Ht g e)|].
    apply list_elem_of_fmap in Hin as (e' & [= -> ->] & Hin).
    rewrite Forall_forall in Hevs. by apply Hevs.
Qed.

Lemma auto_Inv_step c i s s' :
  ConsumerV0.Inv c s → ConsumerV0.step c i s = Some s' → ConsumerV0.Inv c s'.
Proof.
  intros HI Hstep. pose proof HI as [Hf Hp Hn Hu Hh Ht].
  destruct i as [failed|body hres ares|k| |]; simpl in Hstep.
  - (* InConsume *)
    destruct (at_pc s); try done. destruct failed; simplify_eq;
      (apply auto_Inv_main; [done..|repeat constructor]).
  - (* InDelivery *)
    destruct (alive (at_pc s)); simplify_eq. split; simpl; try done.
    + rewrite length_app. simpl. rewrite Hn. lia.
    + intros k h rest [Hk|[Hk Heq]]%lookup_app_Some.
      * by apply Hh.
      * destruct (k - length (handlers s)) as [|?] eqn:Ek; simplify_eq/=.
        unfold tag_of. simpl. split.
        { rewrite Hn. f_equal. lia. }
        rewrite events_of_fresh; [done|].
        intros g e Hin. pose proof (auto_Inv_tag_lt c s g e HI Hin) as Hg.
        destruct g; [done|]. lia.
    + intros g e Hin. pose proof (Ht g e Hin) as Hg. destruct g; [done|].
      destruct Hg as (Hc & k & h & rest & Hk & Htag). split; [done|].
      exists k, h, rest. split; [|done]. by apply lookup_app_l_Some.
  - (* InHandler *)
    destruct (alive (at_pc s)); [|done].
    destruct (handlers s !! k) as [[h [|e rest]]|] eqn:Hk; simplify_eq.
    destruct (Hh k h _ Hk) as [Htag Hev].
    assert (ConsumerV0.is_call e = false) as Hcall.
    { apply (handleMsg_no_call c h). rewrite <- Hev.
      apply elem_of_app. right. by left. }
    split; simpl; try done.
    + by rewrite length_insert.
    + rewrite Hu. by destruct e.
    + intros k' h' rest' Hk'.
      apply list_lookup_insert_Some in Hk' as [(<- & [= <- <-] & _)|[Hne Hk']].
      * split; [done|]. rewrite events_of_app. unfold events_of at 2.
        cbn [omap list_omap fst snd]. fold (tag_of h). rewrite N.eqb_refl.
        by rewrite <- app_assoc.
      * destruct (Hh k' h' rest' Hk') as [Htag' Hev']. split; [done|].
        rewrite events_of_app. unfold events_of at 2.
        cbn [omap list_omap fst snd]. fold (tag_of h).
        assert (tag_of h ≠ tag_of h') as Hd by (rewrite Htag, Htag'; lia).
        apply N.eqb_neq in Hd as ->. by rewrite app_nil_r.
    + intros g e' [Hin|Hin%list_elem_of_singleton]%elem_of_app.
      * pose proof (Ht g e' Hin) as Hg. destruct g as [|t]; [done|].
        destruct Hg as (Hc & k' & h' & rest' & Hk' & Ht'). split; [done|].
        destruct (decide (k = k')) as [<-|Hne].
        -- simplify_eq. exists k, h, rest. split; [|done].
           by eapply lookup_insert_same_list.
        -- exists k', h', rest'. split; [|done].
           by rewrite list_lookup_insert_ne.
      * injection Hin as -> ->. split; [done|]. exists k, h, rest. split; [|done].
        by eapply lookup_insert_same_list.
  - (* InRun *)
    destruct (at_pc s) eqn:Hpc; try done.
    + rewrite Hf in Hstep. done.
    + by destruct Hp.
  - (* InConnClosed *)
    destruct (alive (at_pc s)); simplify_eq.
    apply auto_Inv_main; [done..|repeat constructor].
Qed.

Lemma auto_Inv_reachable c s : ConsumerV0.reachable c s → ConsumerV0.Inv c s.
Proof.
  intros [ins Hrun]. revert Hrun. generalize (auto_Inv_init c). generalize (@init Err).
  induction ins as [|i ins IH]; intros s0 HI Hrun; simpl in Hrun.
  - by simplify_eq.
  - destruct (ConsumerV0.step c i s0) as [s1|] eqn:Hs; [|done].
    eapply IH; [|exact Hrun]. by eapply auto_Inv_step.
Qed.

(** X16.  The consumer that registers with automatic acknowledgement.  The
    handler of a delivery runs [handleMsg] on it: it calls
    [HandleMessage] once, with the body of its delivery, and logs its
    error.  No goroutine acknowledges, and a handler makes no call on the
    broker at all: the broker holds nothing unacknowledged, whether
    [HandleMessage] failed, is still running, or was never reached because
    the process exited.  [Consume] does not return. *)
Theorem auto_ack_consumer c s :
  ConsumerV0.reachable c s →
  ConsumerV0.consume_call c = AMQP.Consume (Queue c) "" true false false false ∧
  (∀ k h rest, handlers s !! k = Some (h, rest) →
     events_of (tag_of h) (trace s) ++ rest = ConsumerV0.handleMsg c h ∧
     List.filter (λ e, match e with EvHandleMessage _ => true | _ => false end)
       (ConsumerV0.handleMsg c h)
     = [EvHandleMessage (AMQP.Body (delivery h))]) ∧
  (∀ g e, (g, e) ∈ trace s → is_ack e = false ∧
     (ConsumerV0.is_call e = true → g = GMain)) ∧
  unacked s = [] ∧
  at_pc s ≠ PcWait ∧ at_pc s ≠ PcReturned.
Proof.
  intros [Hf [Hp1 Hp2] Hn Hu Hh Ht]%auto_Inv_reachable.
  split_and!; try done.
  - intros k h rest Hk. destruct (Hh k h rest Hk) as [_ Hev]. split; [done|].
    unfold ConsumerV0.handleMsg.
    by destruct (DebugLogger c), (handle_result h).
  - intros g e Hin. pose proof (Ht g e Hin) as Hg. destruct g as [|t].
    + split; [|done]. by destruct e as [[]| | | | | | | |].
    + destruct Hg as [Hc _]. split; [by destruct e|]. congruence.
Qed.

End WithHandler.
End ConsumerV0Facts.

(** An instance: two deliveries, [HandleMessage] fails on the first; both
    handlers run to their end and nothing is acknowledged. *)
Lemma auto_ack_consumer_witness :
  ∃ s,
    ConsumerV0.run consumer1 inputs_auto_ack ConsumerV1.init = Some s ∧
    ConsumerV1.events_of 1 (ConsumerV1.trace s)
    = [ConsumerV1.EvHandleMessage payload_not_json;
       ConsumerV1.EvHandleReturned (Some "could not parse message");
       ConsumerV1.EvError "could not handle message: %v" "could not parse message"] ∧
    ConsumerV1.unacked s = [].
Proof.
  vm_eq (ConsumerV0.run consumer1 inputs_auto_ack ConsumerV1.init) E.
  match type of E with
  | _ = Some ?st =>
      assert (ConsumerV0.reachable consumer1 st) as Hr
        by (exists inputs_auto_ack; exact E);
      exists st
  end.
  split; [exact E|]. split; [reflexivity|].
  destruct (ConsumerV0Facts.auto_ack_consumer consumer1 _ Hr) as (_ & _ & _ & Hu & _).
  exact Hu.
Defined.

(* ===================================================================== *)
(** * main: the queue and the loggers of the consumer *)
(* ===================================================================== *)

Lemma New_queue (b : AMQP.broker) (cfg : Config) :
  (New b cfg).2 = None →
  RabbitMq_Queue (New b cfg).1.2 = RabbitMq_Queue cfg ∧
  AMQP.QueueDeclare (RabbitMq_Queue cfg) true false false false
    (sanitizeQueueArgs
       (if (Prefetch_Count cfg =? 0)%Z then set_Prefetch_Count 3 cfg else cfg))
  ∈ (New b cfg).1.1.
Proof.
  unfold New, declare_all. cbn zeta beta iota.
  set (cfg1 := if (Prefetch_Count cfg =? 0)%Z then set_Prefetch_Count 3 cfg else cfg).
  assert (RabbitMq_Queue cfg1 = RabbitMq_Queue cfg) as Hq.
  { subst cfg1. by destruct (Prefetch_Count cfg =? 0)%Z. }
  set (args := sanitizeQueueArgs cfg1). clearbody args.
  set (dial := AMQP.Dial _). clearbody dial.
  set (cfg2 := if String.eqb "" (Exchange_Name cfg1) && _ && _ && _ then _ else _).
  assert (RabbitMq_Queue cfg2 = RabbitMq_Queue cfg) as Hq2.
  { subst cfg2. rewrite <- Hq. by destruct (_ && _ && _ && _). }
  clearbody cfg2. rewrite Hq. clearbody cfg1.
  destruct (b dial); [done|]. destruct (b AMQP.OpenChannel); [done|].
  destruct (b (AMQP.Qos _ _ _)); [done|].
  destruct (b (AMQP.QueueDeclare _ _ _ _ _ _)); [done|].
  destruct (negb _).
  - destruct (b (AMQP.ExchangeDeclare _ _ _ _ _ _)); [done|].
    destruct (b (AMQP.QueueBind _ _ _ _)); [done|]. cbn [fst snd].
    intros _. split; [done|]. do 3 right. by left.
  - cbn [fst snd]. intros _. split; [done|]. do 3 right. by left.
Qed.

Section MainFacts.
Import Main.
Variable LoadAndParse : string → option (Config * Logs).
Variable OpenFile : string → bool.
Variable b : AMQP.broker.

(** X17.  [main] gets to [Consume] only with a configuration that loads, two
    log files that open and a consumer that [New] made without an error.
    The queue that [New] declares and that [Consume] registers on (in
    either version of the consumer with a message handler) is the one of
    the flag [queue-name] when the flag is given, the configured one
    otherwise.  The debug logger is there exactly in verbose mode,
    and each logger writes to its file, and to the terminal as well
    exactly in verbose mode. *)
Theorem main_reaches_Consume (f : Flags) calls c errLogger infLogger :
  Action LoadAndParse OpenFile b f = Consume calls c errLogger infLogger →
  ∃ cfg logs,
    configuration f ≠ "" ∧
    LoadAndParse (configuration f) = Some (cfg, logs) ∧
    OpenFile (Logs_Error logs) = true ∧ OpenFile (Logs_Info logs) = true ∧
    let queue :=
      if String.eqb (queue_name f) "" then RabbitMq_Queue cfg else queue_name f in
    ConsumerV1.Queue c = queue ∧
    (∃ args, AMQP.QueueDeclare queue true false false false args ∈ calls) ∧
    (∀ call, call ∈ calls → b call = false) ∧
    ConsumerV1.consume_call c = AMQP.Consume queue "" false false false false ∧
    ConsumerV0.consume_call c = AMQP.Consume queue "" true false false false ∧
    ConsumerV1.DebugLogger c = verbose f ∧
    errLogger = File (Logs_Error logs) :: (if verbose f then [Stderr] else []) ∧
    infLogger = File (Logs_Info logs) :: (if verbose f then [Stdout] else []).
Proof.
  unfold Action, createLogger.
  destruct (String.eqb_spec (configuration f) "") as [|Hc]; [done|].
  destruct (LoadAndParse (configuration f)) as [[cfg logs]|] eqn:Hl; [|done].
  destruct (OpenFile (Logs_Error logs)) eqn:He; [|done].
  destruct (OpenFile (Logs_Info logs)) eqn:Hi; [|done].
  set (cfg1 := if negb _ then _ else cfg).
  assert (RabbitMq_Queue cfg1
          = if String.eqb (queue_name f) "" then RabbitMq_Queue cfg else queue_name f)
    as Hq.
  { subst cfg1. by destruct (String.eqb (queue_name f) ""). }
  clearbody cfg1.
  pose proof (New_queue b cfg1) as Hn.
  pose proof (New_stops b cfg1) as (_ & _ & Hall).
  destruct (New b cfg1) as [[calls' cfg'] [err|]]; [done|].
  cbn [fst snd] in *. destruct (Hn eq_refl) as [Hq' Hin]. destruct Hall as [_ Hall].
  intros [= <- <- <- <-]. exists cfg, logs. cbn zeta. rewrite <- Hq.
  split_and!; try done.
  - eexists. exact Hin.
  - unfold ConsumerV1.consume_call. simpl. by rewrite Hq'.
  - unfold ConsumerV0.consume_call. simpl. by rewrite Hq'.
  - unfold getDebugLogger. by destruct (verbose f).
  - by destruct (verbose f).
  - by destruct (verbose f).
Qed.

End MainFacts.

(** An instance: the flag [queue-name] is given in verbose mode. *)
Lemma main_reaches_Consume_witness :
  ∃ calls c errLogger infLogger,
    Main.Action loader0 (λ _, true) broker_ok flags0
    = Main.Consume calls c errLogger infLogger ∧
    ConsumerV1.Queue c = "override" ∧
    ConsumerV1.DebugLogger c = true.
Proof.
  vm_eq (Main.Action loader0 (λ _, true) broker_ok flags0) E.
  eexists _, _, _, _. split; [exact E|].
  destruct (main_reaches_Consume loader0 (λ _, true) broker_ok flags0 _ _ _ _ E)
    as (cfg & logs & _ & _ & _ & _ & Hq & _ & _ & _ & _ & Hd & _).
  split; [exact Hq|exact Hd].
Defined.

(* ===================================================================== *)
(** * consumer: New does not close what it opened *)
(* ===================================================================== *)

(** The calls of [New] when every call succeeds. *)
Lemma New_all_calls (cfg : Config) :
  head (New (λ _, false) cfg).1.1 = Some (AMQP.Dial (dial_uri cfg)) ∧
  Forall (λ c, is_setup_call c = true) (New (λ _, false) cfg).1.1.
Proof.
  unfold New, declare_all. cbn zeta beta iota.
  destruct (negb _); cbn [fst snd]; (split; [done|repeat constructor]).
Qed.

(** X18.  [New] never closes the channel or the connection: when a call fails
    after the connection was opened, [New] returns the error and leaves
    the connection, and the channel if it was opened, as they are.  Its
    calls are [Dial], which comes first, [Channel], [Qos], [QueueDeclare],
    [ExchangeDeclare] and [QueueBind], and no other. *)
Theorem New_never_closes (b : AMQP.broker) (cfg : Config) :
  let calls := (New b cfg).1.1 in
  head calls = Some (AMQP.Dial (dial_uri cfg)) ∧
  ∀ c, c ∈ calls →
       is_setup_call c = true ∧
       c ≠ AMQP.ChannelClose ∧ c ≠ AMQP.ConnectionClose.
Proof.
  cbn zeta. destruct (New_stops b cfg) as ([k Hk] & _ & _).
  destruct (New_all_calls cfg) as [Hhead Hall]. rewrite Hk in Hhead, Hall.
  split.
  - unfold New. destruct (b (AMQP.Dial _)); [done|].
    destruct (b AMQP.OpenChannel); [done|]. by destruct (declare_all b cfg) as [[? ?] ?].
  - intros c Hin. rewrite Forall_forall in Hall.
    assert (is_setup_call c = true) as Hc by (apply Hall, elem_of_app; by left).
    split; [done|]. split; intros ->; done.
Qed.
